(** * RubeGoldberg engine: sound pool, timer, sprite manager and text renderer

    A shallow embedding of the engine layer of the RubeGoldberg demo
    (Sound.cpp, timer.cpp, SpriteMan.cpp, sprite.cpp, SpriteSheet.cpp,
    Shader.cpp, renderer.cpp), the properties of it that the design document
    states, and further properties read off the code.

    Conventions.
    - A C++ [int] is a [Z] in the 32-bit two's complement range; arithmetic
      that can leave the range is written with [Int.wrap].
    - A call that reads an array out of bounds or dereferences a null pointer
      has no defined result: it is [Fail UB].  A call that reaches the
      engine's ABORT macro is [Fail (Abort msg)].
    - A [float] is an IEEE-754 binary32 value ([spec_float] at precision 24). *)

From Stdlib Require Import ZArith QArith Qabs Qfield Lia Lqa String Ascii Bool.
From Stdlib Require Import Floats.SpecFloat.
From Equations Require Import Equations.
From stdpp Require Import base list strings.

Local Open Scope Z_scope.

(** ** Machine integers *)

Module Int.

Definition INT_MIN : Z := - 2 ^ 31.
Definition INT_MAX : Z := 2 ^ 31 - 1.

(** Reduction of a mathematical integer to the value an [int] holds. *)
Definition wrap (z : Z) : Z := (z + 2 ^ 31) mod 2 ^ 32 - 2 ^ 31.

Definition add (a b : Z) : Z := wrap (a + b).
Definition sub (a b : Z) : Z := wrap (a - b).
Definition mul (a b : Z) : Z := wrap (a * b).

Definition in_range (z : Z) : Prop := INT_MIN <= z <= INT_MAX.

End Int.

(** ** Outcomes of a call *)

(** How a call can fail to return. *)
Inductive failure : Type :=
| UB                    (* undefined behaviour: out-of-bounds access, null dereference *)
| Abort (msg : string)  (* the engine's ABORT macro: diagnostic, then exit *)
| Terminated            (* the runtime ends the process: uncaught exception,
                           invalid-parameter handler *)
| Diverges.             (* the call does not return *)

Inductive outcome (A : Type) : Type :=
| Ok (a : A)
| Fail (f : failure).

Arguments Ok {A} a.
Arguments Fail {A} f.

#[global] Instance outcome_ret : MRet outcome := fun A a => Ok a.

#[global] Instance outcome_fmap : FMap outcome := fun A B f c =>
  match c with
  | Ok a => Ok (f a)
  | Fail e => Fail e
  end.

#[global] Instance outcome_bind : MBind outcome := fun A B f c =>
  match c with
  | Ok a => f a
  | Fail e => Fail e
  end.

(** [a[i]] on a C array of [length a] elements. *)
Definition array_get {A : Type} (a : list A) (i : Z) : outcome A :=
  if i <? 0 then Fail UB
  else match a !! Z.to_nat i with
       | Some x => Ok x
       | None => Fail UB
       end.

(** [a[i] = x] on a C array of [length a] elements. *)
Definition array_set {A : Type} (a : list A) (i : Z) (x : A) : outcome (list A) :=
  if (0 <=? i) && (i <? Z.of_nat (length a))
  then Ok (<[Z.to_nat i := x]> a)
  else Fail UB.

(** ** IEEE-754 binary32 *)

Module F32.

Definition prec : Z := 24.
Definition emax : Z := 128.

(** [(float)z]: conversion of an integer, rounded to nearest even. *)
Definition of_Z (z : Z) : spec_float := binary_normalize prec emax z 0 false.

Definition add : spec_float -> spec_float -> spec_float := SFadd prec emax.
Definition sub : spec_float -> spec_float -> spec_float := SFsub prec emax.
Definition div : spec_float -> spec_float -> spec_float := SFdiv prec emax.

(** The rational a finite binary32 value denotes (0 for infinities and NaN). *)
Definition to_Q (x : spec_float) : Q :=
  match x with
  | S754_finite s m e =>
      let mag := match e with
                 | Zneg p => Zpos m # Pos.pow 2 p
                 | _ => inject_Z (Zpos m * 2 ^ e)
                 end in
      if s then Qopp mag else mag
  | _ => 0%Q
  end.

Definition is_finite (x : spec_float) : bool :=
  match x with
  | S754_finite _ _ _ | S754_zero _ => true
  | _ => false
  end.

End F32.

(** ** The XML settings (tinyxml2) *)

Module Xml.

(** An element: its tag, its attributes in document order, its child elements. *)
#[warnings="-register-all"]
Inductive XMLElement : Type :=
| XMLNode (tag : string) (attrs : list (string * string)) (children : list XMLElement).

Definition Name (e : XMLElement) : string :=
  match e with XMLNode tag _ _ => tag end.

Definition Children (e : XMLElement) : list XMLElement :=
  match e with XMLNode _ _ children => children end.

(** [e->Attribute(name)]: the value, or a null pointer when there is none. *)
Definition Attribute (name : string) (e : XMLElement) : option string :=
  match e with
  | XMLNode _ attrs _ =>
      match List.find (fun kv => String.eqb (fst kv) name) attrs with
      | Some kv => Some (snd kv)
      | None => None
      end
  end.

(** The elements that [e->FirstChildElement(name)] followed by repeated
    [->NextSiblingElement(name)] visits, in order. *)
Definition ChildElements (name : string) (e : XMLElement) : list XMLElement :=
  List.filter (fun c => String.eqb (Name c) name) (Children e).

Definition FirstChildElement (name : string) (e : XMLElement) : option XMLElement :=
  head (ChildElements name e).

Definition digit_of (c : ascii) : option Z :=
  let n := Z.of_nat (nat_of_ascii c) in
  if (48 <=? n) && (n <=? 57) then Some (n - 48) else None.

Fixpoint scan_digits (s : string) (acc : Z) : Z :=
  match s with
  | String c rest =>
      match digit_of c with
      | Some d => scan_digits rest (10 * acc + d)
      | None => acc
      end
  | EmptyString => acc
  end.

Definition starts_with_digit (s : string) : bool :=
  match s with
  | String c _ => match digit_of c with Some _ => true | None => false end
  | EmptyString => false
  end.

Fixpoint skip_spaces (s : string) : string :=
  match s with
  | String c rest =>
      if (Ascii.eqb c " " || Ascii.eqb c "009" || Ascii.eqb c "010" || Ascii.eqb c "013")%bool
      then skip_spaces rest else s
  | EmptyString => s
  end.

(** The ["%d"] conversion that tinyxml2 applies to an attribute value. *)
Definition scan_int (s : string) : option Z :=
  match skip_spaces s with
  | String "-" rest =>
      if starts_with_digit rest then Some (Int.wrap (- scan_digits rest 0)) else None
  | String "+" rest =>
      if starts_with_digit rest then Some (Int.wrap (scan_digits rest 0)) else None
  | t => if starts_with_digit t then Some (Int.wrap (scan_digits t 0)) else None
  end.

(** [e->IntAttribute(name)]: 0 when the attribute is absent or not a number. *)
Definition IntAttribute (name : string) (e : XMLElement) : Z :=
  match Attribute name e with
  | Some v => match scan_int v with Some z => z | None => 0 end
  | None => 0
  end.

End Xml.

(** ** The sound manager (Sound.cpp) *)

Module Sound.

Import Xml.

(** DirectXTK's [SoundState]. *)
Inductive SoundState : Type := STOPPED | PLAYING | PAUSED.

Record Vector3 : Type := mkVector3 { vx : spec_float; vy : spec_float; vz : spec_float }.

(** A position handed to the 3D audio call: the vector [num / den], kept as
    written ([Vector3 / float] is SimpleMath's operator). *)
Record ScaledVector : Type := mkScaled { sv_num : Vector3; sv_den : spec_float }.

(** What the manager can observe or set on a DirectXTK [SoundEffectInstance]. *)
Record SoundEffectInstance : Type := mkInstance {
  inst_state : SoundState;
  inst_starts : nat;   (* how many times [Play] was called on it *)
  inst_looped : bool;
  inst_pitch : spec_float;
  inst_volume : spec_float;
  inst_3d : option (ScaledVector * ScaledVector) (* listener, emitter *)
}.

(** [CreateInstance(flags)]: a stopped instance at pitch 0, volume 1. *)
Definition CreateInstance : SoundEffectInstance :=
  mkInstance STOPPED 0 false (F32.of_Z 0) (F32.of_Z 1) None.

Definition GetState (i : SoundEffectInstance) : SoundState := inst_state i.

Definition Play (loop : bool) (i : SoundEffectInstance) : SoundEffectInstance :=
  mkInstance PLAYING (S (inst_starts i)) loop (inst_pitch i) (inst_volume i) (inst_3d i).

Definition SetPitch (p : spec_float) (i : SoundEffectInstance) : SoundEffectInstance :=
  mkInstance (inst_state i) (inst_starts i) (inst_looped i) p (inst_volume i) (inst_3d i).

Definition SetVolume (v : spec_float) (i : SoundEffectInstance) : SoundEffectInstance :=
  mkInstance (inst_state i) (inst_starts i) (inst_looped i) (inst_pitch i) v (inst_3d i).

Definition Apply3D (listener emitter : ScaledVector) (i : SoundEffectInstance)
  : SoundEffectInstance :=
  mkInstance (inst_state i) (inst_starts i) (inst_looped i) (inst_pitch i) (inst_volume i)
    (Some (listener, emitter)).

(** The members of [CSoundManager].  [m_pInstance[i]] is a null pointer
    ([None]) until [createInstances] allocates the array for sound [i]. *)
Record CSoundManager : Type := mkSoundManager {
  m_nCount : Z;
  m_nMaxSounds : Z;
  m_pSoundEffects : list string;
  m_nInstanceCount : list Z;
  m_pInstance : list (option (list SoundEffectInstance));
  m_nLastPlayedSound : Z;
  m_nLastPlayedInstance : Z
}.

Definition set_instances (a : list (option (list SoundEffectInstance)))
  (sm : CSoundManager) : CSoundManager :=
  mkSoundManager (m_nCount sm) (m_nMaxSounds sm) (m_pSoundEffects sm)
    (m_nInstanceCount sm) a (m_nLastPlayedSound sm) (m_nLastPlayedInstance sm).

Definition set_instance_counts (c : list Z) (sm : CSoundManager) : CSoundManager :=
  mkSoundManager (m_nCount sm) (m_nMaxSounds sm) (m_pSoundEffects sm)
    c (m_pInstance sm) (m_nLastPlayedSound sm) (m_nLastPlayedInstance sm).

Definition set_last_played (index instance : Z) (sm : CSoundManager) : CSoundManager :=
  mkSoundManager (m_nCount sm) (m_nMaxSounds sm) (m_pSoundEffects sm)
    (m_nInstanceCount sm) (m_pInstance sm) index instance.

(** The constructor sets [m_nCount] only; the arrays do not exist yet and the
    last-played pair holds whatever [s0], [i0] the memory held. *)
Definition constructor (s0 i0 : Z) : CSoundManager :=
  mkSoundManager 0 0 [] [] [] s0 i0.

(** [m_pInstance[index][instance]] *)
Definition instance_at (sm : CSoundManager) (index instance : Z)
  : outcome SoundEffectInstance :=
  arr ← array_get (m_pInstance sm) index;
  match arr with
  | Some insts => array_get insts instance
  | None => Fail UB
  end.

(** [m_pInstance[index][instance]->f()] for a method [f] that changes the instance. *)
Definition call_instance (index instance : Z)
  (f : SoundEffectInstance -> SoundEffectInstance) (sm : CSoundManager)
  : outcome CSoundManager :=
  arr ← array_get (m_pInstance sm) index;
  match arr with
  | Some insts =>
      old ← array_get insts instance;
      insts' ← array_set insts instance (f old);
      a' ← array_set (m_pInstance sm) index (Some insts');
      Ok (set_instances a' sm)
  | None => Fail UB
  end.

(** [int CSoundManager::Load(wchar_t *filename)] *)
Definition Load_file (filename : string) (sm : CSoundManager) : Z * CSoundManager :=
  let effects := m_pSoundEffects sm ++ [filename] in
  (Z.of_nat (length effects) - 1,
   mkSoundManager (m_nCount sm) (m_nMaxSounds sm) effects
     (m_nInstanceCount sm) (m_pInstance sm)
     (m_nLastPlayedSound sm) (m_nLastPlayedInstance sm)).

(** [void CSoundManager::createInstances(int index, int n, flags)].
    [new SoundEffectInstance*[n]] throws for a negative [n]. *)
Definition createInstances (index n : Z) (sm : CSoundManager) : outcome CSoundManager :=
  counts ← array_set (m_nInstanceCount sm) index n;
  if n <? 0 then Fail Terminated
  else
    _ ← (if 0 <? n then array_get (m_pSoundEffects sm) index else Ok EmptyString);
    a ← array_set (m_pInstance sm) index (Some (replicate (Z.to_nat n) CreateInstance));
    Ok (set_instances a (set_instance_counts counts sm)).

(** The loop of [getNextInstance], entered with the current [instance] and the
    state last read; [n] is [m_nInstanceCount[index]], which the loop does not
    change. *)
Equations? getNextInstance_while (sm : CSoundManager) (index n instance : Z)
  (soundState : SoundState) : outcome Z by wf (Z.to_nat (n - instance)) lt :=
getNextInstance_while sm index n instance soundState
  with Z_lt_dec instance n, soundState => {
  | left _, PLAYING
      with (if instance + 1 <? n
            then GetState <$> instance_at sm index (instance + 1)
            else Ok soundState) => {
      | Ok soundState' := getNextInstance_while sm index n (instance + 1) soundState';
      | Fail e := Fail e };
  | _, _ := Ok instance }.
Proof. lia. Qed.

(** [int CSoundManager::getNextInstance(int index)] *)
Definition getNextInstance (index : Z) (sm : CSoundManager) : outcome Z :=
  soundState ← GetState <$> instance_at sm index 0;
  n ← array_get (m_nInstanceCount sm) index;
  getNextInstance_while sm index n 0 soundState.

(** [int CSoundManager::play(int index)] *)
Definition play (index : Z) (sm : CSoundManager) : outcome (Z * CSoundManager) :=
  if (index <? 0) || (index >=? m_nCount sm) then Ok (-1, sm)
  else
    instance ← getNextInstance index sm;
    n ← array_get (m_nInstanceCount sm) index;
    sm' ← (if instance <? n then call_instance index instance (Play false) sm
           else Ok sm);
    Ok (instance, set_last_played index instance sm').

(** [int CSoundManager::loop(int index)] *)
Definition loop (index : Z) (sm : CSoundManager) : outcome (Z * CSoundManager) :=
  if (index <? 0) || (index >=? m_nCount sm) then Ok (-1, sm)
  else
    instance ← getNextInstance index sm;
    n ← array_get (m_nInstanceCount sm) index;
    sm' ← (if instance <? n then call_instance index instance (Play true) sm
           else Ok sm);
    Ok (instance, set_last_played index instance sm').

(** [strncpy_s(buffer, bufsize, src, bufsize)]: a null source or one that does
    not fit with its terminator ends in the invalid-parameter handler. *)
Definition strncpy_s (bufsize : Z) (src : option string) : outcome string :=
  match src with
  | Some str =>
      if Z.of_nat (String.length str) <? bufsize then Ok str else Fail Terminated
  | None => Fail Terminated
  end.

(** The second loop of [Load()]: one sound per [<sound>] element. *)
Fixpoint Load_sounds (sounds : list XMLElement) (sm : CSoundManager)
  : outcome CSoundManager :=
  match sounds with
  | s :: rest =>
      buffer ← strncpy_s 64 (Attribute "file" s);
      let n := IntAttribute "instances" s in
      let n := if n =? 0 then 1 else n in
      let '(index, sm1) := Load_file buffer sm in
      sm2 ← createInstances index n sm1;
      Load_sounds rest
        (mkSoundManager (Int.add (m_nCount sm2) 1) (m_nMaxSounds sm2)
           (m_pSoundEffects sm2) (m_nInstanceCount sm2) (m_pInstance sm2)
           (m_nLastPlayedSound sm2) (m_nLastPlayedInstance sm2))
  | [] => Ok sm
  end.

(** [void CSoundManager::Load()] with the global [g_xmlSettings]. *)
Definition Load (g_xmlSettings : option XMLElement) (sm : CSoundManager)
  : outcome CSoundManager :=
  match g_xmlSettings with
  | Some settings =>
      match FirstChildElement "sounds" settings with
      | Some snd =>
          let sounds := ChildElements "sound" snd in
          let m := length sounds in
          Load_sounds sounds
            (mkSoundManager (m_nCount sm) (Z.of_nat m) (m_pSoundEffects sm)
               (replicate m 0) (replicate m None)
               (m_nLastPlayedSound sm) (m_nLastPlayedInstance sm))
      | None => Fail UB
      end
  | None => Ok sm
  end.

(** [void CSoundManager::move(Vector3 ePos, int instance, int index)] with the
    globals [g_nScreenWidth], [g_nScreenHeight]. *)
Definition move (g_nScreenWidth g_nScreenHeight : Z) (ePos : Vector3)
  (instance index : Z) (sm : CSoundManager) : outcome CSoundManager :=
  let index := if index =? -1 then m_nLastPlayedSound sm else index in
  let instance := if instance =? -1 then m_nLastPlayedInstance sm else instance in
  let v := mkVector3 (F32.div (F32.of_Z g_nScreenWidth) (F32.of_Z 2))
                     (F32.div (F32.of_Z g_nScreenHeight) (F32.of_Z 2))
                     (F32.of_Z 0) in
  let SCALE := F32.of_Z 500 in
  let listener := mkScaled v SCALE in
  let emitter := mkScaled ePos SCALE in
  if 0 <=? instance then
    n ← array_get (m_nInstanceCount sm) index;
    if instance <? n
    then call_instance index instance (Apply3D listener emitter) sm
    else Ok sm
  else Ok sm.

(** [void CSoundManager::pitch(float p, int instance, int index)] *)
Definition pitch (p : spec_float) (instance index : Z) (sm : CSoundManager)
  : outcome CSoundManager :=
  let index := if index =? -1 then m_nLastPlayedSound sm else index in
  let instance := if instance =? -1 then m_nLastPlayedInstance sm else instance in
  if 0 <=? instance then
    n ← array_get (m_nInstanceCount sm) index;
    if instance <? n then call_instance index instance (SetPitch p) sm else Ok sm
  else Ok sm.

(** [void CSoundManager::volume(float v, int instance, int index)] *)
Definition volume (v : spec_float) (instance index : Z) (sm : CSoundManager)
  : outcome CSoundManager :=
  let index := if index =? -1 then m_nLastPlayedSound sm else index in
  let instance := if instance =? -1 then m_nLastPlayedInstance sm else instance in
  if 0 <=? instance then
    n ← array_get (m_nInstanceCount sm) index;
    if instance <? n then call_instance index instance (SetVolume v) sm else Ok sm
  else Ok sm.

(** *** Vocabulary of the statements about the sound pool *)

(** The instances of sound [index] in [sm]: [n] of them, held in [insts]. *)
Definition has_instances (sm : CSoundManager) (index n : Z)
  (insts : list SoundEffectInstance) : Prop :=
  array_get (m_nInstanceCount sm) index = Ok n /\
  array_get (m_pInstance sm) index = Ok (Some insts) /\
  Z.of_nat (length insts) = n.

Definition playing_at (insts : list SoundEffectInstance) (j : Z) : Prop :=
  exists i, array_get insts j = Ok i /\ GetState i = PLAYING.

Definition idle_at (insts : list SoundEffectInstance) (j : Z) : Prop :=
  exists i, array_get insts j = Ok i /\ GetState i <> PLAYING.

(** [r] is the lowest index of an instance that is not playing, or [n] when
    all [n] are playing. *)
Definition first_idle (insts : list SoundEffectInstance) (n r : Z) : Prop :=
  (forall j, 0 <= j < r -> playing_at insts j) /\
  ((0 <= r < n /\ idle_at insts r) \/ r = n).

(** What [Load()] builds: after [k] sounds, [k] is the count, and each of
    them has its array of at least one instance. *)
Definition loaded (k : nat) (sm : CSoundManager) : Prop :=
  m_nCount sm = Z.of_nat k /\
  length (m_pSoundEffects sm) = k /\
  forall i, (i < k)%nat ->
    exists n insts,
      m_nInstanceCount sm !! i = Some n /\
      m_pInstance sm !! i = Some (Some insts) /\
      Z.of_nat (length insts) = n /\ 1 <= n.

(** Every sound the manager counts has its instances, at least one. *)
Definition well_formed (sm : CSoundManager) : Prop :=
  forall index, 0 <= index < m_nCount sm ->
    exists n insts, has_instances sm index n insts /\ 1 <= n.

(** What [move], [pitch] and [volume] have in common: [-1] stands for the
    last-played value, then
    [if(instance >= 0 && instance < m_nInstanceCount[index])] applies the
    method [f] to the instance. *)
Definition on_target (f : SoundEffectInstance -> SoundEffectInstance)
  (instance index : Z) (sm : CSoundManager) : outcome CSoundManager :=
  let index := if index =? -1 then m_nLastPlayedSound sm else index in
  let instance := if instance =? -1 then m_nLastPlayedInstance sm else instance in
  if 0 <=? instance then
    n ← array_get (m_nInstanceCount sm) index;
    if instance <? n then call_instance index instance f sm else Ok sm
  else Ok sm.

(** [play] and [loop] differ in the flag handed to [Play] only. *)
Definition play_or_loop (looped : bool) : Z -> CSoundManager -> outcome (Z * CSoundManager) :=
  if looped then loop else play.

(** A manager with one sound of two instances, the first of them playing. *)
Definition demo_instances : list SoundEffectInstance :=
  [Play false CreateInstance; CreateInstance].

Definition demo_manager : CSoundManager :=
  mkSoundManager 1 1 ["ball.wav"] [2] [Some demo_instances] 0 0.

(** Settings with one sound of two instances, and the manager that the
    constructor and [Load()] make of them when the uninitialised last-played
    pair happens to hold (7, 0). *)
Definition demo_sound_settings : XMLElement :=
  XMLNode "settings" []
    [XMLNode "sounds" []
       [XMLNode "sound" [("file", "ball.wav"); ("instances", "2")]%string []]].

Definition fresh_manager : outcome CSoundManager :=
  Load (Some demo_sound_settings) (constructor 7 0).

(** The same sound with both instances playing. *)
Definition busy_instances : list SoundEffectInstance :=
  [Play false CreateInstance; Play true CreateInstance].

Definition busy_manager : CSoundManager :=
  mkSoundManager 1 1 ["ball.wav"] [2] [Some busy_instances] 0 0.

End Sound.

(** ** The timer (timer.cpp) *)

Module Timer.

(** The members of [CTimer]; a [BOOL] is a [bool]. *)
Record CTimer : Type := mkTimer {
  m_nStartTime : Z;
  m_nCurrentTime : Z;
  m_nLastFrameStartTime : Z;
  m_nFrameTime : Z;
  m_nLevelStartTime : Z;
  m_nLevelFinishTime : Z;
  m_bLevelTimerOn : bool;
  m_bStepMode : bool
}.

(** The constructor initialises every member but [m_nCurrentTime], which
    holds whatever [cur0] the memory held. *)
Definition constructor (cur0 : Z) : CTimer :=
  mkTimer 0 cur0 0 0 0 0 false false.

(** The value of [timeGetTime()], a 32-bit unsigned count of milliseconds,
    once stored in an [int]. *)
Definition timeGetTime_int (now : Z) : Z := Int.wrap now.

(** [void CTimer::start()] when [timeGetTime()] returns [now]. *)
Definition start (now : Z) (t : CTimer) : CTimer :=
  mkTimer (timeGetTime_int now) (m_nCurrentTime t) (m_nLastFrameStartTime t)
    (m_nFrameTime t) (m_nLevelStartTime t) (m_nLevelFinishTime t)
    (m_bLevelTimerOn t) (m_bStepMode t).

(** [int CTimer::time()] *)
Definition time (t : CTimer) : Z := m_nCurrentTime t.

(** [int CTimer::frametime()] *)
Definition frametime (t : CTimer) : Z := m_nFrameTime t.

(** [int CTimer::elapsed(int &start, int interval)]: the value returned and
    the value [start] holds afterwards. *)
Definition elapsed (t : CTimer) (start interval : Z) : bool * Z :=
  if m_nCurrentTime t >=? Int.add start interval
  then (true, m_nCurrentTime t)
  else (false, start).

(** [void CTimer::beginframe()] when [timeGetTime()] returns [now]. *)
Definition beginframe (now : Z) (t : CTimer) : CTimer :=
  let t' := timeGetTime_int now in
  mkTimer (m_nStartTime t)
    (Int.sub t' (m_nStartTime t))
    t'
    (if negb (m_bStepMode t) then Int.sub t' (m_nLastFrameStartTime t)
     else m_nFrameTime t)
    (m_nLevelStartTime t) (m_nLevelFinishTime t)
    (m_bLevelTimerOn t) (m_bStepMode t).

(** [void CTimer::endframe()] *)
Definition endframe (t : CTimer) : CTimer :=
  mkTimer (m_nStartTime t) (m_nCurrentTime t) (m_nLastFrameStartTime t)
    0 (m_nLevelStartTime t) (m_nLevelFinishTime t)
    (m_bLevelTimerOn t) (m_bStepMode t).

(** [void CTimer::IncrementFrame()] *)
Definition IncrementFrame (t : CTimer) : CTimer :=
  if m_bStepMode t
  then mkTimer (m_nStartTime t) (m_nCurrentTime t) (m_nLastFrameStartTime t)
         34 (m_nLevelStartTime t) (m_nLevelFinishTime t)
         (m_bLevelTimerOn t) (m_bStepMode t)
  else t.

(** [void CTimer::ToggleStepMode()] *)
Definition ToggleStepMode (t : CTimer) : CTimer :=
  mkTimer (m_nStartTime t) (m_nCurrentTime t) (m_nLastFrameStartTime t)
    (m_nFrameTime t) (m_nLevelStartTime t) (m_nLevelFinishTime t)
    (m_bLevelTimerOn t) (negb (m_bStepMode t)).

(** [int CTimer::GetLevelStartTime()] *)
Definition GetLevelStartTime (t : CTimer) : Z := m_nLevelStartTime t.

(** [int CTimer::GetLevelElapsedTime()] when [timeGetTime()] returns [now]. *)
Definition GetLevelElapsedTime (now : Z) (t : CTimer) : Z :=
  if m_bLevelTimerOn t
  then Int.wrap (now mod 2 ^ 32 - (m_nLevelStartTime t) mod 2 ^ 32)
  else Int.sub (m_nLevelFinishTime t) (m_nLevelStartTime t).

(** [void CTimer::StartLevelTimer()] when [timeGetTime()] returns [now]. *)
Definition StartLevelTimer (now : Z) (t : CTimer) : CTimer :=
  mkTimer (m_nStartTime t) (m_nCurrentTime t) (m_nLastFrameStartTime t)
    (m_nFrameTime t) (timeGetTime_int now) (m_nLevelFinishTime t)
    true (m_bStepMode t).

(** [void CTimer::StopLevelTimer()] when [timeGetTime()] returns [now]. *)
Definition StopLevelTimer (now : Z) (t : CTimer) : CTimer :=
  mkTimer (m_nStartTime t) (m_nCurrentTime t) (m_nLastFrameStartTime t)
    (m_nFrameTime t) (m_nLevelStartTime t) (timeGetTime_int now)
    false (m_bStepMode t).

(** *** Vocabulary of the statements about the timer *)

(** A caller that polls one periodic trigger once per frame: for each clock
    sample, [beginframe()] and then [elapsed(start, interval)].  The result
    lists, per frame, the current time and what [elapsed] returned, and gives
    the final value of [start] and the final timer. *)
Fixpoint poll (samples : list Z) (interval : Z) (t : CTimer) (start : Z)
  : list (Z * bool) * Z * CTimer :=
  match samples with
  | now :: rest =>
      let t1 := beginframe now t in
      let '(fired, start1) := elapsed t1 start interval in
      let '(trace, startn, tn) := poll rest interval t1 start1 in
      ((time t1, fired) :: trace, startn, tn)
  | [] => ([], start, t)
  end.

(** The time of the last reset after the calls in [trace]: the current time
    of the latest call that returned true, or [start0] when none did. *)
Definition last_reset (start0 : Z) (trace : list (Z * bool)) : Z :=
  fold_left (fun (s : Z) (e : Z * bool) => if snd e then fst e else s) trace start0.

(** A timer started when the clock read 0. *)
Definition demo_timer : CTimer := start 0 (constructor 0).

(** One sixtieth of a second in whole milliseconds, rounded down and up. *)
Definition sixtieth_ms_floor : Z := 1000 / 60.
Definition sixtieth_ms_ceil : Z := (1000 + 59) / 60.

End Timer.

(** ** C strings *)

Module CStr.

(** The characters a [char*] denotes: those before the first NUL. *)
Fixpoint c_str (s : string) : string :=
  match s with
  | String c rest => if Ascii.eqb c "000" then EmptyString else String c (c_str rest)
  | EmptyString => EmptyString
  end.

Definition strlen (s : string) : Z := Z.of_nat (String.length (c_str s)).

(** [strcmp(a, b) == 0] *)
Definition strcmp_eq (a b : string) : bool := String.eqb (c_str a) (c_str b).

(** The value of a [char] (signed, as the compiler of the project has it). *)
Definition char_value (c : ascii) : Z :=
  let n := Z.of_nat (nat_of_ascii c) in
  if 128 <=? n then n - 256 else n.

(** The character with code 34 and the line feed. *)
Definition dquote : string := String "034" EmptyString.
Definition newline : string := String "010" EmptyString.

(** [printf]-style formatting of a format with one [%s] directive. *)
Fixpoint format_s (fmt arg : string) : string :=
  match fmt with
  | String "%" (String "s" rest) => c_str arg ++ rest
  | String c rest => String c (format_s rest arg)
  | EmptyString => EmptyString
  end.

End CStr.

(** ** Sprites and the sprite manager (sprite.cpp, SpriteMan.cpp) *)

Module SpriteMan.

Import Xml CStr.

(** What the graphics device answers.  [CreateWICTextureFromFile] gives the
    pixel size of the image, or fails and leaves the texture pointer as it
    was; [CreateBuffer] reports whether the vertex buffer was created. *)
Record Device : Type := mkDevice {
  CreateWICTextureFromFile : string -> option (Z * Z);
  CreateBuffer_ok : bool
}.

(** [C3DSprite]: the texture (null, or the image with its size) and the
    half-extents of the quad once the vertex buffer exists. *)
Record C3DSprite : Type := mkSprite {
  m_pTexture : option (string * Z * Z);
  m_pVertexBuffer : option (spec_float * spec_float)
}.

(** [C3DSprite::C3DSprite(pDev2, pDC2)] *)
Definition new_C3DSprite : C3DSprite := mkSprite None None.

(** [void C3DSprite::LoadTexture(char* fname, int* w, int* h)]: the sprite
    afterwards and the size read back through [m_pTexture->GetResource]. *)
Definition LoadTexture (dev : Device) (fname : string) (spr : C3DSprite)
  : outcome (C3DSprite * Z * Z) :=
  if 100 <=? strlen fname then Fail UB  (* [ws] holds 100 wide characters *)
  else
    let texture :=
      match CreateWICTextureFromFile dev (c_str fname) with
      | Some (w, h) => Some (c_str fname, w, h)
      | None => m_pTexture spr
      end in
    match texture with
    | Some (_, w, h) => Ok (mkSprite texture (m_pVertexBuffer spr), w, h)
    | None => Fail UB
    end.

(** [BOOL C3DSprite::Load(char* filename)] *)
Definition Sprite_Load (dev : Device) (filename : string) (spr : C3DSprite)
  : outcome (bool * C3DSprite) :=
  r ← LoadTexture dev filename spr;
  let '(spr1, width, ht) := r in
  let w := F32.div (F32.of_Z width) (F32.of_Z 2) in
  let h := F32.div (F32.of_Z ht) (F32.of_Z 2) in
  if CreateBuffer_ok dev
  then Ok (true, mkSprite (m_pTexture spr1) (Some (w, h)))
  else Ok (false, spr1).

Definition NUM_SPRITES : Z := 512.
Definition MAX_PATH : Z := 260.

(** The members of [CSpriteManager]. *)
Record CSpriteManager : Type := mkSpriteManager {
  m_pSprite : list (option C3DSprite);
  m_pBuffer : string
}.

(** [CSpriteManager::CSpriteManager()] *)
Definition constructor : CSpriteManager :=
  mkSpriteManager (replicate (Z.to_nat NUM_SPRITES) None) EmptyString.

(** [sprintf_s(m_pBuffer, MAX_PATH, "%s", file)]: a null [file] prints as
    ["(null)"]; a text that does not fit ends in the invalid-parameter handler. *)
Definition sprintf_s_path (file : option string) : outcome string :=
  let text := match file with Some f => c_str f | None => "(null)"%string end in
  if Z.of_nat (String.length text) <? MAX_PATH then Ok text else Fail Terminated.

(** [BOOL CSpriteManager::LoadFile(int sprite, const char* file)] *)
Definition LoadFile (dev : Device) (sprite : Z) (file : option string)
  (sm : CSpriteManager) : outcome (bool * CSpriteManager) :=
  sprites ← array_set (m_pSprite sm) sprite (Some new_C3DSprite);
  buffer ← sprintf_s_path file;
  r ← Sprite_Load dev buffer new_C3DSprite;
  sprites' ← array_set sprites sprite (Some (snd r));
  Ok (fst r, mkSpriteManager sprites' buffer).

(** The search loop of [Load]:
    [while(spr && strcmp(name, spr->Attribute("name"))) spr = spr->NextSiblingElement("sprite")]
    over the [<sprite>] elements from [spr] on.  [strcmp] with a null
    attribute is undefined. *)
Fixpoint find_sprite (name : string) (sprs : list XMLElement)
  : outcome (option XMLElement) :=
  match sprs with
  | spr :: rest =>
      match Attribute "name" spr with
      | Some n => if strcmp_eq name n then Ok (Some spr) else find_sprite name rest
      | None => Fail UB
      end
  | [] => Ok None
  end.

(** Modelled from the spec: the ABORT macro of abort.h, which is not among the
    sources; it formats its diagnostic and the process aborts. *)
Definition ABORT {A : Type} (fmt arg : string) : outcome A :=
  Fail (Abort (format_s fmt arg)).

Definition cannot_load_sprite_fmt : string :=
  ("Cannot load sprite " ++ dquote ++ "%s" ++ dquote ++ "." ++ newline)%string.

(** [void CSpriteManager::Load(int sprite, char* name)] with the global
    [g_xmlSettings]. *)
Definition Load (dev : Device) (g_xmlSettings : option XMLElement)
  (sprite : Z) (name : string) (sm : CSpriteManager) : outcome CSpriteManager :=
  r ← match g_xmlSettings with
      | Some settings =>
          match FirstChildElement "sprites" settings with
          | Some spriteSettings =>
              spr ← find_sprite name (ChildElements "sprite" spriteSettings);
              match spr with
              | Some e => LoadFile dev sprite (Attribute "file" e) sm
              | None => Ok (false, sm)
              end
          | None => Ok (false, sm)
          end
      | None => Ok (false, sm)
      end;
  if negb (fst r) then ABORT cannot_load_sprite_fmt name
  else Ok (snd r).


(** *** Vocabulary of the statements about the sprite manager *)

(** The diagnostic of a failed [Load] of [name]. *)
Definition cannot_load_sprite (name : string) : string :=
  ("Cannot load sprite " ++ dquote ++ c_str name ++ dquote ++ "." ++ newline)%string.

(** The [<sprite>] elements that [Load] looks through. *)
Definition sprite_elements (g_xmlSettings : option XMLElement) : list XMLElement :=
  match g_xmlSettings with
  | Some settings =>
      match FirstChildElement "sprites" settings with
      | Some spriteSettings => ChildElements "sprite" spriteSettings
      | None => []
      end
  | None => []
  end.

(** [e] carries a name attribute, and it is not [name]. *)
Definition named_otherwise (name : string) (e : XMLElement) : Prop :=
  exists n, Attribute "name" e = Some n /\ c_str n <> c_str name.

(** No [<sprite>] element is called [name]. *)
Definition name_not_found (name : string) (g_xmlSettings : option XMLElement) : Prop :=
  Forall (named_otherwise name) (sprite_elements g_xmlSettings).

(** [e] is the first [<sprite>] element called [name]. *)
Definition name_found (name : string) (g_xmlSettings : option XMLElement)
  (e : XMLElement) : Prop :=
  exists before after n,
    sprite_elements g_xmlSettings = before ++ e :: after /\
    Forall (named_otherwise name) before /\
    Attribute "name" e = Some n /\ c_str n = c_str name.

Definition demo_ball : XMLElement :=
  XMLNode "sprite" [("name", "ball"); ("file", "Images\ball.png")]%string [].

Definition demo_ramp : XMLElement :=
  XMLNode "sprite" [("name", "ramp"); ("file", "Images\ramp.png")]%string [].

Definition demo_settings : XMLElement :=
  XMLNode "settings" [] [XMLNode "sprites" [] [demo_ball; demo_ramp]].

(** A device on which every image is 64 by 64 pixels. *)
Definition demo_device (buffer_ok : bool) : Device :=
  mkDevice (fun _ => Some (64, 64)) buffer_ok.


End SpriteMan.

(** ** The text renderer (renderer.cpp) *)

Module Renderer.

Import CStr.

(** The arithmetic the renderer does on [float]s.  The machine's reading is
    [binary32]; [exact] reads the same expressions over the rationals, with
    no rounding, for statements about the values they approximate. *)
Class FloatOps (F : Type) : Type := {
  of_int : Z -> F;       (* conversion from an integer type *)
  fadd : F -> F -> F;
  fsub : F -> F -> F;
  fdiv : F -> F -> F
}.

#[global] Instance binary32 : FloatOps spec_float :=
  {| of_int := F32.of_Z; fadd := F32.add; fsub := F32.sub; fdiv := F32.div |}.

#[global] Instance exact : FloatOps Q :=
  {| of_int := inject_Z; fadd := Qplus; fsub := Qminus; fdiv := Qdiv |}.

Record Vector3 (F : Type) : Type := mkVector3 { vec_x : F; vec_y : F; vec_z : F }.
Arguments mkVector3 {F} _ _ _.
Arguments vec_x {F} _.
Arguments vec_y {F} _.
Arguments vec_z {F} _.

(** The integer members of [CSpriteSheet]. *)
Record CSpriteSheet : Type := mkSheet {
  m_nWidth : Z;
  m_nHeight : Z;
  m_nFrameWidth : Z;
  m_nFrameHeight : Z
}.

(** The members of [CRenderer] that drawing text reads. *)
Record CRenderer : Type := mkRenderer {
  m_pScreenText : option CSpriteSheet;
  m_nScreenWidth : Z;
  m_nScreenHeight : Z
}.

(** The texture offsets of [ConstantBuffer]. *)
Record UVOffsets (F : Type) : Type := mkUV { u0 : F; u1 : F; v0 : F; v1 : F }.
Arguments mkUV {F} _ _ _ _.
Arguments u0 {F} _.
Arguments u1 {F} _.
Arguments v0 {F} _.
Arguments v1 {F} _.

(** One glyph drawn: the translation of the world matrix and the offsets
    uploaded for it. *)
Record GlyphDraw (F : Type) : Type := mkDraw { position : Vector3 F; uv : UVOffsets F }.
Arguments mkDraw {F} _ _.
Arguments position {F} _.
Arguments uv {F} _.

Section WithFloat.

Context {F : Type} `{FloatOps F}.

(** "compute the uv offsets" in [DrawCharFromSpriteSheet]. *)
Definition uv_offsets (sheet : CSpriteSheet) (y xoffset : Z) : UVOffsets F :=
  let w := of_int (m_nWidth sheet) in
  let h := of_int (m_nHeight sheet) in
  let fw := of_int (m_nFrameWidth sheet) in
  let fh := of_int (m_nFrameHeight sheet) in
  let x := Int.add 1 (Int.mul xoffset (Int.add (m_nFrameWidth sheet) 1)) in
  mkUV (fdiv (of_int x) (fsub w (of_int 1)))
       (fdiv (fadd (of_int x) fw) (fsub w (of_int 1)))
       (fdiv (of_int y) (fsub h (of_int 1)))
       (fdiv (fadd (of_int y) fh) (fsub h (of_int 1))).

(** [void CRenderer::DrawCharFromSpriteSheet(Vector3& s, int y, int xoffset)]:
    the glyph drawn and [s] afterwards. *)
Definition DrawCharFromSpriteSheet (r : CRenderer) (s : Vector3 F) (y xoffset : Z)
  : outcome (GlyphDraw F * Vector3 F) :=
  match m_pScreenText r with
  | Some sheet =>
      Ok (mkDraw s (uv_offsets sheet y xoffset),
          mkVector3 (fadd (vec_x s) (of_int (m_nFrameWidth sheet))) (vec_y s) (vec_z s))
  | None => Fail UB
  end.

(** The [y] coordinate and [xoffset] that [drawtext] derives from a character. *)
Definition glyph_cell (c : Z) : Z * Z :=
  if (char_value "A" <=? c) && (c <=? char_value "Z") then (48, c - char_value "A")
  else if (char_value "a" <=? c) && (c <=? char_value "z") then (95, c - char_value "a")
  else if (char_value "0" <=? c) && (c <=? char_value "9") then (0, c - char_value "0")
  else (1, 10).

(** The loop of [drawtext] over the characters left to draw. *)
Fixpoint drawtext_loop (r : CRenderer) (chars : list ascii) (s : Vector3 F)
  : outcome (list (GlyphDraw F)) :=
  match chars with
  | c :: rest =>
      let '(y, xoffset) := glyph_cell (char_value c) in
      d ← DrawCharFromSpriteSheet r s y xoffset;
      ds ← drawtext_loop r rest (snd d);
      Ok (fst d :: ds)
  | [] => Ok []
  end.

(** Conversion to [size_t], an unsigned integer of [size_bits] bits. *)
Definition to_size_t (size_bits z : Z) : Z := z mod 2 ^ size_bits.

(** [void CRenderer::drawtext(const char* text)] on a platform whose [size_t]
    has [size_bits] bits.  The loop counter is an [unsigned int]: it cannot
    reach a length of [2^32] or more. *)
Definition drawtext (size_bits : Z) (r : CRenderer) (text : string)
  : outcome (list (GlyphDraw F)) :=
  match m_pScreenText r with
  | Some sheet =>
      let width :=
        to_size_t size_bits
          (to_size_t size_bits (m_nScreenWidth r)
           - to_size_t size_bits
               (strlen text * to_size_t size_bits (m_nFrameWidth sheet))) in
      let s := mkVector3 (fdiv (of_int width) (of_int 2))
                         (fdiv (of_int (m_nScreenHeight r)) (of_int 2))
                         (of_int (-1000)) in
      if 2 ^ 32 <=? strlen text then Fail Diverges
      else drawtext_loop r (list_ascii_of_string (c_str text)) s
  | None => Fail UB
  end.

End WithFloat.

(** *** Vocabulary of the statements about the renderer *)

(** [x] after [i] executions of [s.x += m_nFrameWidth]. *)
Fixpoint advance {F : Type} `{FloatOps F} (sheet : CSpriteSheet) (i : nat) (x : F) : F :=
  match i with
  | O => x
  | S j => advance sheet j (fadd x (of_int (m_nFrameWidth sheet)))
  end.

(** The width [u1 - u0] of the rectangle selected for a glyph, as a rational:
    of the exact offsets, and of the binary32 offsets. *)
Definition uv_width_exact (sheet : CSpriteSheet) (y xoffset : Z) : Q :=
  (u1 (uv_offsets (F:=Q) sheet y xoffset) - u0 (uv_offsets (F:=Q) sheet y xoffset))%Q.

(** [f] is within one rounding of the positive rational [q]:
    [|f - q| <= q / 2^24]. *)
Definition rounds_to (f : spec_float) (q : Q) : bool :=
  Qle_bool (Qabs (F32.to_Q f - q) * inject_Z (2 ^ 24)) q.

Definition uv_width_binary32 (sheet : CSpriteSheet) (y xoffset : Z) : Q :=
  (F32.to_Q (u1 (uv_offsets (F:=spec_float) sheet y xoffset))
   - F32.to_Q (u0 (uv_offsets (F:=spec_float) sheet y xoffset)))%Q.

(** The screen-text sheet of [InitScreenText]: frames of 21 by 37 pixels, here
    in an image of 573 by 133 pixels, on a screen of 1024 by 768. *)
Definition demo_sheet : CSpriteSheet := mkSheet 573 133 21 37.
Definition demo_renderer : CRenderer := mkRenderer (Some demo_sheet) 1024 768.

(** A text of 49 characters: 49 frames of 21 pixels are 1029 pixels. *)
Definition long_text : string :=
  "The quick brown fox jumps over the lazy dog 12345".

End Renderer.

(** ** Runs of the sound manager *)

Module SoundRuns.

Import Sound.

(** [k] calls of [play(index)] in a row, nothing else touching the
    instances in between: the values returned, in order, and the manager
    afterwards. *)
Fixpoint play_times (k : nat) (index : Z) (sm : CSoundManager)
  : outcome (list Z * CSoundManager) :=
  match k with
  | O => Ok ([], sm)
  | S k' =>
      r ← play index sm;
      rest ← play_times k' index (snd r);
      Ok (fst r :: fst rest, snd rest)
  end.

(** The states of the instances of one sound, in order. *)
Definition states (insts : list SoundEffectInstance) : list SoundState :=
  map GetState insts.

(** The target that [move], [pitch] and [volume] resolve their arguments to. *)
Definition target_index (index : Z) (sm : CSoundManager) : Z :=
  if index =? -1 then m_nLastPlayedSound sm else index.

Definition target_instance (instance : Z) (sm : CSoundManager) : Z :=
  if instance =? -1 then m_nLastPlayedInstance sm else instance.

(** [sm'] is [sm] with instance [instance] of sound [index] replaced by [i']. *)
Definition with_instance (sm : CSoundManager) (index instance : Z)
  (insts : list SoundEffectInstance) (i' : SoundEffectInstance) : CSoundManager :=
  set_instances
    (<[Z.to_nat index := Some (<[Z.to_nat instance := i']> insts)]> (m_pInstance sm)) sm.

(** Settings with two sounds, of two and of one instance. *)
Definition two_sounds : Xml.XMLElement :=
  Xml.XMLNode "settings" []
    [Xml.XMLNode "sounds" []
       [Xml.XMLNode "sound" [("file", "ball.wav"); ("instances", "2")]%string [];
        Xml.XMLNode "sound" [("file", "bell.wav")]%string []]].

(** The manager [Load()] makes of them, written out. *)
Definition two_sounds_manager : CSoundManager :=
  mkSoundManager 2 2 ["ball.wav"; "bell.wav"] [2; 1]
    [Some [CreateInstance; CreateInstance]; Some [CreateInstance]] 7 0.

(** What [Load()] has built after [k] sounds: [k] is the count, and sound
    [i] has as many fresh instances as [want i] says. *)
Definition freshly_loaded (want : nat -> Z) (k : nat) (sm : CSoundManager) : Prop :=
  m_nCount sm = Z.of_nat k /\
  length (m_pSoundEffects sm) = k /\
  forall i, (i < k)%nat ->
    1 <= want i /\
    m_nInstanceCount sm !! i = Some (want i) /\
    m_pInstance sm !! i = Some (Some (replicate (Z.to_nat (want i)) CreateInstance)).

(** The number of instances [Load()] asks for a [<sound>] element. *)
Definition wanted_instances (s : Xml.XMLElement) : Z :=
  let n := Xml.IntAttribute "instances" s in if n =? 0 then 1 else n.

End SoundRuns.

(** ** Runs of the timer *)

Module TimerRuns.

Import Timer.

(** One animation frame: [beginframe()] when the clock reads [now], the time
    and the frame time the game reads during the frame, [endframe()]. *)
Definition frame (now : Z) (t : CTimer) : (Z * Z) * CTimer :=
  let t1 := beginframe now t in
  ((time t1, frametime t1), endframe t1).

(** Frames one after the other, at the clock samples given: what each read,
    and the timer afterwards. *)
Fixpoint frames (samples : list Z) (t : CTimer) : list (Z * Z) * CTimer :=
  match samples with
  | now :: rest =>
      let '(seen, t1) := frame now t in
      let '(more, tn) := frames rest t1 in
      (seen :: more, tn)
  | [] => ([], t)
  end.

(** What happens to a timer in step mode: the user asks for a step
    ([IncrementFrame()]), or a frame goes by. *)
Inductive step_event : Type :=
| Step
| Frame (now : Z).

(** The frame times read in the frames of a run of such events. *)
Fixpoint step_run (events : list step_event) (t : CTimer) : list Z * CTimer :=
  match events with
  | Step :: rest => step_run rest (IncrementFrame t)
  | Frame now :: rest =>
      let '(seen, t1) := frame now t in
      let '(more, tn) := step_run rest t1 in
      (snd seen :: more, tn)
  | [] => ([], t)
  end.

(** The frame times single-stepping is meant to give: 34 in a frame that a
    step was asked for since the frame before, 0 in the others. *)
Fixpoint stepped (pending : bool) (events : list step_event) : list Z :=
  match events with
  | Step :: rest => stepped true rest
  | Frame _ :: rest => (if pending then 34 else 0) :: stepped false rest
  | [] => []
  end.

(** Clock samples and times that an [int] holds as they are. *)
Definition plain (z : Z) : Prop := 0 <= z < 2 ^ 31.

End TimerRuns.

(** ** The sprite sheet and the screen text (SpriteSheet.cpp, renderer.cpp) *)

Module ScreenText.

Import Xml CStr SpriteMan.

(** [CSpriteSheet], a [C3DSprite] with the size of its image and of one
    frame.  The constructor leaves the size of the image unset: it is written
    by the first [Load]. *)
Record CSpriteSheet : Type := mkSpriteSheet {
  sprite_part : C3DSprite;
  m_nWidth : option Z;
  m_nHeight : option Z;
  m_nFrameWidth : Z;
  m_nFrameHeight : Z
}.

(** [CSpriteSheet::CSpriteSheet(pDev2, pDC2, width, height)] *)
Definition new_CSpriteSheet (width height : Z) : CSpriteSheet :=
  mkSpriteSheet new_C3DSprite None None width height.

(** [BOOL CSpriteSheet::Load(char* filename)]: the vertex buffer is created
    "only when first frame is loaded"; otherwise [hr] stays 0. *)
Definition Load (dev : Device) (filename : string) (sh : CSpriteSheet)
  : outcome (bool * CSpriteSheet) :=
  r ← LoadTexture dev filename (sprite_part sh);
  let '(spr1, width, ht) := r in
  let sized spr :=
    mkSpriteSheet spr (Some width) (Some ht) (m_nFrameWidth sh) (m_nFrameHeight sh) in
  match m_pVertexBuffer spr1 with
  | None =>
      let w := F32.div (F32.of_Z (m_nFrameWidth sh)) (F32.of_Z 2) in
      let h := F32.div (F32.of_Z (m_nFrameHeight sh)) (F32.of_Z 2) in
      if CreateBuffer_ok dev
      then Ok (true, sized (mkSprite (m_pTexture spr1) (Some (w, h))))
      else Ok (false, sized spr1)
  | Some _ => Ok (true, sized spr1)
  end.

(** The members of [CRenderer] that [InitScreenText] writes. *)
Record CRenderer : Type := mkRenderer {
  m_pBackgroundTexture : option (string * Z * Z);
  m_pScreenText : option CSpriteSheet
}.

(** [void CRenderer::LoadTexture(ID3D11ShaderResourceView* &v, char* fname, int* w, int* h)]
    with [w] and [h] left null: [v] afterwards.  What the texture library does
    to a [v] that is not null when the load fails is not in the sources; the
    model leaves it as it was (a null [v] is null either way). *)
Definition Renderer_LoadTexture (dev : Device) (fname : string)
  (v : option (string * Z * Z)) : outcome (option (string * Z * Z)) :=
  if 100 <=? strlen fname then Fail UB  (* [ws] holds 100 wide characters *)
  else
    let texture :=
      match CreateWICTextureFromFile dev (c_str fname) with
      | Some (w, h) => Some (c_str fname, w, h)
      | None => v
      end in
    match texture with
    | Some _ => Ok texture
    | None => Fail UB  (* [v->GetResource] on a null pointer *)
    end.

(** [int len = strlen(src); strncpy_s(buffer, 256, src, len); buffer[len] = 0]:
    a source that does not fit with its terminator ends in the
    invalid-parameter handler. *)
Definition copy_src (src : string) : outcome string :=
  if strlen src <? 256 then Ok (c_str src) else Fail Terminated.

Definition no_text_file : string := "No text file specified in gamesettings.xml".

(** [void CRenderer::InitScreenText()] with the global [g_xmlSettings], which
    is dereferenced unchecked.  The search loop is the one of
    [CSpriteManager::Load], over the [<image>] elements and for the name
    ["text"]; the result of [m_pScreenText->Load] is dropped. *)
Definition InitScreenText (dev : Device) (g_xmlSettings : option XMLElement)
  (r : CRenderer) : outcome CRenderer :=
  let sheet := new_CSpriteSheet 21 37 in
  match g_xmlSettings with
  | Some settings =>
      match FirstChildElement "images" settings with
      | Some imagesTag =>
          imageSubTag ← find_sprite "text" (ChildElements "image" imagesTag);
          match imageSubTag with
          | Some e =>
              match Attribute "src" e with
              | Some src =>
                  buffer ← copy_src src;
                  loaded ← Load dev buffer sheet;
                  Ok (mkRenderer (m_pBackgroundTexture r) (Some (snd loaded)))
              | None => Fail UB  (* [strlen] of a null pointer *)
              end
          | None =>
              v ← Renderer_LoadTexture dev no_text_file (m_pBackgroundTexture r);
              Ok (mkRenderer v (Some sheet))
          end
      | None => Ok (mkRenderer (m_pBackgroundTexture r) (Some sheet))
      end
  | None => Fail UB
  end.

(** *** Vocabulary of the statements about the screen text *)

(** The [<image>] elements that [InitScreenText] looks through. *)
Definition image_elements (settings : XMLElement) : list XMLElement :=
  match FirstChildElement "images" settings with
  | Some imagesTag => ChildElements "image" imagesTag
  | None => []
  end.

(** [e] is the first [<image>] element called ["text"]. *)
Definition text_image (settings : XMLElement) (e : XMLElement) : Prop :=
  exists before after n,
    image_elements settings = before ++ e :: after /\
    Forall (named_otherwise "text") before /\
    Attribute "name" e = Some n /\ c_str n = "text"%string.

(** The sizes of the sheet are those of the texture it holds. *)
Definition sized_as_texture (sh : CSpriteSheet) : Prop :=
  exists path w h,
    m_pTexture (sprite_part sh) = Some (path, w, h) /\
    m_nWidth sh = Some w /\ m_nHeight sh = Some h.

Definition half (z : Z) : spec_float := F32.div (F32.of_Z z) (F32.of_Z 2).

Definition demo_text_settings : XMLElement :=
  XMLNode "settings" []
    [XMLNode "images" []
       [XMLNode "image" [("name", "background"); ("src", "Images\bg.png")]%string [];
        XMLNode "image" [("name", "text"); ("src", "Images\text.png")]%string []]].

(** A device on which the text image is 573 by 133 pixels and no other image
    exists. *)
Definition text_device (buffer_ok : bool) : Device :=
  mkDevice (fun f => if String.eqb f "Images\text.png" then Some (573, 133) else None)
           buffer_ok.

(** Settings with an [<images>] element that has a background image only. *)
Definition background_only_settings : XMLElement :=
  XMLNode "settings" []
    [XMLNode "images" []
       [XMLNode "image" [("name", "background"); ("src", "Images\bg.png")]%string []]].
End ScreenText.

(** ** The shader's input element descriptors (Shader.cpp) *)

Module Shader.

Record D3D11_INPUT_ELEMENT_DESC : Type := mkDesc {
  SemanticName : string;
  SemanticIndex : Z;
  Format : Z;
  InputSlot : Z;
  AlignedByteOffset : Z;
  InputSlotClass : Z;
  InstanceDataStepRate : Z
}.

Definition D3D11_INPUT_PER_VERTEX_DATA : Z := 0.

(** The descriptor members of [CShader]; an element of the array that
    [new D3D11_INPUT_ELEMENT_DESC[n]] makes is unset until it is filled. *)
Record CShader : Type := mkShader {
  m_pIEDesc : list (option D3D11_INPUT_ELEMENT_DESC);
  m_nMaxDescs : Z;
  m_nNumDescs : Z
}.

(** [CShader::CShader(int n)]; [new] of a negative length throws. *)
Definition constructor (n : Z) : outcome CShader :=
  if n <? 0 then Fail Terminated
  else Ok (mkShader (replicate (Z.to_nat n) None) n 0).

(** [bool CShader::AddInputElementDesc(UINT offset, DXGI_FORMAT fmt, LPCSTR name)] *)
Definition AddInputElementDesc (offset fmt : Z) (name : string) (s : CShader)
  : outcome (bool * CShader) :=
  if m_nNumDescs s <? m_nMaxDescs s then
    descs ← array_set (m_pIEDesc s) (m_nNumDescs s)
              (Some (mkDesc name 0 fmt 0 offset D3D11_INPUT_PER_VERTEX_DATA 0));
    Ok (true, mkShader descs (m_nMaxDescs s) (Int.add (m_nNumDescs s) 1))
  else Ok (false, s).

(** Calls of [AddInputElementDesc] in a row: the values returned and the
    shader afterwards. *)
Fixpoint add_all (ds : list (Z * Z * string)) (s : CShader)
  : outcome (list bool * CShader) :=
  match ds with
  | (offset, fmt, name) :: rest =>
      r ← AddInputElementDesc offset fmt name s;
      more ← add_all rest (snd r);
      Ok (fst r :: fst more, snd more)
  | [] => Ok ([], s)
  end.

(** The descriptor that a call with these arguments writes. *)
Definition described (d : Z * Z * string) : D3D11_INPUT_ELEMENT_DESC :=
  let '(offset, fmt, name) := d in
  mkDesc name 0 fmt 0 offset D3D11_INPUT_PER_VERTEX_DATA 0.

(** A shader whose array holds the descriptors of [filled], in order, and
    then [free] unset elements. *)
Definition shader_of (filled : list (Z * Z * string)) (free : nat) : CShader :=
  mkShader (map (fun d => Some (described d)) filled ++ replicate free None)
           (Z.of_nat (length filled + free))
           (Z.of_nat (length filled)).

(** The two calls of [CRenderer::InitBackground], with the numbers of
    DXGI_FORMAT_R32G32B32_FLOAT and DXGI_FORMAT_R32G32_FLOAT. *)
Definition background_descs : list (Z * Z * string) :=
  [(0, 6, "POSITION"%string); (12, 16, "TEXCOORD"%string)].

End Shader.

(** ** Dyadic values in binary32 *)

Module Dyadic.

Import F32.

(** The binary32 value of [n * 2^k], rounded to nearest even: [(float)n] is
    [dy n 0]. *)
Definition dy (n k : Z) : spec_float := binary_normalize prec emax n k false.

End Dyadic.

(** * Properties *)

(** ** Integers and arrays *)

Lemma Int_wrap_in_range z : Int.in_range (Int.wrap z).
Proof.
  unfold Int.in_range, Int.wrap, Int.INT_MIN, Int.INT_MAX.
  pose proof (Z.mod_pos_bound (z + 2 ^ 31) (2 ^ 32) ltac:(lia)). lia.
Qed.

Lemma Int_wrap_small z : Int.in_range z -> Int.wrap z = z.
Proof.
  unfold Int.in_range, Int.wrap, Int.INT_MIN, Int.INT_MAX. intros Hz.
  rewrite Z.mod_small by lia. lia.
Qed.

Lemma array_get_Ok {A : Type} (a : list A) (i : Z) (x : A) :
  array_get a i = Ok x <-> 0 <= i /\ a !! Z.to_nat i = Some x.
Proof.
  unfold array_get. destruct (Z.ltb_spec i 0).
  - split; [discriminate | lia].
  - destruct (a !! Z.to_nat i) eqn:E; split; intros H1;
      try discriminate; try (destruct H1; congruence).
    injection H1 as ->. auto.
Qed.

Lemma array_get_in_bounds {A : Type} (a : list A) (i : Z) :
  0 <= i < Z.of_nat (length a) -> exists x, array_get a i = Ok x.
Proof.
  intros Hi. destruct (lookup_lt_is_Some_2 a (Z.to_nat i)) as [x Hx]; [lia|].
  exists x. apply array_get_Ok. split; [lia | exact Hx].
Qed.

Lemma array_get_out_of_bounds {A : Type} (a : list A) (i : Z) :
  i < 0 \/ Z.of_nat (length a) <= i -> array_get a i = Fail UB.
Proof.
  intros Hi. unfold array_get. destruct (Z.ltb_spec i 0); [reflexivity|].
  rewrite lookup_ge_None_2; [reflexivity | lia].
Qed.


Lemma array_set_Ok {A : Type} (a a' : list A) (i : Z) (x : A) :
  array_set a i x = Ok a' ->
  0 <= i < Z.of_nat (length a) /\ a' = <[Z.to_nat i := x]> a.
Proof.
  unfold array_set. destruct (Z.leb_spec 0 i), (Z.ltb_spec i (Z.of_nat (length a)));
    cbn; intros Heq; try discriminate.
  injection Heq as <-. split; [lia | reflexivity].
Qed.

(** ** Sound pool *)

Section SoundPool.

Import Sound.

Lemma createInstances_Ok index n sm sm2 :
  createInstances index n sm = Ok sm2 ->
  0 <= n /\
  0 <= index < Z.of_nat (length (m_nInstanceCount sm)) /\
  0 <= index < Z.of_nat (length (m_pInstance sm)) /\
  sm2 = set_instances
          (<[Z.to_nat index := Some (replicate (Z.to_nat n) CreateInstance)]>
             (m_pInstance sm))
          (set_instance_counts (<[Z.to_nat index := n]> (m_nInstanceCount sm)) sm).
Proof.
  unfold createInstances. intros Hrun.
  destruct (array_set (m_nInstanceCount sm) index n) as [counts|] eqn:Hcounts;
    [|discriminate].
  apply array_set_Ok in Hcounts as [Hc ->]. cbn in Hrun.
  destruct (Z.ltb_spec n 0) as [Hneg | Hpos]; [discriminate|].
  destruct (if 0 <? n then array_get (m_pSoundEffects sm) index else Ok EmptyString);
    [|discriminate].
  cbn in Hrun.
  destruct (array_set (m_pInstance sm) index _) as [arrays|] eqn:Harrays;
    [|discriminate].
  apply array_set_Ok in Harrays as [Ha ->]. cbn in Hrun. injection Hrun as <-.
  repeat split; lia.
Qed.

Lemma Load_sounds_loaded sounds :
  forall k sm sm',
    loaded k sm ->
    Z.of_nat (k + length sounds) <= Int.INT_MAX ->
    Load_sounds sounds sm = Ok sm' ->
    loaded (k + length sounds) sm'.
Proof.
  induction sounds as [|s rest IH]; intros k sm sm' Hinv Hmax Hrun.
  - cbn in Hrun. injection Hrun as <-. rewrite Nat.add_0_r. exact Hinv.
  - cbn [Load_sounds] in Hrun.
    destruct (strncpy_s 64 (Xml.Attribute "file" s)) as [buffer|]; [|discriminate].
    cbn in Hrun.
    set (n := if Xml.IntAttribute "instances" s =? 0 then 1
              else Xml.IntAttribute "instances" s) in *.
    assert (Hn0 : n <> 0).
    { unfold n. destruct (Z.eqb_spec (Xml.IntAttribute "instances" s) 0); lia. }
    destruct Hinv as (Hcount & Heff & Hsounds).
    match type of Hrun with
    | context [createInstances ?i n ?sm1] =>
        destruct (createInstances i n sm1) as [sm2|] eqn:Hcreate; [|discriminate];
        apply createInstances_Ok in Hcreate as (Hn & Hk1 & Hk2 & ->)
    end.
    cbn in Hrun, Hk1, Hk2.
    rewrite length_app, Heff in Hrun, Hk1, Hk2. cbn [length] in Hrun, Hk1, Hk2.
    replace (Z.of_nat (k + 1) - 1) with (Z.of_nat k) in Hrun, Hk1, Hk2 by lia.
    rewrite Nat2Z.id in Hrun.
    replace (k + length (s :: rest))%nat with (S k + length rest)%nat by (cbn; lia).
    refine (IH (S k) _ sm' _ _ Hrun); [| cbn [length] in Hmax; lia].
    cbn [length] in Hmax.
    split; [|split]; cbn.
    + rewrite Hcount. unfold Int.add. rewrite Int_wrap_small; [lia|].
      unfold Int.in_range, Int.INT_MIN. lia.
    + rewrite length_app, Heff. cbn. lia.
    + intros i Hi. destruct (Nat.eq_dec i k) as [-> | Hne].
      * exists n, (replicate (Z.to_nat n) CreateInstance).
        rewrite !list_lookup_insert_eq by lia. rewrite length_replicate.
        split; [reflexivity|]. split; [reflexivity|]. lia.
      * destruct (Hsounds i ltac:(lia)) as (n' & insts' & H1 & H2 & H3 & H4).
        exists n', insts'. rewrite !list_lookup_insert_ne by lia. auto.
Qed.

(** [Load()] on a fresh manager leaves it well formed, with one sound per
    [<sound>] element. *)
Lemma Load_well_formed settings snd s0 i0 sm :
  Xml.FirstChildElement "sounds" settings = Some snd ->
  Z.of_nat (length (Xml.ChildElements "sound" snd)) <= Int.INT_MAX ->
  Load (Some settings) (constructor s0 i0) = Ok sm ->
  well_formed sm /\
  m_nCount sm = Z.of_nat (length (Xml.ChildElements "sound" snd)).
Proof.
  intros Hsnd Hmax Hload. unfold Load in Hload. rewrite Hsnd in Hload.
  apply (Load_sounds_loaded _ 0%nat) in Hload; [| |exact Hmax].
  - destruct Hload as (Hcount & _ & Hsounds). cbn in Hcount. split; [|exact Hcount].
    intros index Hidx. rewrite Hcount in Hidx.
    destruct (Hsounds (Z.to_nat index) ltac:(cbn; lia)) as (n & insts & H1 & H2 & H3 & H4).
    exists n, insts. split; [|exact H4].
    split; [|split; [|exact H3]]; apply array_get_Ok; split; try lia; assumption.
  - split; [reflexivity|]. split; [reflexivity|]. intros i Hi. lia.
Qed.

Lemma instance_at_has_instances sm index n insts j :
  has_instances sm index n insts ->
  instance_at sm index j = array_get insts j.
Proof.
  intros (_ & Ha & _). unfold instance_at. rewrite Ha. reflexivity.
Qed.

Lemma getNextInstance_while_spec sm index n insts :
  has_instances sm index n insts ->
  forall instance soundState,
    0 <= instance <= n ->
    (instance < n ->
     exists i, array_get insts instance = Ok i /\ GetState i = soundState) ->
    (forall j, 0 <= j < instance -> playing_at insts j) ->
    exists r, getNextInstance_while sm index n instance soundState = Ok r /\
              first_idle insts n r.
Proof.
  intros Hhas instance soundState.
  funelim (getNextInstance_while sm index n instance soundState);
    intros Hrange Hcur Hbefore.
  - (* the current instance is stopped *)
    exists instance. split; [reflexivity|]. split; [exact Hbefore|]. left.
    split; [lia|]. destruct (Hcur l) as (i & Hi & Hs).
    exists i. split; [exact Hi | congruence].
  - (* the current instance is paused *)
    exists instance. split; [reflexivity|]. split; [exact Hbefore|]. left.
    split; [lia|]. destruct (Hcur l) as (i & Hi & Hs).
    exists i. split; [exact Hi | congruence].
  - (* past the last instance *)
    exists instance. split; [reflexivity|]. split; [exact Hbefore|]. right. lia.
  - (* playing: go to the next copy *)
    apply (H insts Hhas); [lia | |].
    + intros Hnext. rewrite (instance_at_has_instances _ _ _ _ _ Hhas) in Heq.
      destruct (Z.ltb_spec (instance + 1) n); [|lia].
      destruct (array_get insts (instance + 1)) as [i|] eqn:Hi; [|discriminate].
      exists i. split; [reflexivity|]. cbn in Heq. congruence.
    + intros j Hj. destruct (Z.eq_dec j instance) as [->|Hne].
      * destruct (Hcur l) as (i & Hi & Hs). exists i. auto.
      * apply Hbefore. lia.
  - (* reading the next state cannot fail inside the array *)
    exfalso. rewrite (instance_at_has_instances _ _ _ _ _ Hhas) in Heq.
    destruct (Z.ltb_spec (instance + 1) n); [|discriminate].
    destruct Hhas as (_ & _ & Hlen).
    destruct (array_get_in_bounds insts (instance + 1)) as [i Hi]; [lia|].
    rewrite Hi in Heq. discriminate.
Qed.

(** [getNextInstance] runs the loop from instance 0 with its state. *)
Lemma getNextInstance_run sm index n insts :
  has_instances sm index n insts ->
  1 <= n ->
  exists r, getNextInstance index sm = Ok r /\ first_idle insts n r.
Proof.
  intros Hhas Hn. unfold getNextInstance.
  rewrite (instance_at_has_instances _ _ _ _ _ Hhas).
  pose proof Hhas as (Hcount & _ & Hlen).
  destruct (array_get_in_bounds insts 0) as [i0 Hi0]; [lia|].
  rewrite Hi0, Hcount. cbn.
  apply (getNextInstance_while_spec sm index n insts Hhas 0 (GetState i0)).
  - lia.
  - intros _. exists i0. auto.
  - intros j Hj. lia.
Qed.

(** C1. With [n >= 1] instances of sound [index], [getNextInstance] returns
    the lowest index in [0..n-1] of an instance that is not playing, and [n]
    when all [n] instances are playing. *)
Theorem getNextInstance_first_idle sm index n insts :
  has_instances sm index n insts ->
  1 <= n ->
  exists r, getNextInstance index sm = Ok r /\
            (forall j, 0 <= j < r -> playing_at insts j) /\
            ((0 <= r < n /\ idle_at insts r) \/
             (r = n /\ forall j, 0 <= j < n -> playing_at insts j)).
Proof.
  intros Hhas Hn. unfold getNextInstance.
  rewrite (instance_at_has_instances _ _ _ _ _ Hhas).
  pose proof Hhas as (Hcount & _ & Hlen).
  (* instance 0 exists, so its state can be read *)
  destruct (array_get_in_bounds insts 0) as [i0 Hi0]; [lia|].
  rewrite Hi0, Hcount. cbn.
  (* the loop, entered at instance 0 with that state *)
  destruct (getNextInstance_while_spec sm index n insts Hhas 0 (GetState i0))
    as (r & Hr & Hbefore & Hat).
  - lia.
  - intros _. exists i0. auto.
  - intros j Hj. lia.
  - exists r. split; [exact Hr|]. split; [exact Hbefore|].
    destruct Hat as [Hidle | ->]; [left; exact Hidle | right; auto].
Qed.

Lemma getNextInstance_first_idle_witness :
  has_instances demo_manager 0 2 demo_instances /\ 1 <= 2 /\
  exists r, getNextInstance 0 demo_manager = Ok r /\
            (forall j, 0 <= j < r -> playing_at demo_instances j) /\
            ((0 <= r < 2 /\ idle_at demo_instances r) \/
             (r = 2 /\ forall j, 0 <= j < 2 -> playing_at demo_instances j)).
Proof.
  assert (Hhas : has_instances demo_manager 0 2 demo_instances)
    by (repeat split; reflexivity).
  assert (Hn : 1 <= 2) by lia.
  split; [exact Hhas|]. split; [exact Hn|].
  exact (getNextInstance_first_idle demo_manager 0 2 demo_instances Hhas Hn).
Defined.

Lemma has_instances_index_bounds sm index n insts :
  has_instances sm index n insts ->
  0 <= index < Z.of_nat (length (m_pInstance sm)).
Proof.
  intros (_ & Ha & _). apply array_get_Ok in Ha as [H0 Hl].
  apply lookup_lt_Some in Hl. lia.
Qed.

Lemma call_instance_in_range sm index n insts r f :
  has_instances sm index n insts ->
  0 <= r < n ->
  exists i, array_get insts r = Ok i /\
    call_instance index r f sm =
    Ok (set_instances
          (<[Z.to_nat index := Some (<[Z.to_nat r := f i]> insts)]> (m_pInstance sm))
          sm).
Proof.
  intros Hhas Hr. pose proof (has_instances_index_bounds _ _ _ _ Hhas) as Hidx.
  destruct Hhas as (_ & Ha & Hlen).
  destruct (array_get_in_bounds insts r) as [i Hi]; [lia|].
  exists i. split; [exact Hi|].
  unfold call_instance. rewrite Ha. cbn. rewrite Hi. cbn.
  unfold array_set.
  destruct (Z.leb_spec 0 r); [|lia].
  destruct (Z.ltb_spec r (Z.of_nat (length insts))); [|lia]. cbn.
  destruct (Z.leb_spec 0 index); [|lia].
  destruct (Z.ltb_spec index (Z.of_nat (length (m_pInstance sm)))); [|lia].
  reflexivity.
Qed.

Lemma getNextInstance_all_playing sm index n insts :
  has_instances sm index n insts ->
  1 <= n ->
  (forall j, 0 <= j < n -> playing_at insts j) ->
  getNextInstance index sm = Ok n.
Proof.
  intros Hhas Hn Hall.
  destruct (getNextInstance_run sm index n insts Hhas Hn)
    as (r & Hr & _ & [[Hlt (i & Hi & Hidle)] | ->]); [|exact Hr].
  destruct (Hall r Hlt) as (i' & Hi' & Hplay). congruence.
Qed.

Lemma play_or_loop_all_playing looped sm index n insts :
  0 <= index < m_nCount sm ->
  has_instances sm index n insts ->
  1 <= n ->
  (forall j, 0 <= j < n -> playing_at insts j) ->
  play_or_loop looped index sm = Ok (n, set_last_played index n sm).
Proof.
  intros Hidx Hhas Hn Hall. unfold play_or_loop, play, loop.
  destruct looped.
  all: destruct (Z.ltb_spec index 0); [lia|].
  all: destruct (Z.geb_spec index (m_nCount sm)); [lia|]; cbn.
  all: rewrite (getNextInstance_all_playing _ _ _ _ Hhas Hn Hall); cbn.
  all: destruct Hhas as (Hc & _ & _); rewrite Hc; cbn.
  all: rewrite Z.ltb_irrefl; reflexivity.
Qed.

(** C2. When all [n] instances of a valid sound [index] are playing, [play]
    and [loop] start nothing: no instance of any sound receives a call, and the
    instance arrays and counts are what they were. *)
Theorem play_loop_dropped_when_all_playing sm index n insts :
  0 <= index < m_nCount sm ->
  has_instances sm index n insts ->
  1 <= n ->
  (forall j, 0 <= j < n -> playing_at insts j) ->
  exists sm1 sm2,
    play index sm = Ok (n, sm1) /\ loop index sm = Ok (n, sm2) /\
    m_pInstance sm1 = m_pInstance sm /\ m_pInstance sm2 = m_pInstance sm /\
    m_nInstanceCount sm1 = m_nInstanceCount sm /\
    m_nInstanceCount sm2 = m_nInstanceCount sm.
Proof.
  intros Hidx Hhas Hn Hall.
  exists (set_last_played index n sm), (set_last_played index n sm).
  pose proof (play_or_loop_all_playing false _ _ _ _ Hidx Hhas Hn Hall) as Hp.
  pose proof (play_or_loop_all_playing true _ _ _ _ Hidx Hhas Hn Hall) as Hl.
  cbn in Hp, Hl. rewrite Hp, Hl. repeat split; reflexivity.
Qed.

Lemma busy_all_playing : forall j, 0 <= j < 2 -> playing_at busy_instances j.
Proof.
  intros j Hj. assert (Hc : j = 0 \/ j = 1) by lia.
  destruct Hc as [-> | ->]; eexists; split; reflexivity.
Qed.

Lemma play_loop_dropped_when_all_playing_witness :
  0 <= 0 < m_nCount busy_manager /\
  has_instances busy_manager 0 2 busy_instances /\
  1 <= 2 /\
  (forall j, 0 <= j < 2 -> playing_at busy_instances j) /\
  exists sm1 sm2,
    play 0 busy_manager = Ok (2, sm1) /\ loop 0 busy_manager = Ok (2, sm2) /\
    m_pInstance sm1 = m_pInstance busy_manager /\
    m_pInstance sm2 = m_pInstance busy_manager /\
    m_nInstanceCount sm1 = m_nInstanceCount busy_manager /\
    m_nInstanceCount sm2 = m_nInstanceCount busy_manager.
Proof.
  assert (Hidx : 0 <= 0 < m_nCount busy_manager) by (cbn; lia).
  assert (Hhas : has_instances busy_manager 0 2 busy_instances)
    by (repeat split; reflexivity).
  assert (Hn : 1 <= 2) by lia.
  split; [exact Hidx|]. split; [exact Hhas|]. split; [exact Hn|].
  split; [exact busy_all_playing|].
  exact (play_loop_dropped_when_all_playing busy_manager 0 2 busy_instances
           Hidx Hhas Hn busy_all_playing).
Defined.

Lemma play_or_loop_bad_index looped sm index :
  index < 0 \/ m_nCount sm <= index ->
  play_or_loop looped index sm = Ok (-1, sm).
Proof.
  intros Hbad. unfold play_or_loop, play, loop.
  assert (Hg : (index <? 0) || (index >=? m_nCount sm) = true).
  { destruct (Z.ltb_spec index 0); [reflexivity|].
    destruct (Z.geb_spec index (m_nCount sm)); [reflexivity | lia]. }
  destruct looped; rewrite Hg; reflexivity.
Qed.

(** What [play] and [loop] do with a valid index: the instance [r] they
    return is the one [getNextInstance] chose, it receives [Play] when it
    exists, and the pair [(index, r)] is recorded in either case. *)
Lemma play_or_loop_valid looped sm index n insts :
  0 <= index < m_nCount sm ->
  has_instances sm index n insts ->
  1 <= n ->
  exists r sm',
    play_or_loop looped index sm = Ok (r, sm') /\
    getNextInstance index sm = Ok r /\
    first_idle insts n r /\
    m_nLastPlayedSound sm' = index /\
    m_nLastPlayedInstance sm' = r /\
    m_nInstanceCount sm' = m_nInstanceCount sm /\
    m_nCount sm' = m_nCount sm /\
    (r = n -> m_pInstance sm' = m_pInstance sm).
Proof.
  intros Hidx Hhas Hn.
  destruct (getNextInstance_run sm index n insts Hhas Hn) as (r & Hr & Hfirst).
  pose proof Hfirst as (Hbefore & Hat).
  assert (Hguard : (index <? 0) || (index >=? m_nCount sm) = false).
  { destruct (Z.ltb_spec index 0); [lia|].
    destruct (Z.geb_spec index (m_nCount sm)); [lia | reflexivity]. }
  pose proof Hhas as (Hc & _ & _).
  destruct (Z.ltb_spec r n) as [Hlt | Hge].
  - assert (Hrange : 0 <= r < n) by (destruct Hat as [[? _] | ?]; lia).
    destruct (call_instance_in_range sm index n insts r (Play looped) Hhas Hrange)
      as (i & Hi & Hcall).
    eexists r, _. split.
    + unfold play_or_loop, play, loop.
      destruct looped; rewrite Hguard, Hr; cbn; rewrite Hc; cbn;
        destruct (Z.ltb_spec r n); try lia; rewrite Hcall; cbn; reflexivity.
    + repeat split; try reflexivity; try exact Hr; try apply Hfirst. lia.
  - exists r, (set_last_played index r sm). split.
    + unfold play_or_loop, play, loop.
      destruct looped; rewrite Hguard, Hr; cbn; rewrite Hc; cbn;
        destruct (Z.ltb_spec r n); try lia; reflexivity.
    + repeat split; try reflexivity; try exact Hr; apply Hfirst.
Qed.

Lemma pitch_on_target p instance index sm :
  pitch p instance index sm = on_target (SetPitch p) instance index sm.
Proof. reflexivity. Qed.

Lemma volume_on_target v instance index sm :
  volume v instance index sm = on_target (SetVolume v) instance index sm.
Proof. reflexivity. Qed.

Lemma move_on_target w h ePos instance index sm :
  move w h ePos instance index sm =
  on_target
    (Apply3D (mkScaled (mkVector3 (F32.div (F32.of_Z w) (F32.of_Z 2))
                                  (F32.div (F32.of_Z h) (F32.of_Z 2)) (F32.of_Z 0))
                       (F32.of_Z 500))
             (mkScaled ePos (F32.of_Z 500)))
    instance index sm.
Proof. reflexivity. Qed.

(** The guard of [move], [pitch] and [volume]: a target instance that is
    negative, or that is not below the instance count of an existing sound,
    leaves the manager as it is. *)
Lemma on_target_ignored f instance index sm :
  let index' := if index =? -1 then m_nLastPlayedSound sm else index in
  let instance' := if instance =? -1 then m_nLastPlayedInstance sm else instance in
  instance' < 0 \/
  (exists n, array_get (m_nInstanceCount sm) index' = Ok n /\ n <= instance') ->
  on_target f instance index sm = Ok sm.
Proof.
  intros index' instance' Hout. unfold on_target. fold index'. fold instance'.
  destruct (Z.leb_spec 0 instance') as [Hnn | Hneg]; [|reflexivity].
  destruct Hout as [Hneg | (n & Hn & Hge)]; [lia|].
  rewrite Hn. cbn. destruct (Z.ltb_spec instance' n); [lia | reflexivity].
Qed.

(** C10. [play] and [loop] with a valid index record the pair
    [(index, chosen instance)], also when every instance was busy; the
    recorded instance is then [n], and [move], [pitch] and [volume] with
    defaulted arguments leave the manager unchanged.  With an invalid index
    they return [-1] and the recorded pair stays. *)
Theorem play_loop_record_last_played sm index :
  (index < 0 \/ m_nCount sm <= index ->
   play index sm = Ok (-1, sm) /\ loop index sm = Ok (-1, sm)) /\
  (forall n insts,
     0 <= index < m_nCount sm ->
     has_instances sm index n insts ->
     1 <= n ->
     forall start, start = play \/ start = loop ->
     exists r sm',
       start index sm = Ok (r, sm') /\
       getNextInstance index sm = Ok r /\
       m_nLastPlayedSound sm' = index /\
       m_nLastPlayedInstance sm' = r /\
       ((forall j, 0 <= j < n -> playing_at insts j) ->
        r = n /\
        m_pInstance sm' = m_pInstance sm /\
        forall w h ePos p v,
          move w h ePos (-1) (-1) sm' = Ok sm' /\
          pitch p (-1) (-1) sm' = Ok sm' /\
          volume v (-1) (-1) sm' = Ok sm')).
Proof.
  split.
  - intros Hbad. split.
    + exact (play_or_loop_bad_index false sm index Hbad).
    + exact (play_or_loop_bad_index true sm index Hbad).
  - intros n insts Hidx Hhas Hn start Hstart.
    assert (Hs : exists looped, start = play_or_loop looped).
    { destruct Hstart as [-> | ->]; [exists false | exists true]; reflexivity. }
    destruct Hs as [looped ->].
    destruct (play_or_loop_valid looped sm index n insts Hidx Hhas Hn)
      as (r & sm' & Hrun & Hnext & Hfirst & Hsound & Hinst & Hcounts & _ & Hsame).
    exists r, sm'. split; [exact Hrun|]. split; [exact Hnext|].
    split; [exact Hsound|]. split; [exact Hinst|].
    intros Hall.
    (* every instance is busy: the instance chosen and recorded is [n] *)
    assert (Hrn : r = n).
    { rewrite (getNextInstance_all_playing _ _ _ _ Hhas Hn Hall) in Hnext. congruence. }
    split; [exact Hrn|]. split; [exact (Hsame Hrn)|].
    (* the defaulted target is instance [n] of sound [index]: not below the count *)
    assert (Hout : forall f, on_target f (-1) (-1) sm' = Ok sm').
    { intros f. apply on_target_ignored. cbn. rewrite Hsound, Hinst, Hcounts. right.
      exists n. destruct Hhas as (Hc & _). split; [exact Hc | lia]. }
    intros w h ePos p v.
    rewrite move_on_target, pitch_on_target, volume_on_target.
    repeat split; apply Hout.
Qed.

Lemma play_loop_record_last_played_witness :
  (5 < 0 \/ m_nCount busy_manager <= 5) /\
  (play 5 busy_manager = Ok (-1, busy_manager) /\
   loop 5 busy_manager = Ok (-1, busy_manager)) /\
  0 <= 0 < m_nCount busy_manager /\
  has_instances busy_manager 0 2 busy_instances /\
  1 <= 2 /\
  exists r sm',
    loop 0 busy_manager = Ok (r, sm') /\
    getNextInstance 0 busy_manager = Ok r /\
    m_nLastPlayedSound sm' = 0 /\
    m_nLastPlayedInstance sm' = r /\
    ((forall j, 0 <= j < 2 -> playing_at busy_instances j) ->
     r = 2 /\
     m_pInstance sm' = m_pInstance busy_manager /\
     forall w h ePos p v,
       move w h ePos (-1) (-1) sm' = Ok sm' /\
       pitch p (-1) (-1) sm' = Ok sm' /\
       volume v (-1) (-1) sm' = Ok sm').
Proof.
  assert (Hbad : 5 < 0 \/ m_nCount busy_manager <= 5) by (right; cbn; lia).
  assert (Hidx : 0 <= 0 < m_nCount busy_manager) by (cbn; lia).
  assert (Hhas : has_instances busy_manager 0 2 busy_instances)
    by (repeat split; reflexivity).
  assert (Hn : 1 <= 2) by lia.
  split; [exact Hbad|].
  split; [exact (proj1 (play_loop_record_last_played busy_manager 5) Hbad)|].
  split; [exact Hidx|]. split; [exact Hhas|]. split; [exact Hn|].
  exact (proj2 (play_loop_record_last_played busy_manager 0) 2 busy_instances
           Hidx Hhas Hn loop (or_intror eq_refl)).
Defined.

(** One sound with two instances, played three times in a row: instance 0,
    then instance 1, then nothing, the third call returning the count 2. *)
Lemma play_three_times :
  (sm0 ← fresh_manager;
   r1 ← play 0 sm0; r2 ← play 0 (snd r1); r3 ← play 0 (snd r2);
   Ok (fst r1, fst r2, fst r3, m_pInstance (snd r2), m_pInstance (snd r3)))
  = Ok (0, 1, 2,
        [Some [Play false CreateInstance; Play false CreateInstance]],
        [Some [Play false CreateInstance; Play false CreateInstance]]).
Proof. vm_compute. reflexivity. Qed.

(** The guard tests the instance only: a sound index outside the arrays is
    used to read [m_nInstanceCount] whenever the instance is not negative. *)
Lemma on_target_unchecked_index f instance index sm :
  let index' := if index =? -1 then m_nLastPlayedSound sm else index in
  let instance' := if instance =? -1 then m_nLastPlayedInstance sm else instance in
  0 <= instance' ->
  index' < 0 \/ Z.of_nat (length (m_nInstanceCount sm)) <= index' ->
  on_target f instance index sm = Fail UB.
Proof.
  intros index' instance' Hinst Hidx. unfold on_target. fold index'. fold instance'.
  destruct (Z.leb_spec 0 instance'); [|lia].
  rewrite array_get_out_of_bounds by exact Hidx. reflexivity.
Qed.

(** C8 (where the code departs from it).  On a manager that holds one sound,
    [pitch], [volume] and [move] aimed at sound 7, instance 0, read
    [m_nInstanceCount[7]] outside the array: the calls are not ignored, they
    have no defined result.  [play] and [loop] reject the same index.  The
    defaulted call does the same on a manager on which nothing was played yet,
    when the uninitialised last-played pair holds such an index. *)
Theorem move_pitch_volume_unchecked_sound_index :
  pitch (F32.of_Z 1) 0 7 demo_manager = Fail UB /\
  volume (F32.of_Z 1) 0 7 demo_manager = Fail UB /\
  move 1024 768 (mkVector3 (F32.of_Z 0) (F32.of_Z 0) (F32.of_Z 0)) 0 7 demo_manager
    = Fail UB /\
  play 7 demo_manager = Ok (-1, demo_manager) /\
  loop 7 demo_manager = Ok (-1, demo_manager) /\
  (sm ← fresh_manager; pitch (F32.of_Z 1) (-1) (-1) sm) = Fail UB.
Proof. repeat split; reflexivity. Qed.

End SoundPool.

(** ** Timer *)

Section TimerFacts.

Import Timer.

Lemma elapsed_true t start interval :
  Int.in_range (start + interval) ->
  start + interval <= time t ->
  elapsed t start interval = (true, time t).
Proof.
  intros Hr Hle. unfold elapsed, Int.add, time in *.
  rewrite (Int_wrap_small _ Hr).
  destruct (Z.geb_spec (m_nCurrentTime t) (start + interval)); [reflexivity | lia].
Qed.

Lemma elapsed_false t start interval :
  Int.in_range (start + interval) ->
  time t < start + interval ->
  elapsed t start interval = (false, start).
Proof.
  intros Hr Hlt. unfold elapsed, Int.add, time in *.
  rewrite (Int_wrap_small _ Hr).
  destruct (Z.geb_spec (m_nCurrentTime t) (start + interval)); [lia | reflexivity].
Qed.

Lemma last_reset_cons start0 e trace :
  last_reset start0 (e :: trace) =
  last_reset (if snd e then fst e else start0) trace.
Proof. reflexivity. Qed.

Lemma poll_spec samples interval :
  forall t start0 trace startn tn,
    poll samples interval t start0 = (trace, startn, tn) ->
    Int.in_range (start0 + interval) ->
    Forall (fun e => Int.in_range (fst e + interval)) trace ->
    startn = last_reset start0 trace /\
    length trace = length samples /\
    forall k cur fired,
      trace !! k = Some (cur, fired) ->
      (fired = true <-> interval <= cur - last_reset start0 (take k trace)).
Proof.
  induction samples as [|now rest IH]; intros t start0 trace startn tn Hpoll Hs Hall.
  - cbn in Hpoll. injection Hpoll as <- <- <-.
    split; [reflexivity|]. split; [reflexivity|]. intros k cur fired Hk.
    rewrite lookup_nil in Hk. discriminate.
  - cbn [poll] in Hpoll.
    destruct (elapsed (beginframe now t) start0 interval) as [fired1 start1] eqn:He.
    destruct (poll rest interval (beginframe now t) start1) as [[trace' startn'] tn'] eqn:Hp.
    injection Hpoll as <- <- <-.
    apply Forall_cons in Hall as [Hhd Htl]. cbn [fst] in Hhd.
    assert (Hstep : (fired1 = true <-> interval <= time (beginframe now t) - start0) /\
                    start1 = if fired1 then time (beginframe now t) else start0).
    { destruct (Z_le_gt_dec (start0 + interval) (time (beginframe now t))) as [Hle | Hgt].
      - rewrite (elapsed_true _ _ _ Hs Hle) in He. injection He as <- <-.
        split; [split; [lia | reflexivity] | reflexivity].
      - rewrite (elapsed_false _ _ _ Hs) in He by lia. injection He as <- <-.
        split; [split; [discriminate | lia] | reflexivity]. }
    destruct Hstep as [Hfired Hstart1].
    assert (Hs1 : Int.in_range (start1 + interval))
      by (rewrite Hstart1; destruct fired1; assumption).
    destruct (IH _ _ _ _ _ Hp Hs1 Htl) as (Hn & Hlen & Hk).
    change (time (beginframe now t))
      with (Int.sub (timeGetTime_int now) (m_nStartTime t)) in Hfired, Hstart1.
    rewrite last_reset_cons. cbn [fst snd]. rewrite <- Hstart1.
    split; [exact Hn|]. split; [cbn; lia|].
    intros [|k] cur fired Hlook; cbn in Hlook.
    + injection Hlook as <- <-. exact Hfired.
    + cbn [take]. rewrite last_reset_cons. cbn [fst snd]. rewrite <- Hstart1.
      apply Hk. exact Hlook.
Qed.

(** C3. [elapsed(start, interval)] returns true and sets [start] to the
    current time when the current time has reached [start + interval], and
    returns false and leaves [start] otherwise; a second call at the same time
    returns false; and over any sequence of clock samples it returns true in
    exactly the frames where the time since the last reset has reached
    [interval], [start] holding the time of that last reset. *)
Theorem elapsed_periodic_trigger :
  (forall t start interval,
     Int.in_range (start + interval) ->
     (start + interval <= time t -> elapsed t start interval = (true, time t)) /\
     (time t < start + interval -> elapsed t start interval = (false, start))) /\
  (forall t start interval,
     0 < interval ->
     Int.in_range (time t + interval) ->
     fst (elapsed t start interval) = true ->
     elapsed t (snd (elapsed t start interval)) interval = (false, time t)) /\
  (forall samples interval t start0 trace startn tn,
     poll samples interval t start0 = (trace, startn, tn) ->
     Int.in_range (start0 + interval) ->
     Forall (fun e => Int.in_range (fst e + interval)) trace ->
     startn = last_reset start0 trace /\
     length trace = length samples /\
     forall k cur fired,
       trace !! k = Some (cur, fired) ->
       (fired = true <-> interval <= cur - last_reset start0 (take k trace))).
Proof.
  split; [|split].
  - intros t start interval Hr. split.
    + exact (elapsed_true t start interval Hr).
    + exact (elapsed_false t start interval Hr).
  - intros t start interval Hpos Hr Hfired.
    unfold elapsed in Hfired |- *.
    destruct (m_nCurrentTime t >=? Int.add start interval); [|discriminate].
    cbn [snd]. unfold Int.add, time in *. rewrite (Int_wrap_small _ Hr).
    destruct (Z.geb_spec (m_nCurrentTime t) (m_nCurrentTime t + interval));
      [lia | reflexivity].
  - exact poll_spec.
Qed.

Lemma elapsed_periodic_trigger_witness :
  (Int.in_range (0 + 500) /\
   0 + 500 <= time (beginframe 1000 demo_timer) /\
   elapsed (beginframe 1000 demo_timer) 0 500 = (true, 1000)) /\
  (Int.in_range (800 + 500) /\
   time (beginframe 1000 demo_timer) < 800 + 500 /\
   elapsed (beginframe 1000 demo_timer) 800 500 = (false, 800)) /\
  (0 < 500 /\
   Int.in_range (time (beginframe 1000 demo_timer) + 500) /\
   fst (elapsed (beginframe 1000 demo_timer) 0 500) = true /\
   elapsed (beginframe 1000 demo_timer)
     (snd (elapsed (beginframe 1000 demo_timer) 0 500)) 500 = (false, 1000)) /\
  (poll [100; 600; 700; 1200] 500 demo_timer 0 =
     ([(100, false); (600, true); (700, false); (1200, true)], 1200,
      beginframe 1200 (beginframe 700 (beginframe 600 (beginframe 100 demo_timer)))) /\
   1200 = last_reset 0 [(100, false); (600, true); (700, false); (1200, true)] /\
   (true = true <->
    500 <= 1200 - last_reset 0 (take 3 [(100, false); (600, true); (700, false); (1200, true)]))).
Proof.
  assert (R : forall z, -2147483648 <= z <= 2147483647 -> Int.in_range z)
    by (intros z Hz; exact Hz).
  assert (H1 : Int.in_range (0 + 500)) by (apply R; lia).
  assert (H2 : 0 + 500 <= time (beginframe 1000 demo_timer)) by (vm_compute; discriminate).
  assert (H3 : Int.in_range (800 + 500)) by (apply R; lia).
  assert (H4 : time (beginframe 1000 demo_timer) < 800 + 500) by (vm_compute; reflexivity).
  assert (H5 : 0 < 500) by lia.
  assert (H6 : Int.in_range (time (beginframe 1000 demo_timer) + 500))
    by (apply R; vm_compute; split; discriminate).
  assert (H7 : fst (elapsed (beginframe 1000 demo_timer) 0 500) = true) by reflexivity.
  assert (H8 : poll [100; 600; 700; 1200] 500 demo_timer 0 =
     ([(100, false); (600, true); (700, false); (1200, true)], 1200,
      beginframe 1200 (beginframe 700 (beginframe 600 (beginframe 100 demo_timer)))))
    by reflexivity.
  assert (H9 : Forall (fun e : Z * bool => Int.in_range (fst e + 500))
                 [(100, false); (600, true); (700, false); (1200, true)])
    by (repeat constructor; apply R; cbn; lia).
  destruct elapsed_periodic_trigger as (P1 & P2 & P3).
  split; [|split; [|split]].
  - split; [exact H1|]. split; [exact H2|].
    exact (proj1 (P1 (beginframe 1000 demo_timer) 0 500 H1) H2).
  - split; [exact H3|]. split; [exact H4|].
    exact (proj2 (P1 (beginframe 1000 demo_timer) 800 500 H3) H4).
  - split; [exact H5|]. split; [exact H6|]. split; [exact H7|].
    exact (P2 (beginframe 1000 demo_timer) 0 500 H5 H6 H7).
  - split; [exact H8|].
    destruct (P3 _ _ _ _ _ _ _ H8 H1 H9) as (Q1 & _ & Q3).
    split; [exact Q1|]. exact (Q3 3%nat 1200 true eq_refl).
Defined.

Lemma IncrementFrame_step_mode t :
  m_bStepMode t = true -> frametime (IncrementFrame t) = 34.
Proof. intros Hs. unfold IncrementFrame. rewrite Hs. reflexivity. Qed.

Lemma IncrementFrame_not_step_mode t :
  m_bStepMode t = false -> IncrementFrame t = t.
Proof. intros Hs. unfold IncrementFrame. rewrite Hs. reflexivity. Qed.

(** In step mode [beginframe] leaves the frame time alone. *)
Lemma beginframe_step_mode now t :
  m_bStepMode t = true ->
  frametime (beginframe now t) = frametime t /\
  m_bStepMode (beginframe now t) = true.
Proof. intros Hs. unfold beginframe, frametime. rewrite Hs. split; reflexivity. Qed.

(** C4 (where the code departs from it).  In step mode [IncrementFrame] sets
    the frame time to 34 ms.  One sixtieth of a second is 16.67 ms, as the
    comment beside the constant says: 16 or 17 in whole milliseconds, and
    34 is neither.  [beginframe] does leave the frame time alone in step mode. *)
Theorem IncrementFrame_sets_34_ms :
  let t := ToggleStepMode demo_timer in
  m_bStepMode t = true /\
  frametime (IncrementFrame t) = 34 /\
  sixtieth_ms_floor = 16 /\ sixtieth_ms_ceil = 17 /\
  frametime (IncrementFrame t) <> sixtieth_ms_floor /\
  frametime (IncrementFrame t) <> sixtieth_ms_ceil /\
  frametime (beginframe 5000 t) = frametime t.
Proof. cbv zeta. repeat split; try reflexivity; vm_compute; discriminate. Qed.

End TimerFacts.

(** ** Sprite manager *)

Section SpriteManagerFacts.

Import Xml CStr SpriteMan.

Lemma format_cannot_load_sprite name :
  format_s cannot_load_sprite_fmt name = cannot_load_sprite name.
Proof. reflexivity. Qed.

Lemma find_sprite_not_found name sprs :
  Forall (named_otherwise name) sprs -> find_sprite name sprs = Ok None.
Proof.
  induction 1 as [|e rest (n & Hn & Hne) _ IH]; [reflexivity|].
  cbn. rewrite Hn. unfold strcmp_eq.
  destruct (String.eqb_spec (c_str name) (c_str n)) as [Heq | _]; [congruence | exact IH].
Qed.

Lemma find_sprite_found name before e after n :
  Forall (named_otherwise name) before ->
  Attribute "name" e = Some n ->
  c_str n = c_str name ->
  find_sprite name (before ++ e :: after) = Ok (Some e).
Proof.
  intros Hbefore Hn Heq.
  induction Hbefore as [|e' rest (n' & Hn' & Hne) _ IH].
  - cbn. rewrite Hn. unfold strcmp_eq. rewrite Heq, String.eqb_refl. reflexivity.
  - cbn. rewrite Hn'. unfold strcmp_eq.
    destruct (String.eqb_spec (c_str name) (c_str n')) as [Heq' | _]; [congruence | exact IH].
Qed.

Lemma Load_not_found dev settings sprite name sm :
  name_not_found name settings ->
  Load dev settings sprite name sm = Fail (Abort (cannot_load_sprite name)).
Proof.
  unfold name_not_found, sprite_elements, Load. intros Hnone.
  destruct settings as [root|]; [|reflexivity].
  destruct (FirstChildElement "sprites" root) as [spriteSettings|]; [|reflexivity].
  rewrite (find_sprite_not_found _ _ Hnone). reflexivity.
Qed.

Lemma Load_found dev settings sprite name sm e :
  name_found name settings e ->
  Load dev settings sprite name sm =
  (r ← LoadFile dev sprite (Attribute "file" e) sm;
   if negb (fst r) then ABORT cannot_load_sprite_fmt name else Ok (snd r)).
Proof.
  unfold name_found, sprite_elements, Load.
  intros (before & after & n & Hsplit & Hbefore & Hn & Heq).
  destruct settings as [root|]; [|destruct before; discriminate].
  destruct (FirstChildElement "sprites" root) as [spriteSettings|];
    [|destruct before; discriminate].
  rewrite Hsplit, (find_sprite_found _ _ _ _ _ Hbefore Hn Heq). reflexivity.
Qed.

(** What [Load] does when the name is missing and once [LoadFile] has
    returned its [BOOL]: it aborts with the diagnostic
    [Cannot load sprite "<name>".] when no [<sprite>] element carries the name
    and when [LoadFile] returns FALSE (the vertex buffer was not created); it
    returns normally when [LoadFile] returns TRUE. *)
Lemma Load_after_LoadFile dev settings sprite name sm :
  (name_not_found name settings ->
   Load dev settings sprite name sm = Fail (Abort (cannot_load_sprite name))) /\
  (forall e sm',
     name_found name settings e ->
     LoadFile dev sprite (Attribute "file" e) sm = Ok (false, sm') ->
     Load dev settings sprite name sm = Fail (Abort (cannot_load_sprite name))) /\
  (forall e sm',
     name_found name settings e ->
     LoadFile dev sprite (Attribute "file" e) sm = Ok (true, sm') ->
     Load dev settings sprite name sm = Ok sm').
Proof.
  split; [|split].
  - apply Load_not_found.
  - intros e sm' Hfound Hfile.
    rewrite (Load_found _ _ _ _ _ _ Hfound), Hfile. reflexivity.
  - intros e sm' Hfound Hfile.
    rewrite (Load_found _ _ _ _ _ _ Hfound), Hfile. reflexivity.
Qed.

(** A texture that cannot be created is dereferenced before [Load] can
    report anything: [LoadFile] has no defined result then. *)
Lemma c_str_idempotent s : c_str (c_str s) = c_str s.
Proof.
  induction s as [|c rest IH]; [reflexivity|].
  cbn. destruct (Ascii.eqb c "000") eqn:E; [reflexivity|].
  cbn. rewrite E, IH. reflexivity.
Qed.

Lemma LoadFile_without_texture dev sprite file sm :
  0 <= sprite < Z.of_nat (length (m_pSprite sm)) ->
  strlen file < MAX_PATH ->
  CreateWICTextureFromFile dev (c_str file) = None ->
  LoadFile dev sprite (Some file) sm = Fail UB.
Proof.
  intros Hs Hlen Htex. unfold LoadFile, array_set.
  destruct (Z.leb_spec 0 sprite); [|lia].
  destruct (Z.ltb_spec sprite (Z.of_nat (length (m_pSprite sm)))); [|lia].
  cbn. unfold sprintf_s_path. unfold strlen in Hlen.
  destruct (Z.ltb_spec (Z.of_nat (String.length (c_str file))) MAX_PATH); [|lia].
  cbn. unfold Sprite_Load, LoadTexture.
  destruct (100 <=? strlen (c_str file)); [reflexivity|].
  rewrite c_str_idempotent, Htex. reflexivity.
Qed.

Lemma demo_ramp_found : name_found "ramp" (Some demo_settings) demo_ramp.
Proof.
  exists [demo_ball], [], "ramp"%string.
  split; [reflexivity|]. split; [|split; reflexivity].
  constructor; [|constructor]. exists "ball"%string. split; [reflexivity | discriminate].
Qed.

Lemma demo_rump_not_found : name_not_found "rump" (Some demo_settings).
Proof.
  repeat constructor.
  - exists "ball"%string. split; [reflexivity | discriminate].
  - exists "ramp"%string. split; [reflexivity | discriminate].
Qed.

(** C9 (where the code departs from it).  [Load] of a name that the settings
    know, into a slot of the array, when the image file cannot be read: the
    result of [CreateWICTextureFromFile] is dropped and the null texture of
    the new sprite is dereferenced in [C3DSprite::LoadTexture], before
    [LoadFile] returns anything.  The call has no defined result, and the
    diagnostic [Cannot load sprite "<name>".] is not produced. *)
Theorem Load_unreadable_image dev settings sprite name sm e file :
  name_found name settings e ->
  Attribute "file" e = Some file ->
  strlen file < 100 ->
  0 <= sprite < Z.of_nat (length (m_pSprite sm)) ->
  CreateWICTextureFromFile dev (c_str file) = None ->
  Load dev settings sprite name sm = Fail UB /\
  Load dev settings sprite name sm <> Fail (Abort (cannot_load_sprite name)).
Proof.
  intros Hfound Hfile Hlen Hslot Hdev.
  assert (Hrun : Load dev settings sprite name sm = Fail UB).
  { rewrite (Load_found _ _ _ _ _ _ Hfound), Hfile.
    assert (Hpath : strlen file < MAX_PATH) by (unfold MAX_PATH; lia).
    rewrite (LoadFile_without_texture dev sprite file sm Hslot Hpath Hdev). reflexivity. }
  split; [exact Hrun|]. rewrite Hrun. discriminate.
Qed.

Lemma Load_unreadable_image_witness :
  name_found "ramp" (Some demo_settings) demo_ramp /\
  Attribute "file" demo_ramp = Some "Images\ramp.png"%string /\
  strlen "Images\ramp.png" < 100 /\
  0 <= 3 < Z.of_nat (length (m_pSprite constructor)) /\
  CreateWICTextureFromFile (mkDevice (fun _ => None) true) (c_str "Images\ramp.png") = None /\
  Load (mkDevice (fun _ => None) true) (Some demo_settings) 3 "ramp" constructor = Fail UB /\
  Load (mkDevice (fun _ => None) true) (Some demo_settings) 3 "ramp" constructor
    <> Fail (Abort (cannot_load_sprite "ramp")).
Proof.
  assert (H1 : name_found "ramp" (Some demo_settings) demo_ramp) by exact demo_ramp_found.
  assert (H2 : Attribute "file" demo_ramp = Some "Images\ramp.png"%string) by reflexivity.
  assert (H3 : strlen "Images\ramp.png" < 100) by (vm_compute; reflexivity).
  assert (H4 : 0 <= 3 < Z.of_nat (length (m_pSprite constructor)))
    by (split; vm_compute; [discriminate | reflexivity]).
  assert (H5 : CreateWICTextureFromFile (mkDevice (fun _ => None) true)
                 (c_str "Images\ramp.png") = None) by reflexivity.
  split; [exact H1|]. split; [exact H2|]. split; [exact H3|]. split; [exact H4|].
  split; [exact H5|].
  exact (Load_unreadable_image (mkDevice (fun _ => None) true) (Some demo_settings) 3
           "ramp" constructor demo_ramp "Images\ramp.png" H1 H2 H3 H4 H5).
Defined.

End SpriteManagerFacts.

(** ** Text renderer *)

Section RendererFacts.

Import CStr Renderer.

Lemma length_list_ascii_of_string s :
  length (list_ascii_of_string s) = String.length s.
Proof. induction s as [|c rest IH]; [reflexivity | cbn; rewrite IH; reflexivity]. Qed.

Lemma glyph_cell_upper c :
  char_value "A" <= c <= char_value "Z" -> glyph_cell c = (48, c - char_value "A").
Proof.
  intros Hc. unfold glyph_cell.
  destruct (Z.leb_spec (char_value "A") c); [|lia].
  destruct (Z.leb_spec c (char_value "Z")); [reflexivity | lia].
Qed.

Lemma glyph_cell_lower c :
  char_value "a" <= c <= char_value "z" -> glyph_cell c = (95, c - char_value "a").
Proof.
  intros Hc. unfold glyph_cell. change (char_value "A") with 65 in *.
  change (char_value "Z") with 90 in *. change (char_value "a") with 97 in *.
  change (char_value "z") with 122 in *.
  destruct (Z.leb_spec 65 c); [|lia].
  destruct (Z.leb_spec c 90); [lia|]. cbn [andb].
  destruct (Z.leb_spec 97 c); [|lia].
  destruct (Z.leb_spec c 122); [reflexivity | lia].
Qed.

Lemma glyph_cell_digit c :
  char_value "0" <= c <= char_value "9" -> glyph_cell c = (0, c - char_value "0").
Proof.
  intros Hc. unfold glyph_cell. change (char_value "A") with 65 in *.
  change (char_value "Z") with 90 in *. change (char_value "a") with 97 in *.
  change (char_value "z") with 122 in *. change (char_value "0") with 48 in *.
  change (char_value "9") with 57 in *.
  destruct (Z.leb_spec 65 c); [lia|]. cbn [andb].
  destruct (Z.leb_spec 97 c); [lia|]. cbn [andb].
  destruct (Z.leb_spec 48 c); [|lia].
  destruct (Z.leb_spec c 57); [reflexivity | lia].
Qed.

Lemma glyph_cell_space : glyph_cell (char_value " ") = (1, 10).
Proof. reflexivity. Qed.

Lemma glyph_cell_other c :
  ~ char_value "A" <= c <= char_value "Z" ->
  ~ char_value "a" <= c <= char_value "z" ->
  ~ char_value "0" <= c <= char_value "9" ->
  glyph_cell c = (1, 10).
Proof.
  intros HU HL HD. unfold glyph_cell.
  destruct (Z.leb_spec (char_value "A") c), (Z.leb_spec c (char_value "Z"));
    try lia; cbn [andb].
  all: destruct (Z.leb_spec (char_value "a") c), (Z.leb_spec c (char_value "z"));
    try lia; cbn [andb].
  all: destruct (Z.leb_spec (char_value "0") c), (Z.leb_spec c (char_value "9"));
    try lia; reflexivity.
Qed.

Section AnyFloat.

Context {F : Type} `{FloatOps F}.

(** The draws of the loop, one per character: the [i]-th is placed where
    [i] advances of one frame width lead from [s], and shows the cell of the
    [i]-th character. *)
Lemma drawtext_loop_spec r sheet chars :
  m_pScreenText r = Some sheet ->
  forall s : Vector3 F,
  exists draws,
    drawtext_loop r chars s = Ok draws /\
    length draws = length chars /\
    forall i c d,
      chars !! i = Some c -> draws !! i = Some d ->
      uv d = uv_offsets sheet (fst (glyph_cell (char_value c)))
                              (snd (glyph_cell (char_value c))) /\
      vec_x (position d) = advance sheet i (vec_x s).
Proof.
  intros Hsheet. induction chars as [|c rest IH]; intros s.
  - exists []. split; [reflexivity|]. split; [reflexivity|].
    intros i c d Hc. rewrite lookup_nil in Hc. discriminate.
  - cbn [drawtext_loop]. destruct (glyph_cell (char_value c)) as [y xoffset] eqn:Hcell.
    unfold DrawCharFromSpriteSheet. rewrite Hsheet. cbn.
    destruct (IH (mkVector3 (fadd (vec_x s) (of_int (m_nFrameWidth sheet)))
                            (vec_y s) (vec_z s)))
      as (draws & Hrun & Hlen & Hall).
    rewrite Hrun. cbn. eexists. split; [reflexivity|]. split; [cbn; lia|].
    intros [|i] c' d Hc Hd; cbn in Hc, Hd.
    + injection Hc as <-. injection Hd as <-. rewrite Hcell. split; reflexivity.
    + destruct (Hall i c' d Hc Hd) as [Huv Hpos]. split; [exact Huv | exact Hpos].
Qed.

Lemma drawtext_unfold size_bits r sheet text :
  m_pScreenText r = Some sheet ->
  strlen text < 2 ^ 32 ->
  drawtext size_bits r text =
  drawtext_loop r (list_ascii_of_string (c_str text))
    (mkVector3
       (fdiv (of_int (to_size_t size_bits
                        (to_size_t size_bits (m_nScreenWidth r)
                         - to_size_t size_bits
                             (strlen text * to_size_t size_bits (m_nFrameWidth sheet)))))
             (of_int 2))
       (fdiv (of_int (m_nScreenHeight r)) (of_int 2))
       (of_int (-1000))).
Proof.
  intros Hsheet Hlen. unfold drawtext. rewrite Hsheet.
  destruct (Z.leb_spec (2 ^ 32) (strlen text)); [lia | reflexivity].
Qed.

(** C6. For every character of the text, [drawtext] draws the cell of its
    class: row 48 and column [c - 'A'] for an upper-case letter, row 95 and
    column [c - 'a'] for a lower-case letter, row 0 and column [c - '0'] for a
    digit, and the cell at row 1, column 10 for anything else. *)
Theorem drawtext_glyph_cells size_bits r sheet text :
  m_pScreenText r = Some sheet ->
  strlen text < 2 ^ 32 ->
  exists draws : list (GlyphDraw F),
    drawtext size_bits r text = Ok draws /\
    Z.of_nat (length draws) = strlen text /\
    forall i c d,
      list_ascii_of_string (c_str text) !! i = Some c ->
      draws !! i = Some d ->
      let v := char_value c in
      (char_value "A" <= v <= char_value "Z" ->
       uv d = uv_offsets sheet 48 (v - char_value "A")) /\
      (char_value "a" <= v <= char_value "z" ->
       uv d = uv_offsets sheet 95 (v - char_value "a")) /\
      (char_value "0" <= v <= char_value "9" ->
       uv d = uv_offsets sheet 0 (v - char_value "0")) /\
      (~ char_value "A" <= v <= char_value "Z" ->
       ~ char_value "a" <= v <= char_value "z" ->
       ~ char_value "0" <= v <= char_value "9" ->
       uv d = uv_offsets sheet 1 10).
Proof.
  intros Hsheet Hlen. rewrite (drawtext_unfold _ _ _ _ Hsheet Hlen).
  match goal with |- context [drawtext_loop r ?cs ?s] =>
    destruct (drawtext_loop_spec r sheet cs Hsheet s) as (draws & Hrun & Hn & Hall)
  end.
  exists draws. split; [exact Hrun|]. split.
  - rewrite Hn, length_list_ascii_of_string. reflexivity.
  - intros i c d Hc Hd v. destruct (Hall i c d Hc Hd) as [Huv _]. fold v in Huv.
    repeat split; intros.
    + rewrite Huv, glyph_cell_upper by assumption. reflexivity.
    + rewrite Huv, glyph_cell_lower by assumption. reflexivity.
    + rewrite Huv, glyph_cell_digit by assumption. reflexivity.
    + rewrite Huv, glyph_cell_other by assumption. reflexivity.
Qed.

End AnyFloat.

Lemma drawtext_glyph_cells_witness :
  m_pScreenText demo_renderer = Some demo_sheet /\
  strlen "Hi 5" < 2 ^ 32 /\
  exists draws : list (GlyphDraw spec_float),
    drawtext 64 demo_renderer "Hi 5" = Ok draws /\
    Z.of_nat (length draws) = strlen "Hi 5" /\
    forall i c d,
      list_ascii_of_string (c_str "Hi 5") !! i = Some c ->
      draws !! i = Some d ->
      let v := char_value c in
      (char_value "A" <= v <= char_value "Z" ->
       uv d = uv_offsets demo_sheet 48 (v - char_value "A")) /\
      (char_value "a" <= v <= char_value "z" ->
       uv d = uv_offsets demo_sheet 95 (v - char_value "a")) /\
      (char_value "0" <= v <= char_value "9" ->
       uv d = uv_offsets demo_sheet 0 (v - char_value "0")) /\
      (~ char_value "A" <= v <= char_value "Z" ->
       ~ char_value "a" <= v <= char_value "z" ->
       ~ char_value "0" <= v <= char_value "9" ->
       uv d = uv_offsets demo_sheet 1 10).
Proof.
  assert (Hsheet : m_pScreenText demo_renderer = Some demo_sheet) by reflexivity.
  assert (Hlen : strlen "Hi 5" < 2 ^ 32) by (vm_compute; reflexivity).
  split; [exact Hsheet|]. split; [exact Hlen|].
  exact (drawtext_glyph_cells 64 demo_renderer demo_sheet "Hi 5" Hsheet Hlen).
Defined.

(** *** Layout *)

(** A short text in binary32: the four glyphs of ["Hi 5"] on a screen 1024
    wide start at (1024 - 4 * 21) / 2 = 470 and are 21 apart. *)
Lemma drawtext_layout_binary32_example :
  exists draws : list (GlyphDraw spec_float),
    drawtext 64 demo_renderer "Hi 5" = Ok draws /\
    map (fun d => vec_x (position d)) draws =
    [F32.of_Z 470; F32.of_Z 491; F32.of_Z 512; F32.of_Z 533].
Proof. eexists. split; vm_compute; reflexivity. Qed.

(** C7 (where the code departs from it).  A text of 49 characters on a screen
    1024 wide, with frames 21 wide: the claim places the first glyph at
    (1024 - 49 * 21) / 2 = -5/2.  The subtraction is done in [size_t], where
    1024 - 1029 wraps, and the first glyph is at 2^63 (at 2^31 when [size_t]
    has 32 bits). *)
Theorem drawtext_wide_text_wraps :
  strlen long_text = 49 /\
  (inject_Z (m_nScreenWidth demo_renderer - 49 * m_nFrameWidth demo_sheet) / 2
   == - (5 # 2))%Q /\
  (exists d ds,
     drawtext (F:=spec_float) 64 demo_renderer long_text = Ok (d :: ds) /\
     vec_x (position d) = F32.of_Z (2 ^ 63) /\
     (F32.to_Q (vec_x (position d)) == inject_Z (2 ^ 63))%Q) /\
  (exists d ds,
     drawtext (F:=spec_float) 32 demo_renderer long_text = Ok (d :: ds) /\
     vec_x (position d) = F32.of_Z (2 ^ 31) /\
     (F32.to_Q (vec_x (position d)) == inject_Z (2 ^ 31))%Q) /\
  (exists d ds,
     drawtext (F:=Q) 64 demo_renderer long_text = Ok (d :: ds) /\
     (vec_x (position d) == inject_Z (2 ^ 64 - 5) / 2)%Q).
Proof.
  split; [vm_compute; reflexivity|].
  split; [vm_compute; reflexivity|].
  split; [|split].
  - eexists _, _. split; [vm_compute; reflexivity|]. split; vm_compute; reflexivity.
  - eexists _, _. split; [vm_compute; reflexivity|]. split; vm_compute; reflexivity.
  - eexists _, _. split; [vm_compute; reflexivity|]. vm_compute; reflexivity.
Qed.

(** *** Texture offsets *)

(** C5 as stated fails: for the first column of a sheet 573 wide with frames
    21 wide, the width of the selected rectangle is not 21/573, neither in
    exact arithmetic nor, by far more than a rounding, in binary32. *)
Lemma uv_width_is_not_frame_over_sheet_width :
  ~ (uv_width_exact demo_sheet 48 0 ==
     inject_Z (m_nFrameWidth demo_sheet) / inject_Z (m_nWidth demo_sheet))%Q /\
  (1 # 20000 <
   Qabs (uv_width_binary32 demo_sheet 48 0
         - inject_Z (m_nFrameWidth demo_sheet) / inject_Z (m_nWidth demo_sheet)))%Q.
Proof.
  split.
  - intros Heq. vm_compute in Heq. discriminate.
  - vm_compute. reflexivity.
Qed.

End RendererFacts.


(** * Further properties *)

(** ** Sound manager: loading, playing, adjusting *)

Section SoundRunsFacts.

Import Sound SoundRuns.

Lemma array_get_insert_eq {A : Type} (l : list A) (i : Z) (x : A) :
  0 <= i < Z.of_nat (length l) -> array_get (<[Z.to_nat i := x]> l) i = Ok x.
Proof.
  intros Hi. apply array_get_Ok. split; [lia|].
  apply list_lookup_insert_eq. lia.
Qed.

Lemma array_get_insert_ne {A : Type} (l : list A) (i j : Z) (x : A) :
  0 <= i -> i <> j -> array_get (<[Z.to_nat i := x]> l) j = array_get l j.
Proof.
  intros Hi Hne. unfold array_get. destruct (Z.ltb_spec j 0); [reflexivity|].
  rewrite list_lookup_insert_ne by lia. reflexivity.
Qed.

Lemma first_idle_unique insts n r r' :
  first_idle insts n r -> first_idle insts n r' -> r = r'.
Proof.
  assert (Hlt : forall a b, first_idle insts n a -> first_idle insts n b -> ~ a < b).
  { intros a b [Ha1 Ha2] [Hb1 Hb2] Hab.
    destruct Ha2 as [[Hran (i & Hi & Hidle)] | ->].
    - destruct (Hb1 a ltac:(lia)) as (i' & Hi' & Hplay). congruence.
    - destruct Hb2 as [[Hran _] | ->]; lia. }
  intros H1 H2. pose proof (Hlt _ _ H1 H2). pose proof (Hlt _ _ H2 H1). lia.
Qed.

Lemma has_instances_with_instance sm index n insts instance i' :
  has_instances sm index n insts ->
  has_instances (with_instance sm index instance insts i') index n
    (<[Z.to_nat instance := i']> insts).
Proof.
  intros Hhas. pose proof (has_instances_index_bounds _ _ _ _ Hhas) as Hb.
  destruct Hhas as (Hc & Ha & Hlen). split; [exact Hc|]. split.
  - cbn. apply array_get_insert_eq. exact Hb.
  - rewrite length_insert. exact Hlen.
Qed.

Lemma has_instances_other sm index n insts instance i' index' n' insts' :
  has_instances sm index n insts ->
  index' <> index ->
  has_instances sm index' n' insts' ->
  has_instances (with_instance sm index instance insts i') index' n' insts'.
Proof.
  intros Hhas Hne (Hc & Ha & Hlen).
  pose proof (has_instances_index_bounds _ _ _ _ Hhas) as Hb.
  split; [exact Hc|]. split; [|exact Hlen].
  cbn. rewrite array_get_insert_ne by lia. exact Ha.
Qed.

Lemma has_instances_functional sm index n insts n' insts' :
  has_instances sm index n insts -> has_instances sm index n' insts' ->
  n = n' /\ insts = insts'.
Proof. intros (H1 & H2 & _) (H1' & H2' & _). split; congruence. Qed.

(** What [play] and [loop] do when the first instance that is not playing
    is [r]: it receives [Play], and the pair is recorded. *)
Lemma play_or_loop_starts looped sm index n insts r i :
  0 <= index < m_nCount sm ->
  has_instances sm index n insts ->
  0 <= r < n ->
  (forall j, 0 <= j < r -> playing_at insts j) ->
  array_get insts r = Ok i ->
  GetState i <> PLAYING ->
  getNextInstance index sm = Ok r /\
  play_or_loop looped index sm =
  Ok (r, set_last_played index r (with_instance sm index r insts (Play looped i))).
Proof.
  intros Hidx Hhas Hr Hbefore Hi Hidle.
  destruct (getNextInstance_run sm index n insts Hhas ltac:(lia)) as (r' & Hnext & Hfirst).
  assert (r' = r) as ->.
  { apply (first_idle_unique insts n); [exact Hfirst|].
    split; [exact Hbefore|]. left. split; [exact Hr|]. exists i. auto. }
  split; [exact Hnext|].
  destruct (call_instance_in_range sm index n insts r (Play looped) Hhas Hr)
    as (i' & Hi' & Hcall).
  assert (i' = i) as -> by congruence.
  assert (Hguard : (index <? 0) || (index >=? m_nCount sm) = false).
  { destruct (Z.ltb_spec index 0); [lia|].
    destruct (Z.geb_spec index (m_nCount sm)); [lia | reflexivity]. }
  pose proof Hhas as (Hc & _ & _).
  unfold play_or_loop, play, loop.
  destruct looped; rewrite Hguard, Hnext; cbn; rewrite Hc; cbn;
    destruct (Z.ltb_spec r n); try lia; rewrite Hcall; reflexivity.
Qed.

Lemma instance_at_with_instance_eq sm index n insts r i' :
  has_instances sm index n insts ->
  0 <= r < n ->
  instance_at (with_instance sm index r insts i') index r = Ok i'.
Proof.
  intros Hhas Hr. pose proof (has_instances_index_bounds _ _ _ _ Hhas) as Hb.
  destruct Hhas as (_ & _ & Hlen).
  unfold instance_at, with_instance. cbn.
  rewrite array_get_insert_eq by exact Hb. cbn.
  apply array_get_insert_eq. lia.
Qed.

Lemma instance_at_with_instance_ne sm index n insts r i' j :
  has_instances sm index n insts ->
  0 <= r ->
  j <> r ->
  instance_at (with_instance sm index r insts i') index j = instance_at sm index j.
Proof.
  intros Hhas Hr Hne. pose proof (has_instances_index_bounds _ _ _ _ Hhas) as Hb.
  rewrite (instance_at_has_instances _ _ _ _ _ Hhas).
  unfold instance_at, with_instance. cbn.
  rewrite array_get_insert_eq by exact Hb. cbn.
  apply array_get_insert_ne; lia.
Qed.

Lemma instance_at_with_instance_other sm index n insts r i' index' j :
  has_instances sm index n insts ->
  index' <> index ->
  instance_at (with_instance sm index r insts i') index' j = instance_at sm index' j.
Proof.
  intros Hhas Hne. pose proof (has_instances_index_bounds _ _ _ _ Hhas) as Hb.
  unfold instance_at, with_instance. cbn.
  rewrite array_get_insert_ne by lia. reflexivity.
Qed.

(** X1.  When instance [r] is the first of sound [index] that is not playing,
    [play] and [loop] return [r] and start exactly that instance: it is
    playing afterwards, with one more start and the loop flag of the call, its
    pitch, volume and position kept; every other instance of every sound is
    what it was. *)
Theorem play_loop_start_first_idle looped sm index n insts r i :
  0 <= index < m_nCount sm ->
  has_instances sm index n insts ->
  0 <= r < n ->
  (forall j, 0 <= j < r -> playing_at insts j) ->
  array_get insts r = Ok i ->
  GetState i <> PLAYING ->
  exists sm',
    play_or_loop looped index sm = Ok (r, sm') /\
    instance_at sm' index r =
      Ok (mkInstance PLAYING (S (inst_starts i)) looped
            (inst_pitch i) (inst_volume i) (inst_3d i)) /\
    (forall j, j <> r -> instance_at sm' index j = instance_at sm index j) /\
    (forall index' j, index' <> index ->
       instance_at sm' index' j = instance_at sm index' j) /\
    m_nInstanceCount sm' = m_nInstanceCount sm /\
    m_nCount sm' = m_nCount sm.
Proof.
  intros Hidx Hhas Hr Hbefore Hi Hidle.
  destruct (play_or_loop_starts looped sm index n insts r i Hidx Hhas Hr Hbefore Hi Hidle)
    as [_ Hrun].
  eexists. split; [exact Hrun|].
  split; [exact (instance_at_with_instance_eq sm index n insts r _ Hhas Hr)|].
  split; [|split; [|split; reflexivity]].
  - intros j Hne.
    exact (instance_at_with_instance_ne sm index n insts r _ j Hhas ltac:(lia) Hne).
  - intros index' j Hne.
    exact (instance_at_with_instance_other sm index n insts r _ index' j Hhas Hne).
Qed.

Lemma play_loop_start_first_idle_witness :
  0 <= 0 < m_nCount demo_manager /\
  has_instances demo_manager 0 2 demo_instances /\
  0 <= 1 < 2 /\
  (forall j, 0 <= j < 1 -> playing_at demo_instances j) /\
  array_get demo_instances 1 = Ok CreateInstance /\
  GetState CreateInstance <> PLAYING /\
  exists sm',
    play_or_loop true 0 demo_manager = Ok (1, sm') /\
    instance_at sm' 0 1 =
      Ok (mkInstance PLAYING 1 true (inst_pitch CreateInstance)
            (inst_volume CreateInstance) (inst_3d CreateInstance)) /\
    (forall j, j <> 1 -> instance_at sm' 0 j = instance_at demo_manager 0 j) /\
    (forall index' j, index' <> 0 ->
       instance_at sm' index' j = instance_at demo_manager index' j) /\
    m_nInstanceCount sm' = m_nInstanceCount demo_manager /\
    m_nCount sm' = m_nCount demo_manager.
Proof.
  assert (H1 : 0 <= 0 < m_nCount demo_manager) by (cbn; lia).
  assert (H2 : has_instances demo_manager 0 2 demo_instances)
    by (repeat split; reflexivity).
  assert (H3 : 0 <= 1 < 2) by lia.
  assert (H4 : forall j, 0 <= j < 1 -> playing_at demo_instances j).
  { intros j Hj. assert (j = 0) as -> by lia. eexists. split; reflexivity. }
  assert (H5 : array_get demo_instances 1 = Ok CreateInstance) by reflexivity.
  assert (H6 : GetState CreateInstance <> PLAYING) by discriminate.
  split; [exact H1|]. split; [exact H2|]. split; [exact H3|]. split; [exact H4|].
  split; [exact H5|]. split; [exact H6|].
  exact (play_loop_start_first_idle true demo_manager 0 2 demo_instances 1
           CreateInstance H1 H2 H3 H4 H5 H6).
Defined.

(** *** The invariant of the pool *)

Lemma well_formed_set_last_played a b sm :
  well_formed sm -> well_formed (set_last_played a b sm).
Proof. intros Hwf index Hidx. exact (Hwf index Hidx). Qed.

Lemma well_formed_replace sm index insts0 insts1 :
  well_formed sm ->
  array_get (m_pInstance sm) index = Ok (Some insts0) ->
  length insts1 = length insts0 ->
  well_formed (set_instances (<[Z.to_nat index := Some insts1]> (m_pInstance sm)) sm).
Proof.
  intros Hwf Ha Hlen index' Hidx'. cbn in Hidx'.
  destruct (Hwf index' Hidx') as (n & insts & (Hc & Ha' & Hl) & Hn).
  pose proof Ha as Hb. apply array_get_Ok in Hb as [H0 Hlook].
  apply lookup_lt_Some in Hlook.
  destruct (Z.eq_dec index' index) as [-> | Hne].
  - exists n, insts1. split; [|exact Hn]. split; [exact Hc|]. split.
    + cbn. apply array_get_insert_eq. lia.
    + assert (insts = insts0) as -> by congruence. lia.
  - exists n, insts. split; [|exact Hn]. split; [exact Hc|]. split; [|exact Hl].
    cbn. rewrite array_get_insert_ne by lia. exact Ha'.
Qed.

Lemma call_instance_well_formed index instance f sm sm' :
  well_formed sm ->
  call_instance index instance f sm = Ok sm' ->
  well_formed sm'.
Proof.
  intros Hwf Hcall. unfold call_instance in Hcall.
  destruct (array_get (m_pInstance sm) index) as [[insts|]|] eqn:Ha;
    cbn in Hcall; try discriminate.
  destruct (array_get insts instance) as [old|]; cbn in Hcall; [|discriminate].
  destruct (array_set insts instance (f old)) as [insts'|] eqn:Hs1;
    cbn in Hcall; [|discriminate].
  destruct (array_set (m_pInstance sm) index (Some insts')) as [a'|] eqn:Hs2;
    cbn in Hcall; [|discriminate].
  injection Hcall as <-.
  apply array_set_Ok in Hs1 as [_ ->]. apply array_set_Ok in Hs2 as [_ ->].
  apply (well_formed_replace sm index insts); [exact Hwf | exact Ha |].
  apply length_insert.
Qed.

Lemma on_target_well_formed f instance index sm sm' :
  well_formed sm ->
  on_target f instance index sm = Ok sm' ->
  well_formed sm'.
Proof.
  intros Hwf Hrun. unfold on_target in Hrun.
  destruct (0 <=? _); [|injection Hrun as <-; exact Hwf].
  destruct (array_get (m_nInstanceCount sm) _) as [n|]; cbn in Hrun; [|discriminate].
  destruct (_ <? n); [|injection Hrun as <-; exact Hwf].
  exact (call_instance_well_formed _ _ _ _ _ Hwf Hrun).
Qed.

Lemma play_or_loop_well_formed looped index sm r sm' :
  well_formed sm ->
  play_or_loop looped index sm = Ok (r, sm') ->
  well_formed sm'.
Proof.
  intros Hwf Hrun.
  assert (Hshape :
    play_or_loop looped index sm =
    if (index <? 0) || (index >=? m_nCount sm) then Ok (-1, sm)
    else
      instance ← getNextInstance index sm;
      n ← array_get (m_nInstanceCount sm) index;
      sm1 ← (if instance <? n
             then call_instance index instance (Play looped) sm else Ok sm);
      Ok (instance, set_last_played index instance sm1))
    by (destruct looped; reflexivity).
  rewrite Hshape in Hrun.
  destruct ((index <? 0) || (index >=? m_nCount sm)).
  - injection Hrun as <- <-. exact Hwf.
  - destruct (getNextInstance index sm) as [instance|]; cbn in Hrun; [|discriminate].
    destruct (array_get (m_nInstanceCount sm) index) as [n|]; cbn in Hrun; [|discriminate].
    destruct (instance <? n).
    + destruct (call_instance index instance (Play looped) sm) as [sm1|] eqn:Hcall;
        cbn in Hrun; [|discriminate].
      injection Hrun as <- <-. apply well_formed_set_last_played.
      exact (call_instance_well_formed _ _ _ _ _ Hwf Hcall).
    + cbn in Hrun. injection Hrun as <- <-.
      apply well_formed_set_last_played. exact Hwf.
Qed.

(** X2.  Every call that returns keeps the pool well formed: after [play],
    [loop], [move], [pitch] or [volume], every sound below [m_nCount] still
    has its array of at least one instance, of the length its count gives. *)
Theorem well_formed_preserved sm :
  well_formed sm ->
  (forall index r sm', play index sm = Ok (r, sm') -> well_formed sm') /\
  (forall index r sm', loop index sm = Ok (r, sm') -> well_formed sm') /\
  (forall w h ePos instance index sm',
     move w h ePos instance index sm = Ok sm' -> well_formed sm') /\
  (forall p instance index sm', pitch p instance index sm = Ok sm' -> well_formed sm') /\
  (forall v instance index sm', volume v instance index sm = Ok sm' -> well_formed sm').
Proof.
  intros Hwf. split; [|split; [|split; [|split]]].
  - intros index r sm'. exact (play_or_loop_well_formed false index sm r sm' Hwf).
  - intros index r sm'. exact (play_or_loop_well_formed true index sm r sm' Hwf).
  - intros w h ePos instance index sm'. rewrite move_on_target.
    exact (on_target_well_formed _ _ _ _ _ Hwf).
  - intros p instance index sm'. rewrite pitch_on_target.
    exact (on_target_well_formed _ _ _ _ _ Hwf).
  - intros v instance index sm'. rewrite volume_on_target.
    exact (on_target_well_formed _ _ _ _ _ Hwf).
Qed.

Lemma two_sounds_well_formed : well_formed two_sounds_manager.
Proof.
  intros index Hidx. cbn in Hidx.
  assert (Hc : index = 0 \/ index = 1) by lia.
  destruct Hc as [-> | ->].
  - exists 2, [CreateInstance; CreateInstance]. split; [repeat split; reflexivity | lia].
  - exists 1, [CreateInstance]. split; [repeat split; reflexivity | lia].
Qed.

Lemma well_formed_preserved_witness :
  well_formed two_sounds_manager /\
  (exists r sm', play 0 two_sounds_manager = Ok (r, sm') /\ well_formed sm') /\
  (exists sm', pitch (F32.of_Z 1) 0 1 two_sounds_manager = Ok sm' /\ well_formed sm').
Proof.
  split; [exact two_sounds_well_formed|]. split.
  - eexists _, _. split; [reflexivity|].
    exact (proj1 (well_formed_preserved two_sounds_manager two_sounds_well_formed)
             0 _ _ eq_refl).
  - eexists. split; [reflexivity|].
    exact (proj1 (proj2 (proj2 (proj2
             (well_formed_preserved two_sounds_manager two_sounds_well_formed))))
             (F32.of_Z 1) 0 1 _ eq_refl).
Defined.

(** *** Plays in a row *)

Lemma getNextInstance_first sm index n insts :
  has_instances sm index n insts ->
  1 <= n ->
  idle_at insts 0 ->
  getNextInstance index sm = Ok 0.
Proof.
  intros Hhas Hn Hidle.
  destruct (getNextInstance_run sm index n insts Hhas Hn) as (r & Hr & Hfirst).
  rewrite Hr. f_equal. apply (first_idle_unique insts n); [exact Hfirst|].
  split; [intros j Hj; lia|]. left. split; [lia | exact Hidle].
Qed.

Lemma playing_at_insert_eq insts j i looped :
  0 <= j < Z.of_nat (length insts) ->
  playing_at (<[Z.to_nat j := Play looped i]> insts) j.
Proof.
  intros Hj. exists (Play looped i). split; [|reflexivity].
  apply array_get_insert_eq. exact Hj.
Qed.

Lemma playing_at_insert_ne insts j a x :
  0 <= j -> a <> j -> playing_at insts a -> playing_at (<[Z.to_nat j := x]> insts) a.
Proof.
  intros Hj Hne (i & Hi & Hs). exists i. split; [|exact Hs].
  rewrite array_get_insert_ne by lia. exact Hi.
Qed.

Lemma idle_at_insert_ne insts j a x :
  0 <= j -> a <> j -> idle_at insts a -> idle_at (<[Z.to_nat j := x]> insts) a.
Proof.
  intros Hj Hne (i & Hi & Hs). exists i. split; [|exact Hs].
  rewrite array_get_insert_ne by lia. exact Hi.
Qed.

(** With the first [j] instances playing and the others not, [k] plays
    return [j], [j + 1], ... up to [n - 1], and [n] from then on. *)
Lemma play_times_from k index n :
  forall j sm insts,
    0 <= index < m_nCount sm ->
    has_instances sm index n insts ->
    1 <= n ->
    0 <= j <= n ->
    (forall a, 0 <= a < j -> playing_at insts a) ->
    (forall a, j <= a < n -> idle_at insts a) ->
    exists sm',
      play_times k index sm =
      Ok (map (fun a => Z.min (j + Z.of_nat a) n) (seq 0 k), sm').
Proof.
  induction k as [|k IH]; intros j sm insts Hidx Hhas Hn Hj Hplay Hidle.
  - exists sm. reflexivity.
  - cbn [play_times]. rewrite <- cons_seq, <- seq_shift, map_cons, map_map.
    destruct (Z.eq_dec j n) as [-> | Hlt].
    + (* every instance is busy: the call returns [n] and starts nothing *)
      pose proof (play_or_loop_all_playing false sm index n insts Hidx Hhas Hn Hplay) as Hrun.
      cbn in Hrun. rewrite Hrun. cbn.
      destruct (IH n (set_last_played index n sm) insts Hidx Hhas Hn Hj Hplay Hidle)
        as (sm' & Hrest).
      rewrite Hrest. cbn. exists sm'. f_equal. f_equal.
      rewrite Z.add_0_r, Z.min_id. f_equal.
      apply map_ext. intros a. lia.
    + (* instance [j] is the first idle one: it is started *)
      destruct (Hidle j ltac:(lia)) as (i & Hi & Hs).
      destruct (play_or_loop_starts false sm index n insts j i Hidx Hhas
                  ltac:(lia) Hplay Hi Hs) as [_ Hrun].
      cbn in Hrun. rewrite Hrun. cbn.
      pose proof Hhas as (_ & _ & Hlen).
      destruct (IH (j + 1) (set_last_played index j
                              (with_instance sm index j insts (Play false i)))
                  (<[Z.to_nat j := Play false i]> insts)) as (sm' & Hrest).
      * exact Hidx.
      * exact (has_instances_with_instance sm index n insts j _ Hhas).
      * exact Hn.
      * lia.
      * intros a Ha. destruct (Z.eq_dec a j) as [-> | Hne].
        -- apply playing_at_insert_eq. lia.
        -- apply playing_at_insert_ne; [lia | exact Hne | apply Hplay; lia].
      * intros a Ha. apply idle_at_insert_ne; [lia | lia | apply Hidle; lia].
      * rewrite Hrest. cbn. exists sm'. f_equal. f_equal.
        rewrite Z.add_0_r, Z.min_l by lia. f_equal.
        apply map_ext. intros a. lia.
Qed.

(** X3.  On a sound whose [n] instances are all idle, [k] calls of [play] in
    a row return 0, 1, ..., [n - 1] and then [n] for every further call: the
    instances are handed out in order and the calls beyond the [n]-th are
    dropped. *)
Theorem play_times_round_robin k sm index n insts :
  0 <= index < m_nCount sm ->
  has_instances sm index n insts ->
  1 <= n ->
  (forall a, 0 <= a < n -> idle_at insts a) ->
  exists sm',
    play_times k index sm =
    Ok (map (fun a => Z.min (Z.of_nat a) n) (seq 0 k), sm').
Proof.
  intros Hidx Hhas Hn Hidle.
  destruct (play_times_from k index n 0 sm insts Hidx Hhas Hn ltac:(lia))
    as (sm' & Hrun).
  - intros a Ha. lia.
  - intros a Ha. apply Hidle. lia.
  - exists sm'. rewrite Hrun. reflexivity.
Qed.

Lemma play_times_round_robin_witness :
  0 <= 0 < m_nCount two_sounds_manager /\
  has_instances two_sounds_manager 0 2 [CreateInstance; CreateInstance] /\
  1 <= 2 /\
  (forall a, 0 <= a < 2 -> idle_at [CreateInstance; CreateInstance] a) /\
  exists sm', play_times 4 0 two_sounds_manager = Ok ([0; 1; 2; 2], sm').
Proof.
  assert (H1 : 0 <= 0 < m_nCount two_sounds_manager) by (cbn; lia).
  assert (H2 : has_instances two_sounds_manager 0 2 [CreateInstance; CreateInstance])
    by (repeat split; reflexivity).
  assert (H3 : 1 <= 2) by lia.
  assert (H4 : forall a, 0 <= a < 2 -> idle_at [CreateInstance; CreateInstance] a).
  { intros a Ha. assert (Hc : a = 0 \/ a = 1) by lia.
    destruct Hc as [-> | ->]; eexists; (split; [reflexivity | discriminate]). }
  split; [exact H1|]. split; [exact H2|]. split; [exact H3|]. split; [exact H4|].
  exact (play_times_round_robin 4 two_sounds_manager 0 2 _ H1 H2 H3 H4).
Defined.

(** *** Creating the instances *)

(** X4.  [createInstances(index, n)], when it returns, has given sound
    [index] exactly [n] stopped instances and left every other sound alone.
    With [n >= 1] the next instance handed out is 0; with [n = 0] the sound has
    no instance 0 to look at, and [getNextInstance] reads outside its array. *)
Theorem createInstances_fresh sm index n sm' :
  createInstances index n sm = Ok sm' ->
  0 <= n /\
  has_instances sm' index n (replicate (Z.to_nat n) CreateInstance) /\
  (1 <= n -> getNextInstance index sm' = Ok 0) /\
  (n = 0 -> getNextInstance index sm' = Fail UB) /\
  (forall index', index' <> index ->
     array_get (m_nInstanceCount sm') index' = array_get (m_nInstanceCount sm) index' /\
     array_get (m_pInstance sm') index' = array_get (m_pInstance sm) index').
Proof.
  intros Hrun. apply createInstances_Ok in Hrun as (Hn & Hc & Ha & ->).
  assert (Hhas : has_instances
            (set_instances
               (<[Z.to_nat index := Some (replicate (Z.to_nat n) CreateInstance)]>
                  (m_pInstance sm))
               (set_instance_counts (<[Z.to_nat index := n]> (m_nInstanceCount sm)) sm))
            index n (replicate (Z.to_nat n) CreateInstance)).
  { split; [|split].
    - cbn. apply array_get_insert_eq. exact Hc.
    - cbn. apply array_get_insert_eq. exact Ha.
    - rewrite length_replicate. lia. }
  split; [exact Hn|]. split; [exact Hhas|]. split; [|split].
  - intros H1. apply (getNextInstance_first _ _ _ _ Hhas H1).
    exists CreateInstance. split; [|discriminate].
    apply array_get_Ok. split; [lia|]. apply lookup_replicate_2. lia.
  - intros ->. unfold getNextInstance, instance_at. cbn.
    rewrite (array_get_insert_eq (m_pInstance sm)) by exact Ha. reflexivity.
  - intros index' Hne. cbn. split; apply array_get_insert_ne; lia.
Qed.

Lemma createInstances_fresh_witness :
  createInstances 1 3 two_sounds_manager =
    Ok (set_instances
          [Some [CreateInstance; CreateInstance];
           Some [CreateInstance; CreateInstance; CreateInstance]]
          (set_instance_counts [2; 3] two_sounds_manager)) /\
  exists sm',
    createInstances 1 3 two_sounds_manager = Ok sm' /\
    has_instances sm' 1 3 (replicate 3 CreateInstance) /\
    getNextInstance 1 sm' = Ok 0.
Proof.
  assert (H1 : createInstances 1 3 two_sounds_manager =
    Ok (set_instances
          [Some [CreateInstance; CreateInstance];
           Some [CreateInstance; CreateInstance; CreateInstance]]
          (set_instance_counts [2; 3] two_sounds_manager))) by reflexivity.
  split; [exact H1|]. eexists. split; [exact H1|].
  destruct (createInstances_fresh two_sounds_manager 1 3 _ H1) as (_ & Hhas & Hnext & _).
  split; [exact Hhas | apply Hnext; lia].
Defined.

(** *** Loading the sounds *)

Lemma Load_sounds_fresh (all : list Xml.XMLElement) sounds :
  forall k sm sm',
    drop k all = sounds ->
    freshly_loaded
      (fun i => match all !! i with Some s => wanted_instances s | None => 1 end) k sm ->
    Z.of_nat (k + length sounds) <= Int.INT_MAX ->
    Load_sounds sounds sm = Ok sm' ->
    freshly_loaded
      (fun i => match all !! i with Some s => wanted_instances s | None => 1 end)
      (k + length sounds) sm' /\
    m_nLastPlayedSound sm' = m_nLastPlayedSound sm /\
    m_nLastPlayedInstance sm' = m_nLastPlayedInstance sm.
Proof.
  induction sounds as [|s rest IH]; intros k sm sm' Hdrop Hinv Hmax Hrun.
  - cbn in Hrun. injection Hrun as <-. rewrite Nat.add_0_r. auto.
  - assert (Hk : all !! k = Some s).
    { rewrite <- (Nat.add_0_r k), <- lookup_drop, Hdrop. reflexivity. }
    assert (Hrest : drop (S k) all = rest).
    { rewrite (drop_S all s k Hk) in Hdrop. congruence. }
    cbn [Load_sounds] in Hrun.
    destruct (strncpy_s 64 (Xml.Attribute "file" s)) as [buffer|]; [|discriminate].
    cbn in Hrun. fold (wanted_instances s) in Hrun.
    assert (Hn0 : wanted_instances s <> 0).
    { unfold wanted_instances.
      destruct (Z.eqb_spec (Xml.IntAttribute "instances" s) 0); lia. }
    destruct Hinv as (Hcount & Heff & Hsounds).
    match type of Hrun with
    | context [createInstances ?i ?n ?sm1] =>
        destruct (createInstances i n sm1) as [sm2|] eqn:Hcreate; [|discriminate];
        apply createInstances_Ok in Hcreate as (Hn & Hk1 & Hk2 & ->)
    end.
    cbn in Hrun, Hk1, Hk2.
    rewrite length_app, Heff in Hrun, Hk1, Hk2. cbn [length] in Hrun, Hk1, Hk2.
    replace (Z.of_nat (k + 1) - 1) with (Z.of_nat k) in Hrun, Hk1, Hk2 by lia.
    rewrite Nat2Z.id in Hrun.
    replace (k + length (s :: rest))%nat with (S k + length rest)%nat by (cbn; lia).
    cbn [length] in Hmax.
    refine (IH (S k) _ sm' Hrest _ ltac:(lia) Hrun).
    split; [|split]; cbn.
    + rewrite Hcount. unfold Int.add. rewrite Int_wrap_small; [lia|].
      unfold Int.in_range, Int.INT_MIN. lia.
    + rewrite length_app, Heff. cbn. lia.
    + intros i Hi. destruct (Nat.eq_dec i k) as [-> | Hne].
      * rewrite Hk, !list_lookup_insert_eq by lia. split; [lia|]. split; reflexivity.
      * destruct (Hsounds i ltac:(lia)) as (H1 & H2 & H3).
        rewrite !list_lookup_insert_ne by lia. auto.
Qed.

(** X5.  [Load()] on a newly constructed manager, when it returns, has
    counted one sound per [<sound>] element and given each as many stopped
    instances as its [instances] attribute says, one when the attribute is 0
    or missing, never fewer than one; the first instance handed out for each
    is 0, and the last-played pair is still what the constructor left. *)
Theorem Load_builds_pool settings snd s0 i0 sm :
  Xml.FirstChildElement "sounds" settings = Some snd ->
  Z.of_nat (length (Xml.ChildElements "sound" snd)) <= Int.INT_MAX ->
  Load (Some settings) (constructor s0 i0) = Ok sm ->
  m_nCount sm = Z.of_nat (length (Xml.ChildElements "sound" snd)) /\
  m_nLastPlayedSound sm = s0 /\
  m_nLastPlayedInstance sm = i0 /\
  forall index s,
    0 <= index ->
    Xml.ChildElements "sound" snd !! Z.to_nat index = Some s ->
    1 <= wanted_instances s /\
    has_instances sm index (wanted_instances s)
      (replicate (Z.to_nat (wanted_instances s)) CreateInstance) /\
    getNextInstance index sm = Ok 0.
Proof.
  intros Hsnd Hmax Hload. unfold Load in Hload. rewrite Hsnd in Hload.
  apply (Load_sounds_fresh (Xml.ChildElements "sound" snd) _ 0%nat) in Hload;
    [|reflexivity| |exact Hmax].
  - destruct Hload as ((Hcount & _ & Hsounds) & Hs & Hi). cbn in Hcount, Hs, Hi.
    split; [exact Hcount|]. split; [exact Hs|]. split; [exact Hi|].
    intros index s Hidx Hlook.
    destruct (Hsounds (Z.to_nat index)) as (H1 & H2 & H3).
    { cbn. apply lookup_lt_Some in Hlook. exact Hlook. }
    rewrite Hlook in H1, H2, H3.
    assert (Hhas : has_instances sm index (wanted_instances s)
                     (replicate (Z.to_nat (wanted_instances s)) CreateInstance)).
    { split; [|split].
      - apply array_get_Ok. split; [lia | exact H2].
      - apply array_get_Ok. split; [lia | exact H3].
      - rewrite length_replicate. lia. }
    split; [exact H1|]. split; [exact Hhas|].
    apply (getNextInstance_first _ _ _ _ Hhas H1).
    exists CreateInstance. split; [|discriminate].
    apply array_get_Ok. split; [lia|]. apply lookup_replicate_2. lia.
  - split; [reflexivity|]. split; [reflexivity|]. intros i Hi. lia.
Qed.

Lemma Load_builds_pool_witness :
  Load (Some two_sounds) (constructor 7 0) = Ok two_sounds_manager /\
  m_nCount two_sounds_manager = 2 /\
  m_nLastPlayedSound two_sounds_manager = 7 /\
  (1 <= 1 /\
   has_instances two_sounds_manager 1 1 [CreateInstance] /\
   getNextInstance 1 two_sounds_manager = Ok 0).
Proof.
  assert (H1 : Xml.FirstChildElement "sounds" two_sounds =
               Some (Xml.XMLNode "sounds" []
                 [Xml.XMLNode "sound" [("file", "ball.wav"); ("instances", "2")]%string [];
                  Xml.XMLNode "sound" [("file", "bell.wav")]%string []])) by reflexivity.
  assert (H2 : Z.of_nat (length (Xml.ChildElements "sound"
                 (Xml.XMLNode "sounds" []
                   [Xml.XMLNode "sound" [("file", "ball.wav"); ("instances", "2")]%string [];
                    Xml.XMLNode "sound" [("file", "bell.wav")]%string []])))
               <= Int.INT_MAX) by (vm_compute; discriminate).
  assert (H3 : Load (Some two_sounds) (constructor 7 0) = Ok two_sounds_manager)
    by reflexivity.
  destruct (Load_builds_pool two_sounds _ 7 0 two_sounds_manager H1 H2 H3)
    as (Hc & Hs & _ & Hall).
  split; [exact H3|]. split; [exact Hc|]. split; [exact Hs|].
  exact (Hall 1 (Xml.XMLNode "sound" [("file", "bell.wav")]%string [])
           ltac:(lia) eq_refl).
Defined.

(** *** Adjusting an instance *)

Lemma getNextInstance_while_ext sm sm' index n :
  (forall j, GetState <$> instance_at sm index j = GetState <$> instance_at sm' index j) ->
  forall instance soundState,
    getNextInstance_while sm index n instance soundState =
    getNextInstance_while sm' index n instance soundState.
Proof.
  intros Hext instance soundState.
  funelim (getNextInstance_while sm index n instance soundState).
  - simp getNextInstance_while. rewrite Heq. reflexivity.
  - simp getNextInstance_while. rewrite Heq. reflexivity.
  - simp getNextInstance_while. rewrite Heq. reflexivity.
  - rewrite (H sm' Hext). symmetry.
    rewrite (getNextInstance_while_equation_1 sm' index n instance PLAYING).
    rewrite Heq0. cbn. rewrite <- (Hext (instance + 1)), Heq. reflexivity.
  - rewrite (getNextInstance_while_equation_1 sm' index n instance PLAYING).
    rewrite Heq0. cbn. rewrite <- (Hext (instance + 1)), Heq. reflexivity.
Qed.

Lemma getNextInstance_ext sm sm' index :
  m_nInstanceCount sm' = m_nInstanceCount sm ->
  (forall j, GetState <$> instance_at sm index j = GetState <$> instance_at sm' index j) ->
  getNextInstance index sm' = getNextInstance index sm.
Proof.
  intros Hc Hext. unfold getNextInstance. rewrite Hc, <- (Hext 0).
  destruct (GetState <$> instance_at sm index 0) as [st|]; [|reflexivity]. cbn.
  destruct (array_get (m_nInstanceCount sm) index) as [n|]; [|reflexivity]. cbn.
  symmetry. apply getNextInstance_while_ext. exact Hext.
Qed.

Lemma call_instance_states index instance f sm sm' :
  (forall x, GetState (f x) = GetState x) ->
  call_instance index instance f sm = Ok sm' ->
  m_nInstanceCount sm' = m_nInstanceCount sm /\
  m_nCount sm' = m_nCount sm /\
  m_nLastPlayedSound sm' = m_nLastPlayedSound sm /\
  m_nLastPlayedInstance sm' = m_nLastPlayedInstance sm /\
  forall index' j,
    GetState <$> instance_at sm index' j = GetState <$> instance_at sm' index' j.
Proof.
  intros Hf Hcall. unfold call_instance in Hcall.
  destruct (array_get (m_pInstance sm) index) as [[insts|]|] eqn:Ha;
    cbn in Hcall; try discriminate.
  destruct (array_get insts instance) as [old|] eqn:Hold; cbn in Hcall; [|discriminate].
  destruct (array_set insts instance (f old)) as [insts'|] eqn:Hs1;
    cbn in Hcall; [|discriminate].
  destruct (array_set (m_pInstance sm) index (Some insts')) as [a'|] eqn:Hs2;
    cbn in Hcall; [|discriminate].
  injection Hcall as <-.
  apply array_set_Ok in Hs1 as [Hr1 ->]. apply array_set_Ok in Hs2 as [Hr2 ->].
  repeat (split; [reflexivity|]).
  intros index' j. unfold instance_at. cbn.
  destruct (Z.eq_dec index' index) as [-> | Hne].
  - rewrite array_get_insert_eq by exact Hr2. rewrite Ha. cbn.
    destruct (Z.eq_dec j instance) as [-> | Hnej].
    + rewrite array_get_insert_eq by exact Hr1. rewrite Hold. cbn. rewrite Hf. reflexivity.
    + rewrite array_get_insert_ne by lia. reflexivity.
  - rewrite array_get_insert_ne by lia. reflexivity.
Qed.

Lemma on_target_allocation f instance index sm sm' :
  (forall x, GetState (f x) = GetState x) ->
  on_target f instance index sm = Ok sm' ->
  m_nCount sm' = m_nCount sm /\
  m_nLastPlayedSound sm' = m_nLastPlayedSound sm /\
  m_nLastPlayedInstance sm' = m_nLastPlayedInstance sm /\
  forall index', getNextInstance index' sm' = getNextInstance index' sm.
Proof.
  intros Hf Hrun.
  assert (Hcases : sm' = sm \/
            exists a b, call_instance a b f sm = Ok sm').
  { unfold on_target in Hrun.
    destruct (0 <=? _); [|left; congruence].
    destruct (array_get (m_nInstanceCount sm) _) as [n|]; cbn in Hrun; [|discriminate].
    destruct (_ <? n); [|left; congruence].
    right. eauto. }
  destruct Hcases as [-> | (a & b & Hcall)]; [repeat split; reflexivity|].
  destruct (call_instance_states a b f sm sm' Hf Hcall) as (Hc & Hn & Hs & Hi & Hst).
  repeat (split; [assumption|]).
  intros index'. apply getNextInstance_ext; [exact Hc | intros j; apply Hst].
Qed.

(** X6.  [move], [pitch] and [volume] never change which instance is handed
    out next: whenever one of them returns, [getNextInstance] gives for every
    sound what it gave before, and the count and the last-played pair are the
    same. *)
Theorem adjusting_keeps_allocation sm :
  (forall w h ePos instance index sm',
     move w h ePos instance index sm = Ok sm' ->
     m_nCount sm' = m_nCount sm /\
     m_nLastPlayedSound sm' = m_nLastPlayedSound sm /\
     m_nLastPlayedInstance sm' = m_nLastPlayedInstance sm /\
     forall index', getNextInstance index' sm' = getNextInstance index' sm) /\
  (forall p instance index sm',
     pitch p instance index sm = Ok sm' ->
     m_nCount sm' = m_nCount sm /\
     m_nLastPlayedSound sm' = m_nLastPlayedSound sm /\
     m_nLastPlayedInstance sm' = m_nLastPlayedInstance sm /\
     forall index', getNextInstance index' sm' = getNextInstance index' sm) /\
  (forall v instance index sm',
     volume v instance index sm = Ok sm' ->
     m_nCount sm' = m_nCount sm /\
     m_nLastPlayedSound sm' = m_nLastPlayedSound sm /\
     m_nLastPlayedInstance sm' = m_nLastPlayedInstance sm /\
     forall index', getNextInstance index' sm' = getNextInstance index' sm).
Proof.
  split; [|split].
  - intros w h ePos instance index sm'. rewrite move_on_target.
    apply on_target_allocation. reflexivity.
  - intros p instance index sm'. rewrite pitch_on_target.
    apply on_target_allocation. reflexivity.
  - intros v instance index sm'. rewrite volume_on_target.
    apply on_target_allocation. reflexivity.
Qed.

Lemma adjusting_keeps_allocation_witness :
  exists sm',
    pitch (F32.of_Z 2) 1 0 demo_manager = Ok sm' /\
    instance_at sm' 0 1 = Ok (SetPitch (F32.of_Z 2) CreateInstance) /\
    m_nCount sm' = m_nCount demo_manager /\
    m_nLastPlayedSound sm' = m_nLastPlayedSound demo_manager /\
    m_nLastPlayedInstance sm' = m_nLastPlayedInstance demo_manager /\
    forall index', getNextInstance index' sm' = getNextInstance index' demo_manager.
Proof.
  eexists. split; [reflexivity|]. split; [reflexivity|].
  exact (proj1 (proj2 (adjusting_keeps_allocation demo_manager))
           (F32.of_Z 2) 1 0 _ eq_refl).
Defined.

(** X7.  A call of [move], [pitch] or [volume] on an instance of an existing
    sound sets that one parameter of that one instance: its state, its start
    count and its other parameters stay, and so does every other instance. *)
Theorem move_pitch_volume_set_one_parameter sm instance index n insts i :
  has_instances sm (target_index index sm) n insts ->
  0 <= target_instance instance sm < n ->
  array_get insts (target_instance instance sm) = Ok i ->
  (forall p,
     pitch p instance index sm =
     Ok (with_instance sm (target_index index sm) (target_instance instance sm) insts
           (mkInstance (inst_state i) (inst_starts i) (inst_looped i)
              p (inst_volume i) (inst_3d i)))) /\
  (forall v,
     volume v instance index sm =
     Ok (with_instance sm (target_index index sm) (target_instance instance sm) insts
           (mkInstance (inst_state i) (inst_starts i) (inst_looped i)
              (inst_pitch i) v (inst_3d i)))) /\
  (forall w h ePos,
     exists listener,
       move w h ePos instance index sm =
       Ok (with_instance sm (target_index index sm) (target_instance instance sm) insts
             (mkInstance (inst_state i) (inst_starts i) (inst_looped i)
                (inst_pitch i) (inst_volume i)
                (Some (listener, mkScaled ePos (F32.of_Z 500)))))) /\
  (forall i' j index',
     (index' <> target_index index sm \/ j <> target_instance instance sm) ->
     instance_at (with_instance sm (target_index index sm)
                    (target_instance instance sm) insts i') index' j
     = instance_at sm index' j).
Proof.
  intros Hhas Hr Hi.
  assert (Hrun : forall f,
            on_target f instance index sm =
            Ok (with_instance sm (target_index index sm)
                  (target_instance instance sm) insts (f i))).
  { intros f. unfold on_target. fold (target_index index sm).
    fold (target_instance instance sm).
    destruct (Z.leb_spec 0 (target_instance instance sm)); [|lia].
    pose proof Hhas as (Hc & _ & _). rewrite Hc. cbn.
    destruct (Z.ltb_spec (target_instance instance sm) n); [|lia].
    destruct (call_instance_in_range sm _ n insts _ f Hhas Hr) as (i' & Hi' & Hcall).
    rewrite Hcall. unfold with_instance. congruence. }
  split; [|split; [|split]].
  - intros p. rewrite pitch_on_target. apply Hrun.
  - intros v. rewrite volume_on_target. apply Hrun.
  - intros w h ePos.
    exists (mkScaled (mkVector3 (F32.div (F32.of_Z w) (F32.of_Z 2))
                                (F32.div (F32.of_Z h) (F32.of_Z 2)) (F32.of_Z 0))
                     (F32.of_Z 500)).
    rewrite move_on_target. exact (Hrun _).
  - intros i' j index' [Hne | Hne].
    + exact (instance_at_with_instance_other sm _ n insts _ i' index' j Hhas Hne).
    + destruct (Z.eq_dec index' (target_index index sm)) as [-> | Hne'].
      * exact (instance_at_with_instance_ne sm _ n insts _ i' j Hhas (proj1 Hr) Hne).
      * exact (instance_at_with_instance_other sm _ n insts _ i' index' j Hhas Hne').
Qed.

Lemma move_pitch_volume_set_one_parameter_witness :
  has_instances demo_manager (target_index (-1) demo_manager) 2 demo_instances /\
  0 <= target_instance 1 demo_manager < 2 /\
  array_get demo_instances (target_instance 1 demo_manager) = Ok CreateInstance /\
  volume (F32.of_Z 3) 1 (-1) demo_manager =
  Ok (with_instance demo_manager 0 1 demo_instances
        (mkInstance STOPPED 0 false (F32.of_Z 0) (F32.of_Z 3) None)).
Proof.
  assert (H1 : has_instances demo_manager (target_index (-1) demo_manager) 2 demo_instances)
    by (repeat split; reflexivity).
  assert (H2 : 0 <= target_instance 1 demo_manager < 2) by (cbn; lia).
  assert (H3 : array_get demo_instances (target_instance 1 demo_manager) = Ok CreateInstance)
    by reflexivity.
  split; [exact H1|]. split; [exact H2|]. split; [exact H3|].
  exact (proj1 (proj2 (move_pitch_volume_set_one_parameter demo_manager 1 (-1) 2
                         demo_instances CreateInstance H1 H2 H3)) (F32.of_Z 3)).
Defined.

(** X8.  [move], [pitch] and [volume] leave the manager as it is when the
    target instance is negative, and when the target sound exists and the
    target instance is not below its count. *)
Theorem move_pitch_volume_ignore_instance sm instance index :
  target_instance instance sm < 0 \/
  (exists n, array_get (m_nInstanceCount sm) (target_index index sm) = Ok n /\
             n <= target_instance instance sm) ->
  (forall w h ePos, move w h ePos instance index sm = Ok sm) /\
  (forall p, pitch p instance index sm = Ok sm) /\
  (forall v, volume v instance index sm = Ok sm).
Proof.
  intros Hout.
  assert (Hrun : forall f, on_target f instance index sm = Ok sm)
    by (intros f; apply on_target_ignored; exact Hout).
  split; [|split].
  - intros w h ePos. rewrite move_on_target. apply Hrun.
  - intros p. rewrite pitch_on_target. apply Hrun.
  - intros v. rewrite volume_on_target. apply Hrun.
Qed.

Lemma move_pitch_volume_ignore_instance_witness :
  (target_instance (-5) demo_manager < 0 /\
   pitch (F32.of_Z 1) (-5) 7 demo_manager = Ok demo_manager) /\
  ((exists n, array_get (m_nInstanceCount demo_manager) (target_index 0 demo_manager) = Ok n /\
              n <= target_instance 2 demo_manager) /\
   volume (F32.of_Z 1) 2 0 demo_manager = Ok demo_manager).
Proof.
  assert (H1 : target_instance (-5) demo_manager < 0) by (cbn; lia).
  assert (H2 : exists n,
             array_get (m_nInstanceCount demo_manager) (target_index 0 demo_manager) = Ok n /\
             n <= target_instance 2 demo_manager)
    by (exists 2; split; [reflexivity | cbn; lia]).
  split.
  - split; [exact H1|].
    exact (proj1 (proj2 (move_pitch_volume_ignore_instance demo_manager (-5) 7
                           (or_introl H1))) (F32.of_Z 1)).
  - split; [exact H2|].
    exact (proj2 (proj2 (move_pitch_volume_ignore_instance demo_manager 2 0
                           (or_intror H2))) (F32.of_Z 1)).
Defined.

End SoundRunsFacts.

(** ** Timer: frames, single steps, the level timer *)

Section TimerRunsFacts.

Import Timer TimerRuns.

Lemma wrap_plain z : plain z -> Int.wrap z = z.
Proof.
  intros Hz. apply Int_wrap_small. unfold plain in Hz.
  unfold Int.in_range, Int.INT_MIN, Int.INT_MAX. lia.
Qed.

Lemma sub_plain a b : plain a -> plain b -> Int.sub a b = a - b.
Proof.
  intros Ha Hb. apply Int_wrap_small. unfold plain in *.
  unfold Int.in_range, Int.INT_MIN, Int.INT_MAX. lia.
Qed.

Lemma wrap_congruent x y :
  x mod 2 ^ 32 = y mod 2 ^ 32 -> Int.wrap x = Int.wrap y.
Proof.
  intros Hxy. unfold Int.wrap. f_equal.
  rewrite (Z.add_mod x), (Z.add_mod y), Hxy by lia. reflexivity.
Qed.

Lemma wrap_mod z : (Int.wrap z) mod 2 ^ 32 = z mod 2 ^ 32.
Proof.
  unfold Int.wrap. rewrite (Z.mod_eq (z + 2 ^ 31)) by lia.
  replace (z + 2 ^ 31 - 2 ^ 32 * ((z + 2 ^ 31) / 2 ^ 32) - 2 ^ 31)
    with (z + (- ((z + 2 ^ 31) / 2 ^ 32)) * 2 ^ 32) by lia.
  apply Z_mod_plus_full.
Qed.

(** *** Frames outside step mode *)

Lemma frame_not_step now t :
  m_bStepMode t = false ->
  plain now -> plain (m_nStartTime t) -> plain (m_nLastFrameStartTime t) ->
  frame now t =
  ((now - m_nStartTime t, now - m_nLastFrameStartTime t),
   mkTimer (m_nStartTime t) (now - m_nStartTime t) now 0
     (m_nLevelStartTime t) (m_nLevelFinishTime t) (m_bLevelTimerOn t) false).
Proof.
  intros Hs Hnow Hstart Hlast. unfold frame, beginframe, endframe, time, frametime.
  cbn. rewrite Hs. cbn. unfold timeGetTime_int.
  rewrite (wrap_plain _ Hnow), !sub_plain by assumption. reflexivity.
Qed.

(** X9.  Outside step mode, over any run of frames whose clock samples fit an
    [int]: each frame reads as its time the sample minus the start time, and
    as its frame time the sample minus the sample of the frame before (for the
    first frame, minus the last-frame start the timer held); after the last
    [endframe] the frame time is 0. *)
Theorem frames_measure_differences samples t seen tn :
  m_bStepMode t = false ->
  Forall plain samples ->
  plain (m_nStartTime t) ->
  plain (m_nLastFrameStartTime t) ->
  frames samples t = (seen, tn) ->
  length seen = length samples /\
  (samples <> [] -> frametime tn = 0) /\
  forall k now tm ft,
    samples !! k = Some now ->
    seen !! k = Some (tm, ft) ->
    exists prev,
      (m_nLastFrameStartTime t :: samples) !! k = Some prev /\
      tm = now - m_nStartTime t /\
      ft = now - prev.
Proof.
  revert t seen tn.
  induction samples as [|now rest IH]; intros t seen tn Hs Hall Hstart Hlast Hrun.
  - cbn in Hrun. injection Hrun as <- <-. split; [reflexivity|].
    split; [congruence|]. intros k now tm ft Hk. rewrite lookup_nil in Hk. discriminate.
  - apply Forall_cons in Hall as [Hnow Hrest].
    cbn [frames] in Hrun. rewrite (frame_not_step now t Hs Hnow Hstart Hlast) in Hrun.
    match type of Hrun with
    | context [frames rest ?t1] =>
        destruct (frames rest t1) as [more tn'] eqn:Hmore;
        destruct (IH t1 more tn' eq_refl Hrest Hstart Hnow Hmore) as (Hlen & Hzero & Hk)
    end.
    injection Hrun as <- <-. split; [cbn; lia|]. split.
    + intros _. destruct rest as [|now' rest'].
      * cbn in Hmore. injection Hmore as <- <-. reflexivity.
      * apply Hzero. discriminate.
    + intros [|k] now0 tm ft Hlook Hseen; cbn in Hlook, Hseen.
      * injection Hlook as <-. injection Hseen as <- <-.
        exists (m_nLastFrameStartTime t). auto.
      * destruct (Hk k now0 tm ft Hlook Hseen) as (prev & Hprev & Htm & Hft).
        exists prev. cbn in Hprev, Htm. auto.
Qed.

Lemma frames_measure_differences_witness :
  m_bStepMode (start 4000 (constructor 0)) = false /\
  Forall plain [5000; 5016; 5050] /\
  plain (m_nStartTime (start 4000 (constructor 0))) /\
  plain (m_nLastFrameStartTime (start 4000 (constructor 0))) /\
  fst (frames [5000; 5016; 5050] (start 4000 (constructor 0)))
    = [(1000, 5000); (1016, 16); (1050, 34)] /\
  exists prev,
    (m_nLastFrameStartTime (start 4000 (constructor 0)) :: [5000; 5016; 5050]) !! 2%nat
      = Some prev /\
    1050 = 5050 - m_nStartTime (start 4000 (constructor 0)) /\
    34 = 5050 - prev.
Proof.
  assert (P : forall z, 0 <= z < 2147483648 -> plain z) by (intros z Hz; exact Hz).
  assert (H1 : m_bStepMode (start 4000 (constructor 0)) = false) by reflexivity.
  assert (H2 : Forall plain [5000; 5016; 5050]) by (repeat constructor; apply P; lia).
  assert (H3 : plain (m_nStartTime (start 4000 (constructor 0))))
    by (apply P; vm_compute; split; [discriminate | reflexivity]).
  assert (H4 : plain (m_nLastFrameStartTime (start 4000 (constructor 0))))
    by (apply P; vm_compute; split; [discriminate | reflexivity]).
  split; [exact H1|]. split; [exact H2|]. split; [exact H3|]. split; [exact H4|].
  split; [reflexivity|].
  destruct (frames_measure_differences [5000; 5016; 5050] (start 4000 (constructor 0))
              _ _ H1 H2 H3 H4 eq_refl) as (_ & _ & Hk).
  exact (Hk 2%nat 5050 1050 34 eq_refl eq_refl).
Defined.

(** *** Single steps *)

Lemma frame_step_mode now t :
  m_bStepMode t = true ->
  snd (fst (frame now t)) = frametime t /\
  frametime (snd (frame now t)) = 0 /\
  m_bStepMode (snd (frame now t)) = true /\
  m_nLastFrameStartTime (snd (frame now t)) = Int.wrap now /\
  m_nStartTime (snd (frame now t)) = m_nStartTime t.
Proof.
  intros Hs. unfold frame, beginframe, endframe, frametime. cbn. rewrite Hs.
  repeat split; reflexivity.
Qed.

(** X10.  In step mode the clock has no say in the frame time: in any run of
    frames and requested steps, a frame reads 34 when [IncrementFrame] was
    called since the frame before it, and 0 otherwise, and the timer stays in
    step mode. *)
Theorem step_run_frame_times events :
  forall (t : CTimer) (pending : bool),
    m_bStepMode t = true ->
    frametime t = (if pending then 34 else 0) ->
    fst (step_run events t) = stepped pending events /\
    m_bStepMode (snd (step_run events t)) = true.
Proof.
  induction events as [|[|now] rest IH]; intros t pending Hs Hft.
  - split; [reflexivity | exact Hs].
  - (* a step is asked for: the frame time becomes 34 *)
    cbn [step_run stepped]. apply IH.
    + unfold IncrementFrame. rewrite Hs. reflexivity.
    + exact (IncrementFrame_step_mode t Hs).
  - (* a frame: it reads the frame time as it stands, then [endframe] zeroes it *)
    cbn [step_run stepped].
    destruct (frame_step_mode now t Hs) as (Hseen & Hzero & Hs' & _).
    destruct (frame now t) as [seen t1]. cbn [fst snd] in Hseen, Hzero, Hs'.
    destruct (IH t1 false Hs' Hzero) as [Hmore Hfinal].
    destruct (step_run rest t1) as [more tn]. cbn [fst snd] in *.
    split; [|exact Hfinal]. rewrite Hseen, Hft, Hmore. reflexivity.
Qed.

Lemma step_run_frame_times_witness :
  m_bStepMode (ToggleStepMode demo_timer) = true /\
  frametime (ToggleStepMode demo_timer) = 0 /\
  fst (step_run [Frame 1000; Step; Step; Frame 9000; Frame 9500; Step; Frame 9501]
         (ToggleStepMode demo_timer))
    = [0; 34; 0; 34] /\
  m_bStepMode (snd (step_run
                      [Frame 1000; Step; Step; Frame 9000; Frame 9500; Step; Frame 9501]
                      (ToggleStepMode demo_timer))) = true.
Proof.
  assert (H1 : m_bStepMode (ToggleStepMode demo_timer) = true) by reflexivity.
  assert (H2 : frametime (ToggleStepMode demo_timer) = (if false then 34 else 0))
    by reflexivity.
  split; [exact H1|]. split; [exact H2|].
  exact (step_run_frame_times
           [Frame 1000; Step; Step; Frame 9000; Frame 9500; Step; Frame 9501]
           (ToggleStepMode demo_timer) false H1 H2).
Defined.

Lemma frames_last_start init a :
  forall t,
    m_nLastFrameStartTime (snd (frames (init ++ [a]) t)) = Int.wrap a /\
    m_bStepMode (snd (frames (init ++ [a]) t)) = m_bStepMode t.
Proof.
  induction init as [|now rest IH]; intros t.
  - cbn. split; reflexivity.
  - cbn [frames app]. destruct (frame now t) as [seen t1] eqn:Hframe.
    destruct (IH t1) as [Hlast Hmode].
    destruct (frames (rest ++ [a]) t1) as [more tn]. cbn [snd] in *.
    split; [exact Hlast|]. rewrite Hmode.
    unfold frame in Hframe. injection Hframe as _ <-. reflexivity.
Qed.

(** X11.  The start of the last frame follows the clock in step mode too.
    So when step mode is left after some frames, the first frame measures the
    time since the last [beginframe], not the time spent in step mode. *)
Theorem leaving_step_mode init a now t :
  m_bStepMode t = true ->
  plain a ->
  plain now ->
  let t' := ToggleStepMode (snd (frames (init ++ [a]) t)) in
  m_bStepMode t' = false /\
  frametime (beginframe now t') = now - a.
Proof.
  intros Hs Ha Hnow t'. destruct (frames_last_start init a t) as [Hlast Hmode].
  assert (Hoff : m_bStepMode t' = false).
  { unfold t', ToggleStepMode. cbn. rewrite Hmode, Hs. reflexivity. }
  split; [exact Hoff|].
  unfold beginframe, frametime. cbn [m_nFrameTime]. rewrite Hoff. cbn [negb].
  unfold t', ToggleStepMode. cbn [m_nLastFrameStartTime]. rewrite Hlast.
  unfold timeGetTime_int. rewrite (wrap_plain _ Ha), (wrap_plain _ Hnow).
  apply sub_plain; assumption.
Qed.

Lemma leaving_step_mode_witness :
  m_bStepMode (ToggleStepMode demo_timer) = true /\
  plain 7000 /\
  plain 7020 /\
  m_bStepMode (ToggleStepMode (snd (frames ([1000; 2000] ++ [7000])
                                      (ToggleStepMode demo_timer)))) = false /\
  frametime (beginframe 7020
               (ToggleStepMode (snd (frames ([1000; 2000] ++ [7000])
                                       (ToggleStepMode demo_timer))))) = 7020 - 7000.
Proof.
  assert (P : forall z, 0 <= z < 2147483648 -> plain z) by (intros z Hz; exact Hz).
  assert (H1 : m_bStepMode (ToggleStepMode demo_timer) = true) by reflexivity.
  assert (H2 : plain 7000) by (apply P; lia).
  assert (H3 : plain 7020) by (apply P; lia).
  split; [exact H1|]. split; [exact H2|]. split; [exact H3|].
  exact (leaving_step_mode [1000; 2000] 7000 7020 (ToggleStepMode demo_timer) H1 H2 H3).
Defined.

(** *** The level timer *)

Lemma frame_level now t :
  m_nLevelStartTime (snd (frame now t)) = m_nLevelStartTime t /\
  m_nLevelFinishTime (snd (frame now t)) = m_nLevelFinishTime t /\
  m_bLevelTimerOn (snd (frame now t)) = m_bLevelTimerOn t.
Proof. repeat split; reflexivity. Qed.

Lemma step_run_level events :
  forall t,
    m_nLevelStartTime (snd (step_run events t)) = m_nLevelStartTime t /\
    m_nLevelFinishTime (snd (step_run events t)) = m_nLevelFinishTime t /\
    m_bLevelTimerOn (snd (step_run events t)) = m_bLevelTimerOn t.
Proof.
  induction events as [|[|now] rest IH]; intros t.
  - repeat split; reflexivity.
  - cbn [step_run]. destruct (IH (IncrementFrame t)) as (H1 & H2 & H3).
    rewrite H1, H2, H3. unfold IncrementFrame.
    destruct (m_bStepMode t); repeat split; reflexivity.
  - cbn [step_run]. destruct (frame_level now t) as (F1 & F2 & F3).
    destruct (frame now t) as [seen t1]. cbn [snd] in F1, F2, F3.
    destruct (IH t1) as (H1 & H2 & H3).
    destruct (step_run rest t1) as [more tn]. cbn [snd] in *.
    rewrite H1, H2, H3. auto.
Qed.

(** X12.  While the level timer runs, the elapsed time is the number of
    milliseconds since it was started, also when the 32-bit clock has wrapped
    around in between, as long as fewer than 2^31 have gone by; frames and
    single steps in between do not disturb it. *)
Theorem level_timer_running events t a d now :
  0 <= d < 2 ^ 31 ->
  now mod 2 ^ 32 = (a + d) mod 2 ^ 32 ->
  GetLevelElapsedTime now (snd (step_run events (StartLevelTimer a t))) = d.
Proof.
  intros Hd Hnow.
  destruct (step_run_level events (StartLevelTimer a t)) as (Hstart & _ & Hon).
  unfold GetLevelElapsedTime. rewrite Hstart, Hon.
  cbn [StartLevelTimer m_nLevelStartTime]. unfold timeGetTime_int.
  rewrite wrap_mod, Hnow.
  rewrite <- (Int_wrap_small d) at 2
    by (unfold Int.in_range, Int.INT_MIN, Int.INT_MAX; lia).
  apply wrap_congruent.
  rewrite Zminus_mod_idemp_l, Zminus_mod_idemp_r. f_equal. lia.
Qed.

Lemma level_timer_running_witness :
  0 <= 1500 < 2 ^ 31 /\
  704 mod 2 ^ 32 = (4294966500 + 1500) mod 2 ^ 32 /\
  GetLevelElapsedTime 704
    (snd (step_run [Frame 4294966600; Step; Frame 100]
            (StartLevelTimer 4294966500 demo_timer))) = 1500.
Proof.
  assert (H1 : 0 <= 1500 < 2 ^ 31) by lia.
  assert (H2 : 704 mod 2 ^ 32 = (4294966500 + 1500) mod 2 ^ 32) by reflexivity.
  split; [exact H1|]. split; [exact H2|].
  exact (level_timer_running [Frame 4294966600; Step; Frame 100] demo_timer
           4294966500 1500 704 H1 H2).
Defined.

(** X13.  Once the level timer is stopped, the elapsed time is the clock at
    the stop minus the clock at the start, whatever the clock reads when it
    is asked for and whatever frames went by before and after the stop. *)
Theorem level_timer_stopped before after t a b later :
  plain a ->
  plain b ->
  GetLevelElapsedTime later
    (snd (step_run after (StopLevelTimer b (snd (step_run before (StartLevelTimer a t))))))
  = b - a.
Proof.
  intros Ha Hb.
  destruct (step_run_level before (StartLevelTimer a t)) as (Hstart & _ & _).
  destruct (step_run_level after
              (StopLevelTimer b (snd (step_run before (StartLevelTimer a t)))))
    as (Hstart' & Hfinish' & Hon').
  unfold GetLevelElapsedTime. rewrite Hstart', Hfinish', Hon'.
  cbn [StopLevelTimer m_nLevelStartTime m_nLevelFinishTime m_bLevelTimerOn].
  rewrite Hstart. cbn [StartLevelTimer m_nLevelStartTime]. unfold timeGetTime_int.
  rewrite (wrap_plain _ Ha), (wrap_plain _ Hb). apply sub_plain; assumption.
Qed.

Lemma level_timer_stopped_witness :
  plain 2000 /\
  plain 9000 /\
  GetLevelElapsedTime 123456
    (snd (step_run [Frame 9500]
            (StopLevelTimer 9000
               (snd (step_run [Frame 2500; Frame 2600] (StartLevelTimer 2000 demo_timer))))))
  = 9000 - 2000.
Proof.
  assert (P : forall z, 0 <= z < 2147483648 -> plain z) by (intros z Hz; exact Hz).
  assert (H1 : plain 2000) by (apply P; lia).
  assert (H2 : plain 9000) by (apply P; lia).
  split; [exact H1|]. split; [exact H2|].
  exact (level_timer_stopped [Frame 2500; Frame 2600] [Frame 9500] demo_timer
           2000 9000 123456 H1 H2).
Defined.

End TimerRunsFacts.

(** ** Sprite manager: loading and drawing *)

Section SpriteManRunsFacts.
Import Xml CStr SpriteMan.





(** X15.  [Load] does not check the slot: with a name that the settings
    know and a slot outside the array of sprites, the store to
    [m_pSprite[sprite]] is out of bounds, before any file is read. *)
Theorem Load_slot_unchecked dev settings sprite name sm e :
  name_found name settings e ->
  sprite < 0 \/ Z.of_nat (length (m_pSprite sm)) <= sprite ->
  Load dev settings sprite name sm = Fail UB.
Proof.
  intros Hfound Hout. rewrite (Load_found _ _ _ _ _ _ Hfound).
  unfold LoadFile, array_set.
  destruct (Z.leb_spec 0 sprite), (Z.ltb_spec sprite (Z.of_nat (length (m_pSprite sm))));
    try lia; reflexivity.
Qed.

Lemma Load_slot_unchecked_witness :
  name_found "ramp" (Some demo_settings) demo_ramp /\
  (512 < 0 \/ Z.of_nat (length (m_pSprite constructor)) <= 512) /\
  Load (demo_device true) (Some demo_settings) 512 "ramp" constructor = Fail UB.
Proof.
  assert (H1 : name_found "ramp" (Some demo_settings) demo_ramp) by exact demo_ramp_found.
  assert (H2 : 512 < 0 \/ Z.of_nat (length (m_pSprite constructor)) <= 512)
    by (right; vm_compute; discriminate).
  split; [exact H1|]. split; [exact H2|].
  exact (Load_slot_unchecked (demo_device true) _ 512 "ramp" constructor demo_ramp H1 H2).
Defined.

End SpriteManRunsFacts.

(** ** Sprite sheet and screen text *)

Section ScreenTextFacts.
Import Xml CStr SpriteMan ScreenText.

Lemma strlen_c_str s : strlen (c_str s) = strlen s.
Proof. unfold strlen. rewrite c_str_idempotent. reflexivity. Qed.

(** X16.  What [CSpriteSheet::Load] leaves behind when it returns: the sizes
    of the sheet are those of the texture it now holds and the frame size is
    as it was.  A sheet that had its vertex buffer keeps it and reports
    success whatever the device says about buffers; a sheet without one
    reports what [CreateBuffer] said, and on success its quad is half a frame
    wide and high, not half the image. *)
Theorem SpriteSheet_Load_result dev filename sh ok sh' :
  Load dev filename sh = Ok (ok, sh') ->
  sized_as_texture sh' /\
  m_nFrameWidth sh' = m_nFrameWidth sh /\
  m_nFrameHeight sh' = m_nFrameHeight sh /\
  match m_pVertexBuffer (sprite_part sh) with
  | Some quad => ok = true /\ m_pVertexBuffer (sprite_part sh') = Some quad
  | None =>
      ok = CreateBuffer_ok dev /\
      m_pVertexBuffer (sprite_part sh') =
        if ok then Some (half (m_nFrameWidth sh), half (m_nFrameHeight sh)) else None
  end.
Proof.
  unfold Load, LoadTexture, sized_as_texture. intros Hrun.
  destruct (100 <=? strlen filename); [discriminate|].
  destruct (match CreateWICTextureFromFile dev (c_str filename) with
            | Some (w, h) => Some (c_str filename, w, h)
            | None => m_pTexture (sprite_part sh)
            end) as [[[path w] h]|] eqn:Htex; [|discriminate].
  cbn in Hrun.
  destruct (m_pVertexBuffer (sprite_part sh)) as [quad|] eqn:Hquad.
  - injection Hrun as <- <-. cbn. eauto 10.
  - destruct (CreateBuffer_ok dev); injection Hrun as <- <-; cbn; eauto 10.
Qed.

Lemma SpriteSheet_Load_result_witness :
  Load (text_device false) "Images\text.png"
    (mkSpriteSheet
       (mkSprite (Some ("Images\old.png"%string, 600, 140)) (Some (half 21, half 37)))
       (Some 600) (Some 140) 21 37)
  = Ok (true, mkSpriteSheet
                (mkSprite (Some ("Images\text.png"%string, 573, 133))
                   (Some (half 21, half 37)))
                (Some 573) (Some 133) 21 37) /\
  sized_as_texture
    (mkSpriteSheet
       (mkSprite (Some ("Images\text.png"%string, 573, 133)) (Some (half 21, half 37)))
       (Some 573) (Some 133) 21 37) /\
  21 = 21 /\ 37 = 37 /\
  true = true /\
  Some (half 21, half 37) = Some (half 21, half 37).
Proof.
  assert (H1 : Load (text_device false) "Images\text.png"
                 (mkSpriteSheet
                    (mkSprite (Some ("Images\old.png"%string, 600, 140))
                       (Some (half 21, half 37)))
                    (Some 600) (Some 140) 21 37)
               = Ok (true, mkSpriteSheet
                             (mkSprite (Some ("Images\text.png"%string, 573, 133))
                                (Some (half 21, half 37)))
                             (Some 573) (Some 133) 21 37))
    by (vm_compute; reflexivity).
  split; [exact H1|].
  exact (SpriteSheet_Load_result (text_device false) "Images\text.png" _ true _ H1).
Defined.

(** X17.  When the settings have an image called "text" whose file the
    device can read, [InitScreenText] returns with a sheet of 21 by 37 frames
    that holds that texture and its size.  The result of the sheet's [Load]
    is dropped: if the vertex buffer could not be created the sheet is
    installed all the same, without one. *)
Theorem InitScreenText_text_image dev settings r e src w h :
  text_image settings e ->
  Attribute "src" e = Some src ->
  strlen src < 100 ->
  CreateWICTextureFromFile dev (c_str src) = Some (w, h) ->
  InitScreenText dev (Some settings) r =
  Ok (mkRenderer (m_pBackgroundTexture r)
        (Some (mkSpriteSheet
                 (mkSprite (Some (c_str src, w, h))
                    (if CreateBuffer_ok dev then Some (half 21, half 37) else None))
                 (Some w) (Some h) 21 37))).
Proof.
  intros (before & after & n & Hsplit & Hbefore & Hn & Heq) Hsrc Hlen Htex.
  unfold InitScreenText. unfold image_elements in Hsplit.
  destruct (FirstChildElement "images" settings) as [imagesTag|];
    [|destruct before; discriminate].
  rewrite Hsplit, (find_sprite_found "text" before e after n Hbefore Hn Heq).
  cbn [mbind outcome_bind]. rewrite Hsrc. unfold copy_src.
  destruct (Z.ltb_spec (strlen src) 256); [|lia].
  cbn [mbind outcome_bind]. unfold Load, LoadTexture. rewrite strlen_c_str.
  destruct (Z.leb_spec 100 (strlen src)); [lia|].
  rewrite c_str_idempotent, Htex. cbn.
  destruct (CreateBuffer_ok dev); reflexivity.
Qed.

Lemma demo_text_image :
  text_image demo_text_settings
    (XMLNode "image" [("name", "text"); ("src", "Images\text.png")]%string []).
Proof.
  exists [XMLNode "image" [("name", "background"); ("src", "Images\bg.png")]%string []],
         [], "text"%string.
  split; [reflexivity|]. split; [|split; reflexivity].
  constructor; [|constructor].
  exists "background"%string. split; [reflexivity | discriminate].
Qed.

Lemma InitScreenText_text_image_witness :
  text_image demo_text_settings
    (XMLNode "image" [("name", "text"); ("src", "Images\text.png")]%string []) /\
  Attribute "src"
    (XMLNode "image" [("name", "text"); ("src", "Images\text.png")]%string [])
    = Some "Images\text.png"%string /\
  strlen "Images\text.png" < 100 /\
  CreateWICTextureFromFile (text_device false) (c_str "Images\text.png")
    = Some (573, 133) /\
  InitScreenText (text_device false) (Some demo_text_settings) (mkRenderer None None) =
  Ok (mkRenderer (m_pBackgroundTexture (mkRenderer None None))
        (Some (mkSpriteSheet
                 (mkSprite (Some (c_str "Images\text.png", 573, 133))
                    (if CreateBuffer_ok (text_device false)
                     then Some (half 21, half 37) else None))
                 (Some 573) (Some 133) 21 37))).
Proof.
  assert (H1 := demo_text_image).
  assert (H2 : Attribute "src"
                 (XMLNode "image" [("name", "text"); ("src", "Images\text.png")]%string [])
               = Some "Images\text.png"%string) by reflexivity.
  assert (H3 : strlen "Images\text.png" < 100) by (vm_compute; reflexivity).
  assert (H4 : CreateWICTextureFromFile (text_device false) (c_str "Images\text.png")
               = Some (573, 133)) by reflexivity.
  split; [exact H1|]. split; [exact H2|]. split; [exact H3|]. split; [exact H4|].
  exact (InitScreenText_text_image (text_device false) demo_text_settings
           (mkRenderer None None) _ "Images\text.png" 573 133 H1 H2 H3 H4).
Defined.

Lemma find_sprite_none name sprs :
  Forall (named_otherwise name) sprs -> find_sprite name sprs = Ok None.
Proof.
  induction 1 as [|e rest (n & Hn & Hne) _ IH]; [reflexivity|].
  cbn. rewrite Hn. unfold strcmp_eq.
  destruct (String.eqb_spec (c_str name) (c_str n)); [congruence | exact IH].
Qed.

(** X18.  When no image of the settings is called "text", [InitScreenText]
    reports nothing.  Without an [<images>] element it returns with a sheet
    that was never loaded: no texture, no vertex buffer, width and height
    unset.  With one, the text of the message is passed to [LoadTexture] as a
    file name: if the device reads a file of that name, it becomes the
    background texture and the sheet is installed unloaded; if it does not
    and no background texture is there yet, the null texture is
    dereferenced. *)
Theorem InitScreenText_without_text_image dev settings r :
  Forall (named_otherwise "text") (image_elements settings) ->
  (FirstChildElement "images" settings = None ->
   InitScreenText dev (Some settings) r =
   Ok (mkRenderer (m_pBackgroundTexture r) (Some (new_CSpriteSheet 21 37)))) /\
  (forall w h,
     FirstChildElement "images" settings <> None ->
     CreateWICTextureFromFile dev no_text_file = Some (w, h) ->
     InitScreenText dev (Some settings) r =
     Ok (mkRenderer (Some (no_text_file, w, h)) (Some (new_CSpriteSheet 21 37)))) /\
  (FirstChildElement "images" settings <> None ->
   CreateWICTextureFromFile dev no_text_file = None ->
   m_pBackgroundTexture r = None ->
   InitScreenText dev (Some settings) r = Fail UB).
Proof.
  intros Hnone. unfold InitScreenText. unfold image_elements in Hnone.
  destruct (FirstChildElement "images" settings) as [imagesTag|].
  - rewrite (find_sprite_none _ _ Hnone). cbn [mbind outcome_bind].
    unfold Renderer_LoadTexture.
    change (100 <=? strlen no_text_file) with false. cbv iota.
    change (c_str no_text_file) with no_text_file.
    split; [discriminate|]. split.
    + intros w h _ ->. reflexivity.
    + intros _ -> ->. reflexivity.
  - split; [reflexivity|]. split; [intros w h Hsome; congruence | intros Hsome; congruence].
Qed.

Lemma InitScreenText_without_text_image_witness :
  Forall (named_otherwise "text") (image_elements background_only_settings) /\
  FirstChildElement "images" background_only_settings <> None /\
  CreateWICTextureFromFile (demo_device true) no_text_file = Some (64, 64) /\
  InitScreenText (demo_device true) (Some background_only_settings) (mkRenderer None None) =
    Ok (mkRenderer (Some (no_text_file, 64, 64)) (Some (new_CSpriteSheet 21 37))) /\
  CreateWICTextureFromFile (text_device true) no_text_file = None /\
  InitScreenText (text_device true) (Some background_only_settings) (mkRenderer None None)
    = Fail UB.
Proof.
  assert (H1 : Forall (named_otherwise "text") (image_elements background_only_settings)).
  { constructor; [|constructor].
    exists "background"%string. split; [reflexivity | discriminate]. }
  assert (H2 : FirstChildElement "images" background_only_settings <> None)
    by discriminate.
  assert (H3 : CreateWICTextureFromFile (demo_device true) no_text_file = Some (64, 64))
    by reflexivity.
  assert (H4 : CreateWICTextureFromFile (text_device true) no_text_file = None)
    by reflexivity.
  split; [exact H1|]. split; [exact H2|]. split; [exact H3|].
  split; [exact (proj1 (proj2 (InitScreenText_without_text_image (demo_device true)
                                 background_only_settings (mkRenderer None None) H1))
                   64 64 H2 H3)|].
  split; [exact H4|].
  exact (proj2 (proj2 (InitScreenText_without_text_image (text_device true)
                         background_only_settings (mkRenderer None None) H1))
           H2 H4 eq_refl).
Defined.

End ScreenTextFacts.

(** ** Shader: input element descriptors *)

Section ShaderFacts.
Import Shader.

Lemma AddInputElementDesc_free filled free d :
  Z.of_nat (length filled + S free) <= Int.INT_MAX ->
  AddInputElementDesc (fst (fst d)) (snd (fst d)) (snd d) (shader_of filled (S free)) =
  Ok (true, shader_of (filled ++ [d]) free).
Proof.
  intros Hmax. destruct d as [[offset fmt] name].
  unfold AddInputElementDesc, shader_of. cbn [m_nNumDescs m_nMaxDescs m_pIEDesc fst snd].
  destruct (Z.ltb_spec (Z.of_nat (length filled)) (Z.of_nat (length filled + S free)));
    [|lia].
  unfold array_set. rewrite length_app, length_map, length_replicate.
  destruct (Z.leb_spec 0 (Z.of_nat (length filled))); [|lia].
  destruct (Z.ltb_spec (Z.of_nat (length filled)) (Z.of_nat (length filled + S free)));
    [|lia].
  cbn [andb mbind outcome_bind]. rewrite Nat2Z.id.
  rewrite insert_app_r_alt by (rewrite length_map; lia).
  rewrite length_map, Nat.sub_diag. cbn [replicate].
  rewrite map_app, <- app_assoc, length_app. cbn [map app length described].
  unfold Int.add. rewrite Int_wrap_small
    by (unfold Int.in_range, Int.INT_MIN, Int.INT_MAX in *; lia).
  f_equal. f_equal. f_equal; lia.
Qed.

Lemma AddInputElementDesc_full filled offset fmt name :
  AddInputElementDesc offset fmt name (shader_of filled 0) = Ok (false, shader_of filled 0).
Proof.
  unfold AddInputElementDesc, shader_of. cbn [m_nNumDescs m_nMaxDescs].
  destruct (Z.ltb_spec (Z.of_nat (length filled)) (Z.of_nat (length filled + 0)));
    [lia | reflexivity].
Qed.

Lemma add_all_shader_of ds :
  forall filled free,
    Z.of_nat (length filled + free) <= Int.INT_MAX ->
    add_all ds (shader_of filled free) =
    Ok (replicate (min (length ds) free) true ++ replicate (length ds - free) false,
        shader_of (filled ++ take free ds) (free - length ds)).
Proof.
  induction ds as [|d rest IH]; intros filled free Hmax.
  - cbn. rewrite take_nil, app_nil_r, Nat.sub_0_r. reflexivity.
  - destruct free as [|free].
    + destruct d as [[offset fmt] name]. cbn [add_all].
      rewrite AddInputElementDesc_full. cbn [mbind outcome_bind snd fst].
      rewrite (IH filled 0%nat Hmax). cbn [mbind outcome_bind fst snd].
      rewrite Nat.min_0_r, Nat.sub_0_r, take_0. cbn [replicate app take].
      rewrite !app_nil_r. reflexivity.
    + pose proof (AddInputElementDesc_free filled free d Hmax) as Hadd.
      destruct d as [[offset fmt] name]. cbn [fst snd] in Hadd. cbn [add_all].
      rewrite Hadd. cbn [mbind outcome_bind snd fst].
      rewrite (IH (filled ++ [(offset, fmt, name)]) free)
        by (rewrite length_app; cbn [length]; lia).
      cbn [mbind outcome_bind fst snd length take]. rewrite <- app_assoc.
      reflexivity.
Qed.

(** X19.  A shader made for [n] descriptors and then given any number of
    them: the first [n] calls of [AddInputElementDesc] return true and fill
    the array in the order of the calls, every later call returns false and
    changes nothing, and no call writes outside the array. *)
Theorem AddInputElementDesc_in_order n ds :
  0 <= n <= Int.INT_MAX ->
  (s ← constructor n; add_all ds s) =
  Ok (replicate (min (length ds) (Z.to_nat n)) true
        ++ replicate (length ds - Z.to_nat n) false,
      mkShader (map (fun d => Some (described d)) (take (Z.to_nat n) ds)
                  ++ replicate (Z.to_nat n - length ds) None)
               n
               (Z.of_nat (min (length ds) (Z.to_nat n)))).
Proof.
  intros Hn. unfold constructor. destruct (Z.ltb_spec n 0); [lia|].
  cbn [mbind outcome_bind].
  change (mkShader (replicate (Z.to_nat n) None) n 0)
    with (mkShader (map (fun d => Some (described d)) [] ++ replicate (Z.to_nat n) None)
            n 0).
  replace (mkShader (map (fun d => Some (described d)) [] ++ replicate (Z.to_nat n) None)
             n 0)
    with (shader_of [] (Z.to_nat n))
    by (unfold shader_of; cbn [length]; f_equal; lia).
  rewrite add_all_shader_of by (cbn [length]; lia).
  unfold shader_of. cbn [app]. f_equal. f_equal. f_equal.
  - rewrite length_take. lia.
  - rewrite length_take. lia.
Qed.

Lemma AddInputElementDesc_in_order_witness :
  0 <= 2 <= Int.INT_MAX /\
  (s ← constructor 2; add_all (background_descs ++ [(20, 2, "COLOR"%string)]) s) =
  Ok ([true; true; false],
      mkShader [Some (mkDesc "POSITION" 0 6 0 0 D3D11_INPUT_PER_VERTEX_DATA 0);
                Some (mkDesc "TEXCOORD" 0 16 0 12 D3D11_INPUT_PER_VERTEX_DATA 0)]
               2 2).
Proof.
  assert (H1 : 0 <= 2 <= Int.INT_MAX) by (unfold Int.INT_MAX; lia).
  split; [exact H1|].
  exact (AddInputElementDesc_in_order 2
           (background_descs ++ [(20, 2, "COLOR"%string)]) H1).
Defined.

End ShaderFacts.

(** ** Text: cells, rectangles, layout *)

Section TextFacts.
Import CStr Renderer.

Lemma glyph_cell_range c :
  let cell := glyph_cell c in
  0 <= fst cell <= 95 /\ 0 <= snd cell <= 25.
Proof.
  cbv zeta.
  destruct (Z_le_dec (char_value "A") c) as [HA|HA], (Z_le_dec c (char_value "Z")) as [HZ|HZ];
    [rewrite glyph_cell_upper by lia; change (char_value "A") with 65 in *;
     change (char_value "Z") with 90 in *; cbn [fst snd]; lia | | |].
  all: destruct (Z_le_dec (char_value "a") c) as [Ha|Ha],
                (Z_le_dec c (char_value "z")) as [Hz|Hz];
    [rewrite glyph_cell_lower by lia; change (char_value "a") with 97 in *;
     change (char_value "z") with 122 in *; cbn [fst snd]; lia | | |].
  all: destruct (Z_le_dec (char_value "0") c) as [H0|H0],
                (Z_le_dec c (char_value "9")) as [H9|H9];
    [rewrite glyph_cell_digit by lia; change (char_value "0") with 48 in *;
     change (char_value "9") with 57 in *; cbn [fst snd]; lia | | |].
  all: rewrite glyph_cell_other by lia; cbn [fst snd]; lia.
Qed.

(** X20.  Letters and digits get cells of their own: two characters share
    a cell of the sheet only if they are the same character or if neither is
    a letter or a digit (all of those are drawn as the blank cell). *)
Theorem glyph_cell_injective c1 c2 :
  glyph_cell c1 = glyph_cell c2 ->
  c1 = c2 \/ (glyph_cell c1 = (1, 10) /\ glyph_cell c2 = (1, 10)).
Proof.
  unfold glyph_cell.
  change (char_value "A") with 65. change (char_value "Z") with 90.
  change (char_value "a") with 97. change (char_value "z") with 122.
  change (char_value "0") with 48. change (char_value "9") with 57.
  destruct (Z.leb_spec 65 c1), (Z.leb_spec c1 90), (Z.leb_spec 97 c1),
    (Z.leb_spec c1 122), (Z.leb_spec 48 c1), (Z.leb_spec c1 57); cbn [andb]; try lia.
  all: destruct (Z.leb_spec 65 c2), (Z.leb_spec c2 90), (Z.leb_spec 97 c2),
    (Z.leb_spec c2 122), (Z.leb_spec 48 c2), (Z.leb_spec c2 57); cbn [andb]; try lia.
  all: intros [= ]; try (left; lia); try (right; split; reflexivity).
Qed.

Lemma glyph_cell_injective_witness :
  glyph_cell (char_value " ") = glyph_cell (char_value "!") /\
  (char_value " " = char_value "!" \/
   (glyph_cell (char_value " ") = (1, 10) /\ glyph_cell (char_value "!") = (1, 10))).
Proof.
  assert (H1 : glyph_cell (char_value " ") = glyph_cell (char_value "!")) by reflexivity.
  split; [exact H1|].
  exact (glyph_cell_injective (char_value " ") (char_value "!") H1).
Defined.

End TextFacts.

(** * The renderer in binary32 *)

(** ** Rounding, sums and quotients *)

Section Binary32Facts.
Import F32 Dyadic.

Lemma fexp_binary32 e : fexp prec emax e = Z.max (e - 24) (-149).
Proof. reflexivity. Qed.

Lemma digits2_pos_spec m :
  2 ^ (Zpos (digits2_pos m) - 1) <= Zpos m < 2 ^ Zpos (digits2_pos m).
Proof.
  induction m as [p IH | p IH |]; cbn [digits2_pos].
  - rewrite Pos2Z.inj_succ. replace (Z.succ (Zpos (digits2_pos p)) - 1)
      with (Z.succ (Zpos (digits2_pos p) - 1)) by lia.
    rewrite !Z.pow_succ_r by lia. lia.
  - rewrite Pos2Z.inj_succ. replace (Z.succ (Zpos (digits2_pos p)) - 1)
      with (Z.succ (Zpos (digits2_pos p) - 1)) by lia.
    rewrite !Z.pow_succ_r by lia. lia.
  - cbn. lia.
Qed.

Lemma digits2_pos_unique m d :
  2 ^ (d - 1) <= Zpos m < 2 ^ d -> Zpos (digits2_pos m) = d.
Proof.
  intros Hd. pose proof (digits2_pos_spec m) as Hm.
  set (D := Zpos (digits2_pos m)) in *. assert (HD : 0 < D) by (unfold D; lia).
  clearbody D.
  assert (Hd0 : 0 < d).
  { destruct (Z_lt_le_dec 0 d) as [|Hle]; [assumption|].
    assert (2 ^ d <= 1); [|lia].
    destruct (Z.eq_dec d 0) as [->|]; [cbn; lia|].
    rewrite Z.pow_neg_r by lia. lia. }
  destruct (Z_lt_le_dec D d) as [Hlt|Hge].
  - assert (2 ^ D <= 2 ^ (d - 1)) by (apply Z.pow_le_mono_r; lia). lia.
  - destruct (Z_lt_le_dec d D) as [Hlt|Hle]; [|lia].
    assert (2 ^ d <= 2 ^ (D - 1)) by (apply Z.pow_le_mono_r; lia). lia.
Qed.

Lemma iter_xO_pow m d : Zpos (Pos.iter xO m d) = Zpos m * 2 ^ Zpos d.
Proof.
  induction d as [|d IH] using Pos.peano_ind.
  - cbn [Pos.iter]. rewrite Pos2Z.inj_xO. change (2 ^ 1) with 2. lia.
  - rewrite Pos.iter_succ, Pos2Z.inj_xO, IH, Pos2Z.inj_succ, Z.pow_succ_r by lia. lia.
Qed.

Lemma iter_pos_nat {A} (f : A -> A) p :
  forall x, SpecFloat.iter_pos f p x = Nat.iter (Pos.to_nat p) f x.
Proof.
  induction p as [p IH | p IH |]; intros x; cbn [SpecFloat.iter_pos].
  - rewrite !IH, Pos2Nat.inj_xI.
    replace (S (2 * Pos.to_nat p)) with (Pos.to_nat p + (Pos.to_nat p + 1))%nat by lia.
    rewrite !Nat.iter_add. reflexivity.
  - rewrite !IH, Pos2Nat.inj_xO.
    replace (2 * Pos.to_nat p)%nat with (Pos.to_nat p + Pos.to_nat p)%nat by lia.
    rewrite Nat.iter_add. reflexivity.
  - reflexivity.
Qed.

Lemma shr_1_even m :
  0 <= m ->
  shr_1 (Build_shr_record (2 * m) false false) = Build_shr_record m false false.
Proof. intros Hm. destruct m as [|p|p]; [reflexivity | reflexivity | lia]. Qed.

Lemma iter_shr_1_exact k m :
  0 <= m ->
  Nat.iter k shr_1 (Build_shr_record (m * 2 ^ Z.of_nat k) false false)
  = Build_shr_record m false false.
Proof.
  revert m. induction k as [|k IH]; intros m Hm.
  - cbn [Nat.iter]. change (2 ^ Z.of_nat 0) with 1. rewrite Z.mul_1_r. reflexivity.
  - rewrite Nat.iter_succ_r.
    replace (m * 2 ^ Z.of_nat (S k)) with (2 * (m * 2 ^ Z.of_nat k))
      by (rewrite Nat2Z.inj_succ, Z.pow_succ_r by lia; lia).
    rewrite shr_1_even by (apply Z.mul_nonneg_nonneg; [lia | apply Z.pow_nonneg; lia]).
    apply IH. exact Hm.
Qed.

Lemma digits2_pos_normal q :
  2 ^ 23 <= Zpos q < 2 ^ 24 -> Zpos (digits2_pos q) = 24.
Proof. intros Hq. apply digits2_pos_unique. exact Hq. Qed.

Lemma digits2_pos_shifted M q k :
  2 ^ 23 <= q < 2 ^ 24 -> 0 <= k -> Zpos M = q * 2 ^ k ->
  Zpos (digits2_pos M) = 24 + k.
Proof.
  intros Hq Hk HM. apply digits2_pos_unique. rewrite HM.
  replace (24 + k - 1) with (23 + k) by lia.
  rewrite !Z.pow_add_r by lia.
  assert (0 < 2 ^ k) by (apply Z.pow_pos_nonneg; lia). nia.
Qed.

Lemma digits2_pos_short M q j :
  2 ^ 23 <= q < 2 ^ 24 -> 0 <= j -> Zpos M * 2 ^ j = q ->
  j <= 23 /\ Zpos (digits2_pos M) = 24 - j.
Proof.
  intros Hq Hj HM.
  assert (Hpos : 0 < 2 ^ j) by (apply Z.pow_pos_nonneg; lia).
  assert (Hj23 : j <= 23).
  { destruct (Z_le_gt_dec j 23) as [|Hgt]; [assumption|].
    assert (2 ^ 24 <= 2 ^ j) by (apply Z.pow_le_mono_r; lia). nia. }
  split; [exact Hj23|]. apply digits2_pos_unique.
  assert (H23 : 2 ^ 23 = 2 ^ (24 - j - 1) * 2 ^ j)
    by (rewrite <- Z.pow_add_r by lia; f_equal; lia).
  assert (H24 : 2 ^ 24 = 2 ^ (24 - j) * 2 ^ j)
    by (rewrite <- Z.pow_add_r by lia; f_equal; lia).
  rewrite H23, H24 in Hq. rewrite <- HM in Hq. nia.
Qed.

Lemma shr_fexp_normal q e l :
  2 ^ 23 <= Zpos q < 2 ^ 24 -> -149 <= e ->
  shr_fexp prec emax (Zpos q) e l = (shr_record_of_loc (Zpos q) l, e).
Proof.
  intros Hq He. unfold shr_fexp. cbn [Zdigits2].
  rewrite (digits2_pos_normal q Hq), fexp_binary32.
  replace (Z.max (24 + e - 24) (-149) - e) with 0 by lia. reflexivity.
Qed.

Lemma shr_fexp_long M q e k :
  2 ^ 23 <= q < 2 ^ 24 -> 0 < k -> Zpos M = q * 2 ^ k -> -149 <= e + k ->
  shr_fexp prec emax (Zpos M) e loc_Exact = (Build_shr_record q false false, e + k).
Proof.
  intros Hq Hk HM He. unfold shr_fexp. cbn [Zdigits2].
  rewrite (digits2_pos_shifted M q k Hq ltac:(lia) HM), fexp_binary32.
  replace (Z.max (24 + k + e - 24) (-149) - e) with k by lia.
  destruct k as [|p|p]; try lia. cbn [shr shr_record_of_loc].
  rewrite iter_pos_nat, HM. rewrite <- (positive_nat_Z p) at 1.
  rewrite iter_shr_1_exact by lia. reflexivity.
Qed.

Lemma binary_round_aux_normal s q e :
  2 ^ 23 <= Zpos q < 2 ^ 24 -> -149 <= e <= 104 ->
  binary_round_aux prec emax s (Zpos q) e loc_Exact = S754_finite s q e.
Proof.
  intros Hq He. unfold binary_round_aux.
  rewrite (shr_fexp_normal q e loc_Exact Hq) by lia.
  cbn [shr_record_of_loc shr_m loc_of_shr_record round_nearest_even].
  rewrite (shr_fexp_normal q e loc_Exact Hq) by lia.
  cbn [shr_record_of_loc shr_m].
  change (emax - prec) with 104. destruct (Z.leb_spec e 104); [reflexivity | lia].
Qed.

Lemma binary_round_aux_exact s M q e k :
  2 ^ 23 <= Zpos q < 2 ^ 24 -> 0 <= k -> Zpos M = Zpos q * 2 ^ k ->
  -149 <= e + k <= 104 ->
  binary_round_aux prec emax s (Zpos M) e loc_Exact = S754_finite s q (e + k).
Proof.
  intros Hq Hk HM He.
  destruct (Z.eq_dec k 0) as [-> | Hk0].
  - rewrite Z.mul_1_r in HM. injection HM as ->. rewrite Z.add_0_r in *.
    apply binary_round_aux_normal; assumption.
  - unfold binary_round_aux.
    rewrite (shr_fexp_long M (Zpos q) e k Hq ltac:(lia) HM) by lia.
    cbn [shr_m loc_of_shr_record round_nearest_even].
    rewrite (shr_fexp_normal q (e + k) loc_Exact Hq) by lia.
    cbn [shr_record_of_loc shr_m].
    change (emax - prec) with 104. destruct (Z.leb_spec (e + k) 104); [reflexivity | lia].
Qed.

(** A number that a normal mantissa [q] and an exponent [E] denote exactly is
    rounded to them, however it is written. *)
Lemma binary_round_exact s M e q E :
  2 ^ 23 <= Zpos q < 2 ^ 24 -> -149 <= E <= 104 ->
  (E <= e /\ Zpos M * 2 ^ (e - E) = Zpos q) \/ (e <= E /\ Zpos M = Zpos q * 2 ^ (E - e)) ->
  binary_round prec emax s M e = S754_finite s q E.
Proof.
  intros Hq HE [[Hle HM] | [Hle HM]]; unfold binary_round.
  - destruct (digits2_pos_short M (Zpos q) (e - E) Hq ltac:(lia) HM) as [_ Hd].
    rewrite Hd, fexp_binary32.
    replace (Z.max (24 - (e - E) + e - 24) (-149)) with E by lia.
    unfold shl_align. destruct (E - e) as [|d|d] eqn:Hd'; try lia.
    + assert (e = E) by lia. subst e. rewrite Z.sub_diag, Z.mul_1_r in HM.
      injection HM as ->. apply binary_round_aux_normal; assumption.
    + assert (Hq' : Zpos (Pos.iter xO M d) = Zpos q).
      { rewrite iter_xO_pow. replace (Zpos d) with (e - E) by lia. exact HM. }
      injection Hq' as ->. apply binary_round_aux_normal; assumption.
  - rewrite (digits2_pos_shifted M (Zpos q) (E - e) Hq ltac:(lia) HM), fexp_binary32.
    replace (Z.max (24 + (E - e) + e - 24) (-149)) with E by lia.
    unfold shl_align. destruct (E - e) as [|d|d] eqn:Hd'; try lia.
    + rewrite (binary_round_aux_exact s M q e 0 Hq ltac:(lia)) by (rewrite ?Z.mul_1_r; lia).
      f_equal. lia.
    + rewrite (binary_round_aux_exact s M q e (Zpos d) Hq ltac:(lia) HM) by lia.
      f_equal. lia.
Qed.

(** *** Dyadic numbers with at most 24 significant bits *)

Lemma normalise n :
  0 < n < 2 ^ 24 ->
  exists q j, 0 <= j <= 23 /\ Zpos q = n * 2 ^ j /\ 2 ^ 23 <= Zpos q < 2 ^ 24.
Proof.
  intros Hn. destruct n as [|p|p]; try lia.
  pose proof (digits2_pos_spec p) as Hp.
  set (d := Zpos (digits2_pos p)) in *.
  assert (Hd : 0 < d <= 24).
  { split; [unfold d; lia|].
    destruct (Z_le_gt_dec d 24) as [|Hgt]; [assumption|].
    assert (2 ^ 24 <= 2 ^ (d - 1)) by (apply Z.pow_le_mono_r; lia). lia. }
  assert (Hpos : 0 < 2 ^ (24 - d)) by (apply Z.pow_pos_nonneg; lia).
  exists (Z.to_pos (Zpos p * 2 ^ (24 - d))), (24 - d).
  rewrite Z2Pos.id by lia. split; [lia|]. split; [reflexivity|].
  assert (H23 : 2 ^ 23 = 2 ^ (d - 1) * 2 ^ (24 - d))
    by (rewrite <- Z.pow_add_r by lia; f_equal; lia).
  assert (H24 : 2 ^ 24 = 2 ^ d * 2 ^ (24 - d))
    by (rewrite <- Z.pow_add_r by lia; f_equal; lia).
  rewrite H23, H24. nia.
Qed.

Lemma dy_zero k : dy 0 k = S754_zero false.
Proof. reflexivity. Qed.

(** However a number with at most 24 significant bits is written, as
    [n * 2^i] at exponent [k - i], it is the same binary32 value. *)
Lemma dy_written n k i q j :
  0 < n -> 0 <= i -> 0 <= j -> Zpos q = n * 2 ^ j -> 2 ^ 23 <= Zpos q < 2 ^ 24 ->
  -149 <= k - j <= 104 ->
  dy (n * 2 ^ i) (k - i) = S754_finite false q (k - j).
Proof.
  intros Hn Hi Hj Hq Hnorm Hk.
  assert (Hpi : 0 < 2 ^ i) by (apply Z.pow_pos_nonneg; lia).
  unfold dy, binary_normalize.
  destruct (n * 2 ^ i) as [|M|M] eqn:HM; try nia.
  apply binary_round_exact; [exact Hnorm | exact Hk |].
  destruct (Z_le_gt_dec i j) as [Hij | Hij].
  - left. split; [lia|].
    replace (k - i - (k - j)) with (j - i) by lia.
    rewrite Hq. replace j with (i + (j - i)) at 2 by lia.
    rewrite Z.pow_add_r by lia. lia.
  - right. split; [lia|].
    replace (k - j - (k - i)) with (i - j) by lia.
    rewrite Hq. replace i with (j + (i - j)) in HM at 1 by lia.
    rewrite Z.pow_add_r in HM by lia. lia.
Qed.

Lemma dy_finite n k :
  0 < n < 2 ^ 24 -> -126 <= k <= 104 ->
  exists q j,
    0 <= j <= 23 /\ Zpos q = n * 2 ^ j /\ 2 ^ 23 <= Zpos q < 2 ^ 24 /\
    dy n k = S754_finite false q (k - j).
Proof.
  intros Hn Hk. destruct (normalise n Hn) as (q & j & Hj & Hq & Hnorm).
  exists q, j. split; [exact Hj|]. split; [exact Hq|]. split; [exact Hnorm|].
  pose proof (dy_written n k 0 q j ltac:(lia) ltac:(lia) ltac:(lia) Hq Hnorm ltac:(lia)) as H.
  rewrite Z.mul_1_r, Z.sub_0_r in H. exact H.
Qed.

Lemma dy_shift n k i :
  0 <= n < 2 ^ 24 -> 0 <= i -> -126 <= k <= 104 ->
  dy (n * 2 ^ i) (k - i) = dy n k.
Proof.
  intros Hn Hi Hk. destruct (Z.eq_dec n 0) as [-> | Hn0]; [reflexivity|].
  destruct (dy_finite n k ltac:(lia) Hk) as (q & j & Hj & Hq & Hnorm & ->).
  apply dy_written; lia.
Qed.

Lemma shl_align_fst q E ez :
  ez <= E -> Zpos (fst (shl_align q E ez)) = Zpos q * 2 ^ (E - ez).
Proof.
  intros Hle. unfold shl_align. destruct (ez - E) as [|d|d] eqn:Hd; try lia.
  - cbn [fst]. replace (E - ez) with 0 by lia. lia.
  - cbn [fst]. rewrite iter_xO_pow. f_equal. f_equal. lia.
Qed.

Lemma add_finite q1 E1 q2 E2 :
  F32.add (S754_finite false q1 E1) (S754_finite false q2 E2) =
  dy (Zpos q1 * 2 ^ (E1 - Z.min E1 E2) + Zpos q2 * 2 ^ (E2 - Z.min E1 E2)) (Z.min E1 E2).
Proof.
  unfold F32.add, SFadd, dy. cbn [cond_Zopp].
  rewrite !shl_align_fst by lia. reflexivity.
Qed.

Lemma sub_finite q1 E1 q2 E2 :
  F32.sub (S754_finite false q1 E1) (S754_finite false q2 E2) =
  dy (Zpos q1 * 2 ^ (E1 - Z.min E1 E2) - Zpos q2 * 2 ^ (E2 - Z.min E1 E2)) (Z.min E1 E2).
Proof.
  unfold F32.sub, SFsub, dy. cbn [cond_Zopp].
  rewrite !shl_align_fst by lia. reflexivity.
Qed.

Lemma aligned a b k ja jb qa qb :
  0 <= ja -> 0 <= jb -> Zpos qa = a * 2 ^ ja -> Zpos qb = b * 2 ^ jb ->
  let ez := Z.min (k - ja) (k - jb) in
  Zpos qa * 2 ^ (k - ja - ez) = a * 2 ^ (k - ez) /\
  Zpos qb * 2 ^ (k - jb - ez) = b * 2 ^ (k - ez) /\
  0 <= k - ez.
Proof.
  intros Hja Hjb Hqa Hqb ez. rewrite Hqa, Hqb.
  assert (Ha : 2 ^ ja * 2 ^ (k - ja - ez) = 2 ^ (k - ez))
    by (rewrite <- Z.pow_add_r by (unfold ez; lia); f_equal; lia).
  assert (Hb : 2 ^ jb * 2 ^ (k - jb - ez) = 2 ^ (k - ez))
    by (rewrite <- Z.pow_add_r by (unfold ez; lia); f_equal; lia).
  rewrite <- !Z.mul_assoc, Ha, Hb. unfold ez. lia.
Qed.

(** Sums and differences that fit 24 bits are exact. *)
Lemma add_dy a b k :
  0 <= a -> 0 <= b -> a + b < 2 ^ 24 -> -126 <= k <= 104 ->
  F32.add (dy a k) (dy b k) = dy (a + b) k.
Proof.
  intros Ha Hb Hab Hk.
  destruct (Z.eq_dec a 0) as [-> | Ha0].
  { rewrite dy_zero, Z.add_0_l. destruct (Z.eq_dec b 0) as [-> | Hb0]; [reflexivity|].
    destruct (dy_finite b k ltac:(lia) Hk) as (q & j & _ & _ & _ & ->). reflexivity. }
  destruct (Z.eq_dec b 0) as [-> | Hb0].
  { rewrite dy_zero, Z.add_0_r.
    destruct (dy_finite a k ltac:(lia) Hk) as (q & j & _ & _ & _ & ->). reflexivity. }
  destruct (dy_finite a k ltac:(lia) Hk) as (qa & ja & Hja & Hqa & _ & ->).
  destruct (dy_finite b k ltac:(lia) Hk) as (qb & jb & Hjb & Hqb & _ & ->).
  rewrite add_finite.
  destruct (aligned a b k ja jb qa qb ltac:(lia) ltac:(lia) Hqa Hqb) as (-> & -> & Hez).
  rewrite <- Z.mul_add_distr_r.
  set (ez := Z.min (k - ja) (k - jb)) in *.
  replace ez with (k - (k - ez)) at 2 by lia.
  apply dy_shift; lia.
Qed.

Lemma sub_dy a b k :
  0 <= b <= a -> a < 2 ^ 24 -> -126 <= k <= 104 ->
  F32.sub (dy a k) (dy b k) = dy (a - b) k.
Proof.
  intros Hb Ha Hk.
  destruct (Z.eq_dec b 0) as [-> | Hb0].
  { rewrite dy_zero, Z.sub_0_r. destruct (Z.eq_dec a 0) as [-> | Ha0]; [reflexivity|].
    destruct (dy_finite a k ltac:(lia) Hk) as (q & j & _ & _ & _ & ->). reflexivity. }
  destruct (dy_finite a k ltac:(lia) Hk) as (qa & ja & Hja & Hqa & _ & ->).
  destruct (dy_finite b k ltac:(lia) Hk) as (qb & jb & Hjb & Hqb & _ & ->).
  rewrite sub_finite.
  destruct (aligned a b k ja jb qa qb ltac:(lia) ltac:(lia) Hqa Hqb) as (-> & -> & Hez).
  rewrite <- Z.mul_sub_distr_r.
  set (ez := Z.min (k - ja) (k - jb)) in *.
  replace ez with (k - (k - ez)) at 2 by lia.
  apply dy_shift; lia.
Qed.

(** *** Division *)

Lemma div_unfold q1 E1 q2 E2 :
  2 ^ 23 <= Zpos q1 < 2 ^ 24 -> 2 ^ 23 <= Zpos q2 < 2 ^ 24 ->
  -149 <= E1 - E2 - 24 ->
  F32.div (S754_finite false q1 E1) (S754_finite false q2 E2) =
  binary_round_aux prec emax false
    (Zpos q1 * 2 ^ 24 / Zpos q2) (E1 - E2 - 24)
    (new_location (Zpos q2) ((Zpos q1 * 2 ^ 24) mod Zpos q2)).
Proof.
  intros H1 H2 He. unfold F32.div, SFdiv, SFdiv_core_binary. cbn [Zdigits2 xorb].
  rewrite (digits2_pos_normal q1 H1), (digits2_pos_normal q2 H2), fexp_binary32.
  replace (Z.min (Z.max (24 + E1 - (24 + E2) - 24) (-149)) (E1 - E2))
    with (E1 - E2 - 24) by lia.
  replace (E1 - E2 - (E1 - E2 - 24)) with 24 by lia.
  cbv iota. rewrite Z.shiftl_mul_pow2 by lia.
  unfold Z.div, Z.modulo.
  destruct (Z.div_eucl (Zpos q1 * 2 ^ 24) (Zpos q2)) as [Q r]. reflexivity.
Qed.

Lemma new_location_spec D r :
  0 < D -> 0 <= r < D ->
  new_location D r = if r =? 0 then loc_Exact else loc_Inexact (2 * r ?= D).
Proof.
  intros HD Hr. unfold new_location, new_location_even, new_location_odd.
  destruct (Z.even D) eqn:Hev; [reflexivity|].
  destruct (r =? 0); [reflexivity|]. f_equal.
  assert (Hodd : Z.odd D = true) by (rewrite <- Z.negb_even, Hev; reflexivity).
  apply Z.odd_spec in Hodd as [t Ht].
  destruct (Z.compare_spec (2 * r + 1) D), (Z.compare_spec (2 * r) D); try reflexivity; lia.
Qed.

(** Division of a value by itself, and by two. *)
Lemma div_self q E :
  2 ^ 23 <= Zpos q < 2 ^ 24 ->
  F32.div (S754_finite false q E) (S754_finite false q E) = F32.of_Z 1.
Proof.
  intros Hq. rewrite div_unfold by (try assumption; lia).
  rewrite (Z.mul_comm (Zpos q)), Z.div_mul, Z.mod_mul by lia.
  rewrite new_location_spec by lia. cbn [Z.eqb].
  replace (E - E - 24) with (-24) by lia.
  reflexivity.
Qed.


(** *** Rounding a quotient *)

Lemma shr_fexp_carry R e :
  2 ^ 23 <= R <= 2 ^ 24 -> -149 <= e ->
  exists Mz Ez,
    shr_fexp prec emax R e loc_Exact = (Build_shr_record (Zpos Mz) false false, Ez) /\
    2 ^ 23 <= Zpos Mz < 2 ^ 24 /\ e <= Ez <= e + 1 /\ Zpos Mz * 2 ^ (Ez - e) = R.
Proof.
  intros HR He. destruct R as [|p|p]; try lia.
  destruct (Z.eq_dec (Zpos p) (2 ^ 24)) as [Heq | Hne].
  - exists 8388608%positive, (e + 1).
    rewrite (shr_fexp_long p (2 ^ 23) e 1) by (rewrite ?Heq; lia).
    split; [reflexivity|]. split; [lia|]. split; [lia|].
    replace (e + 1 - e) with 1 by lia. rewrite Heq. reflexivity.
  - exists p, e. rewrite shr_fexp_normal by lia.
    split; [reflexivity|]. split; [lia|]. split; [lia|].
    rewrite Z.sub_diag. lia.
Qed.

Lemma round_nearest_even_bounds m l :
  m <= round_nearest_even m l <= m + 1.
Proof.
  destruct l as [|[]]; cbn [round_nearest_even]; try lia.
  destruct (Z.even m); lia.
Qed.

Lemma binary_round_aux_24 s Q e l :
  2 ^ 23 <= Q < 2 ^ 24 -> -149 <= e <= 103 ->
  exists Mz Ez,
    binary_round_aux prec emax s Q e l = S754_finite s Mz Ez /\
    e <= Ez /\ Zpos Mz * 2 ^ (Ez - e) = round_nearest_even Q l.
Proof.
  intros HQ He. destruct Q as [|q|q]; try lia.
  unfold binary_round_aux. rewrite (shr_fexp_normal q e l HQ) by lia.
  assert (Hm : shr_m (shr_record_of_loc (Zpos q) l) = Zpos q)
    by (destruct l as [|[]]; reflexivity).
  assert (Hl : loc_of_shr_record (shr_record_of_loc (Zpos q) l) = l)
    by (destruct l as [|[]]; reflexivity).
  rewrite Hm, Hl.
  pose proof (round_nearest_even_bounds (Zpos q) l) as HR.
  destruct (shr_fexp_carry (round_nearest_even (Zpos q) l) e ltac:(lia) ltac:(lia))
    as (Mz & Ez & -> & HMz & HEz & Hval).
  exists Mz, Ez. cbn [shr_m]. change (emax - prec) with 104.
  destruct (Z.leb_spec Ez 104); [|lia]. split; [reflexivity|]. split; [lia | exact Hval].
Qed.

Lemma binary_round_aux_25 s Q e l :
  2 ^ 24 <= Q < 2 ^ 25 -> -150 <= e <= 102 ->
  exists Q1 (b : bool) Mz Ez,
    Q = 2 * Q1 + (if b then 1 else 0) /\
    binary_round_aux prec emax s Q e l = S754_finite s Mz Ez /\
    e + 1 <= Ez /\
    Zpos Mz * 2 ^ (Ez - (e + 1)) =
      round_nearest_even Q1
        (loc_of_shr_record
           (Build_shr_record Q1 b (match l with loc_Exact => false | _ => true end))).
Proof.
  intros HQ He. destruct Q as [|q|q]; try lia.
  assert (Hd : Zpos (digits2_pos q) = 25) by (apply digits2_pos_unique; lia).
  unfold binary_round_aux, shr_fexp at 1. cbn [Zdigits2].
  rewrite Hd, fexp_binary32.
  replace (Z.max (25 + e - 24) (-149) - e) with 1 by lia.
  cbn [shr SpecFloat.iter_pos].
  assert (Hshr : exists Q1 (b : bool),
             Zpos q = 2 * Q1 + (if b then 1 else 0) /\
             shr_1 (shr_record_of_loc (Zpos q) l) =
             Build_shr_record Q1 b (match l with loc_Exact => false | _ => true end)).
  { destruct q as [p|p|]; [exists (Zpos p), true | exists (Zpos p), false | lia];
      (split; [lia|]); destruct l as [|[]]; reflexivity. }
  destruct Hshr as (Q1 & b & HQ1 & ->). cbn [shr_m].
  set (l' := loc_of_shr_record _).
  pose proof (round_nearest_even_bounds Q1 l') as HR.
  destruct (shr_fexp_carry (round_nearest_even Q1 l') (e + 1)
              ltac:(destruct b; lia) ltac:(lia))
    as (Mz & Ez & -> & HMz & HEz & Hval).
  exists Q1, b, Mz, Ez. cbn [shr_m]. change (emax - prec) with 104.
  destruct (Z.leb_spec Ez 104); [|lia].
  split; [exact HQ1|]. split; [reflexivity|]. split; [lia | exact Hval].
Qed.

(** The quotient of two normal values is rounded once: the result is within
    [2^-24] of the exact quotient, relatively.  In integers, with the result
    [V * 2^e'] and the exact quotient [N / D * 2^e']:
    [|V * D - N| * 2^24 <= N]. *)
Lemma div_rounded q1 E1 q2 E2 :
  2 ^ 23 <= Zpos q1 < 2 ^ 24 -> 2 ^ 23 <= Zpos q2 < 2 ^ 24 ->
  -149 <= E1 - E2 - 24 <= 102 ->
  exists Mz Ez,
    F32.div (S754_finite false q1 E1) (S754_finite false q2 E2) = S754_finite false Mz Ez /\
    E1 - E2 - 24 <= Ez /\
    Z.abs (Zpos Mz * 2 ^ (Ez - (E1 - E2 - 24)) * Zpos q2 - Zpos q1 * 2 ^ 24) * 2 ^ 24
    <= Zpos q1 * 2 ^ 24.
Proof.
  intros H1 H2 He. rewrite div_unfold by (try assumption; lia).
  set (N := Zpos q1 * 2 ^ 24). set (D := Zpos q2). set (e' := E1 - E2 - 24).
  assert (HD : 0 < D) by (unfold D; lia).
  pose proof (Z.div_mod N D ltac:(lia)) as HN.
  pose proof (Z.mod_pos_bound N D HD) as Hr.
  set (Q := N / D) in *. set (r := N mod D) in *.
  assert (HQ : 2 ^ 23 <= Q < 2 ^ 25).
  { split.
    - apply Z.div_le_lower_bound; [exact HD|]. unfold N, D. nia.
    - apply Z.div_lt_upper_bound; [exact HD|]. unfold N, D. nia. }
  rewrite new_location_spec by lia.
  assert (H23 : (2 : Z) ^ 23 = 8388608) by reflexivity.
  assert (H24 : (2 : Z) ^ 24 = 16777216) by reflexivity.
  assert (H25 : (2 : Z) ^ 25 = 33554432) by reflexivity.
  destruct (Z_lt_le_dec Q (2 ^ 24)) as [Hlt | Hge].
  - (* the quotient has 24 bits *)
    destruct (binary_round_aux_24 false Q e'
                (if r =? 0 then loc_Exact else loc_Inexact (2 * r ?= D))
                ltac:(lia) ltac:(unfold e'; lia))
      as (Mz & Ez & -> & HEz & Hval).
    exists Mz, Ez. split; [reflexivity|]. split; [exact HEz|].
    rewrite Hval. rewrite H24 in *. rewrite H23 in *.
    destruct (Z.eqb_spec r 0) as [Hr0 | Hr0]; cbn [round_nearest_even].
    + nia.
    + destruct (Z.compare_spec (2 * r) D); cbn [round_nearest_even].
      * destruct (Z.even Q); nia.
      * nia.
      * nia.
  - (* the quotient has 25 bits: one is shifted out *)
    destruct (binary_round_aux_25 false Q e'
                (if r =? 0 then loc_Exact else loc_Inexact (2 * r ?= D))
                ltac:(lia) ltac:(unfold e'; lia))
      as (Q1 & b & Mz & Ez & HQ1 & -> & HEz & Hval).
    exists Mz, Ez. split; [reflexivity|]. split; [lia|].
    replace (Ez - e') with (Ez - (e' + 1) + 1) by lia.
    rewrite Z.pow_add_r by lia. rewrite Z.mul_assoc, Hval.
    change (2 ^ 1) with 2. rewrite H24 in *. rewrite H25 in *.
    destruct (Z.eqb_spec r 0) as [Hr0 | Hr0].
    + destruct b; cbn [loc_of_shr_record round_nearest_even].
      * destruct (Z.even Q1); nia.
      * nia.
    + destruct b; cbn [loc_of_shr_record round_nearest_even]; nia.
Qed.

(** *** The rational a binary32 value denotes *)

Lemma inject_Z_pow2_pos k : 0 <= k -> (0 < inject_Z (2 ^ k))%Q.
Proof.
  intros Hk. assert (0 < 2 ^ k) by (apply Z.pow_pos_nonneg; lia).
  unfold Qlt. cbn. lia.
Qed.

Lemma to_Q_scaled m e k :
  0 <= k -> 0 <= e + k ->
  (F32.to_Q (S754_finite false m e) * inject_Z (2 ^ k) == inject_Z (Zpos m * 2 ^ (e + k)))%Q.
Proof.
  intros Hk Hek. unfold F32.to_Q. destruct e as [|p|p].
  - rewrite <- inject_Z_mult. rewrite Z.pow_0_r, Z.mul_1_r, Z.add_0_l. reflexivity.
  - rewrite <- inject_Z_mult, <- Z.mul_assoc, <- Z.pow_add_r by lia. reflexivity.
  - unfold Qeq, Qmult, inject_Z. cbn [Qnum Qden].
    rewrite Pos.mul_1_r, Z.mul_1_r, Pos2Z.inj_pow.
    replace k with (Zneg p + k + Zpos p) at 1 by lia.
    rewrite Z.pow_add_r by lia. change (Zpos 2) with 2. lia.
Qed.

Lemma to_Q_dy n k :
  0 <= n < 2 ^ 24 -> -126 <= k <= 0 ->
  (F32.to_Q (dy n k) * inject_Z (2 ^ (- k)) == inject_Z n)%Q.
Proof.
  intros Hn Hk. destruct (Z.eq_dec n 0) as [-> | Hn0].
  { rewrite dy_zero. cbn [F32.to_Q]. ring. }
  destruct (dy_finite n k ltac:(lia) ltac:(lia)) as (q & j & Hj & Hq & _ & ->).
  pose proof (to_Q_scaled q (k - j) (j - k) ltac:(lia) ltac:(lia)) as H.
  replace (k - j + (j - k)) with 0 in H by lia.
  rewrite Z.pow_0_r, Z.mul_1_r, Hq in H.
  replace (j - k) with (- k + j) in H by lia.
  rewrite Z.pow_add_r, !inject_Z_mult, Qmult_assoc in H by lia.
  apply (Qmult_inj_r _ _ (inject_Z (2 ^ j))); [|exact H].
  intros Hz. pose proof (inject_Z_pow2_pos j ltac:(lia)) as Hp. rewrite Hz in Hp.
  discriminate.
Qed.

Lemma to_Q_of_Z n : 0 <= n < 2 ^ 24 -> (F32.to_Q (F32.of_Z n) == inject_Z n)%Q.
Proof.
  intros Hn. pose proof (to_Q_dy n 0 Hn ltac:(lia)) as H.
  change (2 ^ (- 0)) with 1 in H. change (inject_Z 1) with 1%Q in H.
  rewrite Qmult_1_r in H. exact H.
Qed.


(** From the integers of a rounded quotient to the rationals. *)
Lemma rounds_to_from_integers (T X K : Q) (V N : Z) :
  (0 < K)%Q -> (T * K == inject_Z V)%Q -> (X * K == inject_Z N)%Q ->
  Z.abs (V - N) * 2 ^ 24 <= N ->
  (Qabs (T - X) * inject_Z (2 ^ 24) <= X)%Q.
Proof.
  intros HK HT HX Hint.
  apply (Qmult_le_r _ _ K HK).
  setoid_replace (Qabs (T - X) * inject_Z (2 ^ 24) * K)%Q
    with (Qabs ((T - X) * K) * inject_Z (2 ^ 24))%Q using relation Qeq.
  2:{ rewrite Qabs_Qmult, (Qabs_pos K) by (apply Qlt_le_weak; exact HK). ring. }
  setoid_replace ((T - X) * K)%Q with (inject_Z (V - N)) using relation Qeq.
  2:{ unfold Z.sub. rewrite inject_Z_plus, inject_Z_opp, <- HT, <- HX. ring. }
  rewrite HX.
  assert (Habs : Qabs (inject_Z (V - N)) = inject_Z (Z.abs (V - N))) by reflexivity.
  rewrite Habs, <- inject_Z_mult, <- Zle_Qle. exact Hint.
Qed.

(** The binary32 quotient of two integers below [2^24] is the exact quotient
    rounded once. *)
Lemma div_of_Z_rounded a b :
  0 < a < 2 ^ 24 -> 0 < b < 2 ^ 24 ->
  (Qabs (F32.to_Q (F32.div (F32.of_Z a) (F32.of_Z b)) - inject_Z a / inject_Z b)
   * inject_Z (2 ^ 24) <= inject_Z a / inject_Z b)%Q.
Proof.
  intros Ha Hb.
  destruct (dy_finite a 0 Ha ltac:(lia)) as (q1 & j1 & Hj1 & Hq1 & Hn1 & Hda).
  destruct (dy_finite b 0 Hb ltac:(lia)) as (q2 & j2 & Hj2 & Hq2 & Hn2 & Hdb).
  unfold dy in Hda, Hdb. unfold F32.of_Z. rewrite Hda, Hdb.
  destruct (div_rounded q1 (0 - j1) q2 (0 - j2) Hn1 Hn2 ltac:(lia))
    as (Mz & Ez & -> & HEz & Hint).
  set (e' := 0 - j1 - (0 - j2) - 24) in *.
  pose proof (to_Q_scaled Mz Ez (- e') ltac:(lia) ltac:(lia)) as HT.
  replace (Ez + - e') with (Ez - e') in HT by lia.
  assert (HbQ : ~ (inject_Z b == 0)%Q).
  { intros Hz. unfold Qeq in Hz. cbn in Hz. lia. }
  apply (rounds_to_from_integers _ _ (inject_Z (2 ^ (- e')) * inject_Z (Zpos q2))
           (Zpos Mz * 2 ^ (Ez - e') * Zpos q2) (Zpos q1 * 2 ^ 24)).
  - apply Qmult_lt_0_compat; [apply inject_Z_pow2_pos; lia|]. unfold Qlt. cbn. lia.
  - rewrite Qmult_assoc, HT, <- inject_Z_mult. reflexivity.
  - rewrite Hq1, Hq2. rewrite <- !inject_Z_mult.
    replace (2 ^ (- e') * (b * 2 ^ j2)) with (b * (2 ^ j1 * 2 ^ 24)).
    2:{ replace (- e') with (j1 + 24 - j2) by lia.
        replace (2 ^ j1 * 2 ^ 24) with (2 ^ (j1 + 24 - j2) * 2 ^ j2)
          by (rewrite <- !Z.pow_add_r by lia; f_equal; lia).
        lia. }
    rewrite (inject_Z_mult b), (inject_Z_mult (a * 2 ^ j1)), (inject_Z_mult a).
    rewrite (inject_Z_mult (2 ^ j1)). field. exact HbQ.
  - exact Hint.
Qed.

(** The same as an enclosure: with [T] the binary32 quotient of [a] by [d],
    [a * (2^24 - 1) <= T * 2^24 * d <= a * (2^24 + 1)]. *)
Lemma div_of_Z_enclosed a d :
  0 < a < 2 ^ 24 -> 0 < d < 2 ^ 24 ->
  (inject_Z (a * (2 ^ 24 - 1))
   <= F32.to_Q (F32.div (F32.of_Z a) (F32.of_Z d)) * inject_Z (2 ^ 24 * d) /\
   F32.to_Q (F32.div (F32.of_Z a) (F32.of_Z d)) * inject_Z (2 ^ 24 * d)
   <= inject_Z (a * (2 ^ 24 + 1)))%Q.
Proof.
  intros Ha Hd. pose proof (div_of_Z_rounded a d Ha Hd) as H.
  set (T := F32.to_Q _) in *.
  assert (HD : (0 < inject_Z d)%Q) by (unfold Qlt; cbn; lia).
  assert (HXD : (inject_Z a / inject_Z d * inject_Z d == inject_Z a)%Q).
  { field. intros Hz. rewrite Hz in HD. discriminate. }
  set (X := (inject_Z a / inject_Z d)%Q) in *.
  assert (Hup : ((T - X) * inject_Z (2 ^ 24) <= X)%Q).
  { eapply Qle_trans; [|exact H]. apply Qmult_le_compat_r; [apply Qle_Qabs|].
    apply Qlt_le_weak, inject_Z_pow2_pos. lia. }
  assert (Hlo : ((X - T) * inject_Z (2 ^ 24) <= X)%Q).
  { eapply Qle_trans; [|exact H]. apply Qmult_le_compat_r.
    - rewrite <- (Qabs_opp (T - X)). setoid_replace (- (T - X))%Q with (X - T)%Q
        using relation Qeq by ring. apply Qle_Qabs.
    - apply Qlt_le_weak, inject_Z_pow2_pos. lia. }
  apply (Qmult_le_compat_r _ _ (inject_Z d)) in Hup; [|apply Qlt_le_weak; exact HD].
  apply (Qmult_le_compat_r _ _ (inject_Z d)) in Hlo; [|apply Qlt_le_weak; exact HD].
  rewrite HXD in Hup, Hlo.
  rewrite !inject_Z_mult, inject_Z_plus.
  unfold Z.sub. rewrite inject_Z_plus, inject_Z_opp.
  change (inject_Z (2 ^ 24)) with (16777216 # 1)%Q in *. change (inject_Z 1) with 1%Q.
  assert (E1 : ((T - X) * (16777216 # 1) * inject_Z d
                == (16777216 # 1) * (T * inject_Z d) - (16777216 # 1) * (X * inject_Z d))%Q)
    by ring.
  assert (E2 : ((X - T) * (16777216 # 1) * inject_Z d
                == (16777216 # 1) * (X * inject_Z d) - (16777216 # 1) * (T * inject_Z d))%Q)
    by ring.
  rewrite E1 in Hup. rewrite E2 in Hlo. rewrite HXD in Hup, Hlo.
  setoid_replace (T * ((16777216 # 1) * inject_Z d))%Q
    with ((16777216 # 1) * (T * inject_Z d))%Q using relation Qeq by ring.
  set (TD := (T * inject_Z d)%Q) in *. set (A := inject_Z a) in *.
  split; lra.
Qed.

Lemma div_of_Z_zero d :
  0 < d < 2 ^ 24 -> F32.div (F32.of_Z 0) (F32.of_Z d) = S754_zero false.
Proof.
  intros Hd. destruct (dy_finite d 0 Hd ltac:(lia)) as (q & j & _ & _ & _ & Hq).
  unfold dy in Hq. unfold F32.of_Z at 2. rewrite Hq. reflexivity.
Qed.

Lemma div_of_Z_self d :
  0 < d < 2 ^ 24 -> F32.div (F32.of_Z d) (F32.of_Z d) = F32.of_Z 1.
Proof.
  intros Hd. destruct (dy_finite d 0 Hd ltac:(lia)) as (q & j & _ & _ & Hn & Hq).
  unfold dy in Hq. unfold F32.of_Z at 1 2. rewrite Hq. apply div_self. exact Hn.
Qed.


Lemma div_of_Z_is_finite a d :
  0 <= a < 2 ^ 24 -> 0 < d < 2 ^ 24 ->
  F32.is_finite (F32.div (F32.of_Z a) (F32.of_Z d)) = true.
Proof.
  intros Ha Hd. destruct (Z.eq_dec a 0) as [-> | Ha0].
  { rewrite div_of_Z_zero by lia. reflexivity. }
  destruct (dy_finite a 0 ltac:(lia) ltac:(lia)) as (q1 & j1 & Hj1 & _ & Hn1 & Hda).
  destruct (dy_finite d 0 Hd ltac:(lia)) as (q2 & j2 & Hj2 & _ & Hn2 & Hdd).
  unfold dy in Hda, Hdd. unfold F32.of_Z. rewrite Hda, Hdd.
  destruct (div_rounded q1 (0 - j1) q2 (0 - j2) Hn1 Hn2 ltac:(lia)) as (Mz & Ez & -> & _).
  reflexivity.
Qed.

(** Quotients by the same divisor keep the order of the numerators and stay
    between 0 and 1. *)
Lemma div_of_Z_between a b d :
  0 <= a <= b -> b <= d -> 0 < d <= 2 ^ 23 ->
  (0 <= F32.to_Q (F32.div (F32.of_Z a) (F32.of_Z d)) /\
   F32.to_Q (F32.div (F32.of_Z a) (F32.of_Z d))
   <= F32.to_Q (F32.div (F32.of_Z b) (F32.of_Z d)) /\
   F32.to_Q (F32.div (F32.of_Z b) (F32.of_Z d)) <= 1)%Q.
Proof.
  intros Hab Hbd Hd.
  assert (H23 : (2 : Z) ^ 23 = 8388608) by reflexivity.
  assert (H24 : (2 : Z) ^ 24 = 16777216) by reflexivity.
  assert (HS : (0 < inject_Z (2 ^ 24 * d))%Q) by (unfold Qlt; cbn; lia).
  assert (Hnonneg : forall n, 0 <= n <= d ->
            (0 <= F32.to_Q (F32.div (F32.of_Z n) (F32.of_Z d)))%Q).
  { intros n Hn. destruct (Z.eq_dec n 0) as [-> | Hn0].
    - rewrite div_of_Z_zero by lia. cbn. apply Qle_refl.
    - destruct (div_of_Z_enclosed n d ltac:(lia) ltac:(lia)) as [Hlo _].
      apply (Qmult_le_r _ _ _ HS). rewrite Qmult_0_l.
      eapply Qle_trans; [|exact Hlo]. rewrite <- (Zle_Qle 0). nia. }
  split; [apply Hnonneg; lia|]. split.
  - destruct (Z.eq_dec a b) as [-> | Hne]; [apply Qle_refl|].
    destruct (Z.eq_dec a 0) as [-> | Ha0].
    + rewrite div_of_Z_zero by lia. cbn [F32.to_Q]. apply Hnonneg. lia.
    + destruct (div_of_Z_enclosed a d ltac:(lia) ltac:(lia)) as [_ Hup].
      destruct (div_of_Z_enclosed b d ltac:(lia) ltac:(lia)) as [Hlo _].
      apply (Qmult_le_r _ _ _ HS).
      eapply Qle_trans; [exact Hup|]. eapply Qle_trans; [|exact Hlo].
      rewrite <- Zle_Qle. nia.
  - destruct (Z.eq_dec b d) as [-> | Hne].
    + rewrite div_of_Z_self by lia.
      assert (E : (F32.to_Q (F32.of_Z 1) == 1)%Q) by (vm_compute; reflexivity).
      rewrite E. apply Qle_refl.
    + destruct (Z.eq_dec b 0) as [-> | Hb0].
      * rewrite div_of_Z_zero by lia. cbn. discriminate.
      * destruct (div_of_Z_enclosed b d ltac:(lia) ltac:(lia)) as [_ Hup].
        apply (Qmult_le_r _ _ _ HS). rewrite Qmult_1_l.
        eapply Qle_trans; [exact Hup|]. rewrite <- Zle_Qle. nia.
Qed.

Lemma of_Z_dy n : F32.of_Z n = dy n 0.
Proof. reflexivity. Qed.


End Binary32Facts.

(** ** Texture offsets and text layout *)

Section TextureOffsets.
Import F32 Dyadic CStr Renderer.

(** The pixel [x] of a column, computed in [int]. *)
Lemma column_pixel fw c :
  0 <= fw -> 0 <= c -> 1 + c * (fw + 1) + fw < 2 ^ 24 ->
  Int.add 1 (Int.mul c (Int.add fw 1)) = 1 + c * (fw + 1).
Proof.
  intros Hfw Hc Hx.
  assert (R : forall z, 0 <= z < 2 ^ 24 -> Int.wrap z = z).
  { intros z Hz. apply Int_wrap_small. unfold Int.in_range, Int.INT_MIN, Int.INT_MAX. lia. }
  unfold Int.add, Int.mul. rewrite (R (fw + 1)) by nia.
  rewrite (R (c * (fw + 1))) by nia. apply R. nia.
Qed.

(** The offsets of a column in binary32: the subtraction [w - 1] and the
    addition [x + fw] are exact, the two divisions round. *)
Lemma u_offsets_binary32 sheet y c :
  1 <= m_nWidth sheet < 2 ^ 24 ->
  0 <= m_nFrameWidth sheet -> 0 <= c ->
  1 + c * (m_nFrameWidth sheet + 1) + m_nFrameWidth sheet < 2 ^ 24 ->
  u0 (uv_offsets (F:=spec_float) sheet y c) =
    F32.div (F32.of_Z (1 + c * (m_nFrameWidth sheet + 1)))
            (F32.of_Z (m_nWidth sheet - 1)) /\
  u1 (uv_offsets (F:=spec_float) sheet y c) =
    F32.div (F32.of_Z (1 + c * (m_nFrameWidth sheet + 1) + m_nFrameWidth sheet))
            (F32.of_Z (m_nWidth sheet - 1)).
Proof.
  intros Hw Hfw Hc Hx. unfold uv_offsets. cbn [u0 u1 of_int fadd fsub fdiv binary32].
  rewrite (column_pixel _ _ Hfw Hc Hx), !of_Z_dy.
  rewrite sub_dy by lia. rewrite add_dy by nia. split; reflexivity.
Qed.

Lemma v_offsets_binary32 sheet y c :
  1 <= m_nHeight sheet < 2 ^ 24 ->
  0 <= m_nFrameHeight sheet -> 0 <= y ->
  y + m_nFrameHeight sheet < 2 ^ 24 ->
  v0 (uv_offsets (F:=spec_float) sheet y c) =
    F32.div (F32.of_Z y) (F32.of_Z (m_nHeight sheet - 1)) /\
  v1 (uv_offsets (F:=spec_float) sheet y c) =
    F32.div (F32.of_Z (y + m_nFrameHeight sheet)) (F32.of_Z (m_nHeight sheet - 1)).
Proof.
  intros Hh Hfh Hy Hsum. unfold uv_offsets. cbn [v0 v1 of_int fadd fsub fdiv binary32].
  rewrite !of_Z_dy. rewrite sub_dy by lia. rewrite add_dy by lia. split; reflexivity.
Qed.

Lemma rounds_to_true f q :
  (Qabs (F32.to_Q f - q) * inject_Z (2 ^ 24) <= q)%Q -> rounds_to f q = true.
Proof. intros H. unfold rounds_to. apply Qle_bool_iff. exact H. Qed.

(** C5, amended.  For the glyph at column [c] (and any row) of a sheet less
    than 2^24 pixels wide, in the binary32 arithmetic of the code: the left
    edge [u0] is the texture pixel [x = 1 + c * (frame_width + 1)] divided by
    [sheet_width - 1] and the right edge [u1] is [x + frame_width] divided by
    [sheet_width - 1], each rounded once (the subtraction and the addition
    are exact); so the width [u1 - u0] is [frame_width / (sheet_width - 1)] to
    within these two roundings. *)
Theorem uv_offsets_left_edge_and_width sheet y c :
  2 <= m_nWidth sheet < 2 ^ 24 ->
  0 <= m_nFrameWidth sheet ->
  0 <= c ->
  1 + c * (m_nFrameWidth sheet + 1) + m_nFrameWidth sheet < 2 ^ 24 ->
  let x := 1 + c * (m_nFrameWidth sheet + 1) in
  let r := uv_offsets (F:=spec_float) sheet y c in
  rounds_to (u0 r) (inject_Z x / inject_Z (m_nWidth sheet - 1)) = true /\
  rounds_to (u1 r)
    (inject_Z (x + m_nFrameWidth sheet) / inject_Z (m_nWidth sheet - 1)) = true /\
  (Qabs (uv_width_binary32 sheet y c
         - inject_Z (m_nFrameWidth sheet) / inject_Z (m_nWidth sheet - 1))
   * inject_Z (2 ^ 24)
   <= inject_Z (2 * x + m_nFrameWidth sheet) / inject_Z (m_nWidth sheet - 1))%Q.
Proof.
  intros Hw Hfw Hc Hx x r.
  destruct (u_offsets_binary32 sheet y c ltac:(lia) Hfw Hc Hx) as [Hu0 Hu1].
  assert (Hx0 : 0 < x) by (unfold x; nia).
  pose proof (div_of_Z_rounded x (m_nWidth sheet - 1) ltac:(unfold x in *; lia) ltac:(lia))
    as H0.
  pose proof (div_of_Z_rounded (x + m_nFrameWidth sheet) (m_nWidth sheet - 1)
                ltac:(unfold x in *; lia) ltac:(lia)) as H1.
  fold x in Hu0, Hu1. rewrite <- Hu0 in H0. rewrite <- Hu1 in H1. fold r in H0, H1.
  split; [apply rounds_to_true; exact H0|]. split; [apply rounds_to_true; exact H1|].
  unfold uv_width_binary32. fold x r.
  set (T0 := F32.to_Q (u0 r)) in *. set (T1 := F32.to_Q (u1 r)) in *.
  assert (Hd : ~ (inject_Z (m_nWidth sheet - 1) == 0)%Q).
  { intros Hz. unfold Qeq in Hz. cbn in Hz. lia. }
  set (D := inject_Z (m_nWidth sheet - 1)) in *.
  set (X0 := (inject_Z x / D)%Q) in *.
  set (X1 := (inject_Z (x + m_nFrameWidth sheet) / D)%Q) in *.
  assert (HX : (inject_Z (m_nFrameWidth sheet) / D == X1 - X0)%Q).
  { unfold X1, X0. rewrite inject_Z_plus. field. exact Hd. }
  assert (HS : (inject_Z (2 * x + m_nFrameWidth sheet) / D == X1 + X0)%Q).
  { unfold X1, X0. rewrite !inject_Z_plus, inject_Z_mult.
    change (inject_Z 2) with 2%Q. field. exact Hd. }
  rewrite HX, HS.
  setoid_replace (T1 - T0 - (X1 - X0))%Q with ((T1 - X1) + (X0 - T0))%Q
    using relation Qeq by ring.
  eapply Qle_trans.
  { apply Qmult_le_compat_r; [apply Qabs_triangle|].
    apply Qlt_le_weak, inject_Z_pow2_pos. lia. }
  rewrite Qmult_plus_distr_l.
  apply Qplus_le_compat; [exact H1|].
  rewrite <- (Qabs_opp (X0 - T0)).
  setoid_replace (- (X0 - T0))%Q with (T0 - X0)%Q using relation Qeq by ring.
  exact H0.
Qed.

Lemma uv_offsets_left_edge_and_width_witness :
  2 <= m_nWidth demo_sheet < 2 ^ 24 /\
  0 <= m_nFrameWidth demo_sheet /\
  0 <= 7 /\
  1 + 7 * (m_nFrameWidth demo_sheet + 1) + m_nFrameWidth demo_sheet < 2 ^ 24 /\
  let x := 1 + 7 * (m_nFrameWidth demo_sheet + 1) in
  let r := uv_offsets (F:=spec_float) demo_sheet 48 7 in
  rounds_to (u0 r) (inject_Z x / inject_Z (m_nWidth demo_sheet - 1)) = true /\
  rounds_to (u1 r)
    (inject_Z (x + m_nFrameWidth demo_sheet) / inject_Z (m_nWidth demo_sheet - 1)) = true /\
  (Qabs (uv_width_binary32 demo_sheet 48 7
         - inject_Z (m_nFrameWidth demo_sheet) / inject_Z (m_nWidth demo_sheet - 1))
   * inject_Z (2 ^ 24)
   <= inject_Z (2 * x + m_nFrameWidth demo_sheet) / inject_Z (m_nWidth demo_sheet - 1))%Q.
Proof.
  assert (H1 : 2 <= m_nWidth demo_sheet < 2 ^ 24) by (cbn; lia).
  assert (H2 : 0 <= m_nFrameWidth demo_sheet) by (cbn; lia).
  assert (H3 : 0 <= 7) by lia.
  assert (H4 : 1 + 7 * (m_nFrameWidth demo_sheet + 1) + m_nFrameWidth demo_sheet < 2 ^ 24)
    by (cbn; lia).
  split; [exact H1|]. split; [exact H2|]. split; [exact H3|]. split; [exact H4|].
  exact (uv_offsets_left_edge_and_width demo_sheet 48 7 H1 H2 H3 H4).
Defined.

(** X21.  On a sheet large enough for 26 columns of frames, one pixel apart
    and one pixel in from the left, and for the lowest row at 95, and at most
    2^23 pixels wide and high, the rectangle that the code uploads for any
    character lies inside the texture: the binary32 offsets satisfy
    0 <= u0 <= u1 <= 1 and 0 <= v0 <= v1 <= 1. *)
Theorem glyph_rectangle_inside_sheet sheet c :
  0 <= m_nFrameWidth sheet ->
  0 <= m_nFrameHeight sheet ->
  26 * (m_nFrameWidth sheet + 1) + 1 <= m_nWidth sheet <= 2 ^ 23 ->
  96 + m_nFrameHeight sheet <= m_nHeight sheet <= 2 ^ 23 ->
  let cell := glyph_cell (char_value c) in
  let r := uv_offsets (F:=spec_float) sheet (fst cell) (snd cell) in
  F32.is_finite (u0 r) && F32.is_finite (u1 r)
    && F32.is_finite (v0 r) && F32.is_finite (v1 r) = true /\
  (0 <= F32.to_Q (u0 r) /\ F32.to_Q (u0 r) <= F32.to_Q (u1 r) /\ F32.to_Q (u1 r) <= 1 /\
   0 <= F32.to_Q (v0 r) /\ F32.to_Q (v0 r) <= F32.to_Q (v1 r) /\ F32.to_Q (v1 r) <= 1)%Q.
Proof.
  intros Hfw Hfh Hw Hh. cbv zeta.
  destruct (glyph_cell_range (char_value c)) as [Hy Hx].
  destruct (glyph_cell (char_value c)) as [y xoffset]. cbn [fst snd] in *.
  assert (H23 : (2 : Z) ^ 23 = 8388608) by reflexivity.
  assert (H24 : (2 : Z) ^ 24 = 16777216) by reflexivity.
  destruct (u_offsets_binary32 sheet y xoffset ltac:(lia) Hfw ltac:(lia) ltac:(nia))
    as [-> ->].
  destruct (v_offsets_binary32 sheet y xoffset ltac:(lia) Hfh ltac:(lia) ltac:(lia))
    as [-> ->].
  destruct (div_of_Z_between (1 + xoffset * (m_nFrameWidth sheet + 1))
              (1 + xoffset * (m_nFrameWidth sheet + 1) + m_nFrameWidth sheet)
              (m_nWidth sheet - 1) ltac:(nia) ltac:(nia) ltac:(lia)) as (U0 & U01 & U1).
  destruct (div_of_Z_between y (y + m_nFrameHeight sheet) (m_nHeight sheet - 1)
              ltac:(lia) ltac:(lia) ltac:(lia)) as (V0 & V01 & V1).
  split; [|auto 10].
  rewrite !div_of_Z_is_finite by nia. reflexivity.
Qed.

Lemma glyph_rectangle_inside_sheet_witness :
  0 <= m_nFrameWidth demo_sheet /\
  0 <= m_nFrameHeight demo_sheet /\
  26 * (m_nFrameWidth demo_sheet + 1) + 1 <= m_nWidth demo_sheet <= 2 ^ 23 /\
  96 + m_nFrameHeight demo_sheet <= m_nHeight demo_sheet <= 2 ^ 23 /\
  let cell := glyph_cell (char_value "z") in
  let r := uv_offsets (F:=spec_float) demo_sheet (fst cell) (snd cell) in
  F32.is_finite (u0 r) && F32.is_finite (u1 r)
    && F32.is_finite (v0 r) && F32.is_finite (v1 r) = true /\
  (0 <= F32.to_Q (u0 r) /\ F32.to_Q (u0 r) <= F32.to_Q (u1 r) /\ F32.to_Q (u1 r) <= 1 /\
   0 <= F32.to_Q (v0 r) /\ F32.to_Q (v0 r) <= F32.to_Q (v1 r) /\ F32.to_Q (v1 r) <= 1)%Q.
Proof.
  assert (H1 : 0 <= m_nFrameWidth demo_sheet) by (cbn; lia).
  assert (H2 : 0 <= m_nFrameHeight demo_sheet) by (cbn; lia).
  assert (H3 : 26 * (m_nFrameWidth demo_sheet + 1) + 1 <= m_nWidth demo_sheet <= 2 ^ 23)
    by (cbn; lia).
  assert (H4 : 96 + m_nFrameHeight demo_sheet <= m_nHeight demo_sheet <= 2 ^ 23)
    by (cbn; lia).
  split; [exact H1|]. split; [exact H2|]. split; [exact H3|]. split; [exact H4|].
  exact (glyph_rectangle_inside_sheet demo_sheet "z" H1 H2 H3 H4).
Defined.




End TextureOffsets.
